(** * Pashto++ front end: lexer and recursive-descent parser

    A shallow embedding of [lib/interpreter/lexer.ts] and
    [lib/interpreter/parser.ts], together with the entry point
    [lib/interpreter-client.ts], and the properties of the language
    front end established on it.

    Conventions of the embedding.
    - A source text is a [string]; one [ascii] stands for one code unit
      below 256 of the JavaScript string.
    - Line and column counters are [nat].
    - A Number is the exact rational value of a double, or one of the
      values that have none; [parseFloat] reads the whole syntax of the
      builtin and rounds to the nearest double.
    - A JavaScript exception is the [Throw] outcome of [Result]; the
      message of an [Error] is built exactly as the template literal of
      the source builds it.  Reading a property of [undefined] is
      [TypeError].
    - Every [while] and [do .. while] loop and every recursive method
      carries a fuel argument; [OutOfFuel] is an outcome of its own, so
      that a result [Ok] or [Throw] is always a result of the program. *)

From Stdlib Require Import String Ascii List Arith Bool Lia.
From Stdlib Require Import DecimalString DecimalNat QArith.
Import ListNotations.

Local Open Scope string_scope.
Local Open Scope nat_scope.

Set Warnings "-register-all,-non-full-mutual".

(** ** Outcomes *)

Inductive Exn : Type :=
| Error (message : string)
| TypeError.

Inductive Result (A : Type) : Type :=
| Ok (a : A)
| Throw (e : Exn)
| OutOfFuel.

Arguments Ok {A} a.
Arguments Throw {A} e.
Arguments OutOfFuel {A}.

(** ** Characters and strings of the host language *)

(** The character with code 34, the double quote. *)
Definition dquote : ascii := "034"%char.
(** The character with code 39, the single quote. *)
Definition squote : ascii := "039"%char.
(** The line feed. *)
Definition newline : ascii := "010"%char.

Definition str (c : ascii) : string := String c EmptyString.

(** Number-to-string conversion of a template literal, for a counter. *)
Definition showNat (n : nat) : string := NilZero.string_of_uint (Nat.to_uint n).

Definition between (lo hi : nat) (c : ascii) : bool :=
  (lo <=? nat_of_ascii c) && (nat_of_ascii c <=? hi).

(** [/\s/] on code units below 256: tab, line feed, vertical tab, form
    feed, carriage return, space and the no-break space. *)
Definition isSpace (c : ascii) : bool :=
  between 9 13 c || (nat_of_ascii c =? 32) || (nat_of_ascii c =? 160).

(** [/[0-9]/]. *)
Definition isDigit (c : ascii) : bool := between 48 57 c.

(** [/[a-zA-Z_]/]. *)
Definition isIdentStart (c : ascii) : bool :=
  between 97 122 c || between 65 90 c || (nat_of_ascii c =? 95).

(** [/[a-zA-Z0-9_]/]. *)
Definition isIdentChar (c : ascii) : bool := isIdentStart c || isDigit c.

(** [String.prototype.toLowerCase] on code units below 256: the capital
    letters A-Z, and the accented capitals 192-222 but for the
    multiplication sign 215, move up by 32. *)
Definition lowerChar (c : ascii) : ascii :=
  if between 65 90 c || (between 192 222 c && negb (nat_of_ascii c =? 215))
  then ascii_of_nat (nat_of_ascii c + 32) else c.

Fixpoint toLowerCase (s : string) : string :=
  match s with
  | EmptyString => EmptyString
  | String c s' => String (lowerChar c) (toLowerCase s')
  end.

(** [Array.prototype.includes] on an array of strings. *)
Definition includes (l : list string) (s : string) : bool :=
  existsb (String.eqb s) l.

(** ** Tokens *)

Inductive TokenType : Type :=
| NUMBER | STRING | IDENTIFIER | KEYWORD | OPERATOR | PUNCTUATION | EOF.

Definition TokenType_eqb (a b : TokenType) : bool :=
  match a, b with
  | NUMBER, NUMBER | STRING, STRING | IDENTIFIER, IDENTIFIER
  | KEYWORD, KEYWORD | OPERATOR, OPERATOR | PUNCTUATION, PUNCTUATION
  | EOF, EOF => true
  | _, _ => false
  end.

Record Token : Type := mkToken {
  type : TokenType;
  value : string;
  line : nat;
  column : nat
}.

(** Keywords in Pashto++ (case insensitive). *)
Definition KEYWORDS : list string :=
  ["ko"; "geni"; "kala"; "che"; "we"; "opejana"; "raka"; "olika";
   "oghwara"; "rishtia"; "ghalat"].

(** Operators in Pashto++. *)
Definition OPERATORS : list string :=
  ["+"; "jama"; "-"; "manfi"; "*"; "zarab"; "/"; "takseem";
   "%"; "takseembaki"; "_"; "=="; "!="; ">"; "<"; ">="; "<="; "="].

(** ** The lexer *)

Module Lexer.

Record Lexer : Type := mkLexer {
  code : string;
  position : nat;
  line : nat;
  column : nat;
  currentChar : option ascii
}.

(** The constructor. *)
Definition new (code : string) : Lexer :=
  mkLexer code 0 1 1
          (if 0 <? String.length code then String.get 0 code else None).

Definition advance (L : Lexer) : Lexer :=
  let position' := S (position L) in
  let column' := S (column L) in
  if String.length (code L) <=? position' then
    mkLexer (code L) position' (line L) column' None
  else
    let c := String.get position' (code L) in
    match c with
    | Some "010"%char => mkLexer (code L) position' (S (line L)) 1 c
    | _ => mkLexer (code L) position' (line L) column' c
    end.

Definition peek (L : Lexer) : option ascii :=
  let peekPos := position L + 1 in
  if String.length (code L) <=? peekPos then None
  else String.get peekPos (code L).

(** Every loop of the lexer advances by one character in each turn and
    stops at the end of the text; this many turns are never used up. *)
Definition loopFuel (L : Lexer) : nat := 2 + String.length (code L).

Definition isChar (c : ascii) (o : option ascii) : bool :=
  match o with Some d => Ascii.eqb d c | None => false end.

Definition optChar_eqb (a b : option ascii) : bool :=
  match a, b with
  | Some x, Some y => Ascii.eqb x y
  | None, None => true
  | _, _ => false
  end.

(** [while (this.currentChar !== null && p(this.currentChar)) this.advance()] *)
Fixpoint skipWhile (p : ascii -> bool) (fuel : nat) (L : Lexer) : Result Lexer :=
  match fuel with
  | 0 => OutOfFuel
  | S fuel' =>
      match currentChar L with
      | Some c => if p c then skipWhile p fuel' (advance L) else Ok L
      | None => Ok L
      end
  end.

(** [while (this.currentChar !== null && p(this.currentChar))
       { result += this.currentChar; this.advance(); }] *)
Fixpoint readWhile (p : ascii -> bool) (fuel : nat) (result : string) (L : Lexer)
  : Result (string * Lexer) :=
  match fuel with
  | 0 => OutOfFuel
  | S fuel' =>
      match currentChar L with
      | Some c =>
          if p c then readWhile p fuel' (result ++ str c) (advance L)
          else Ok (result, L)
      | None => Ok (result, L)
      end
  end.

Definition skipWhitespace (L : Lexer) : Result Lexer :=
  skipWhile isSpace (loopFuel L) L.

Definition skipComment (L : Lexer) : Result Lexer :=
  if isChar "/" (currentChar L) && isChar "/" (peek L) then
    match skipWhile (fun c => negb (Ascii.eqb c newline)) (loopFuel L) L with
    | Ok L1 => if isChar newline (currentChar L1) then Ok (advance L1) else Ok L1
    | Throw e => Throw e
    | OutOfFuel => OutOfFuel
    end
  else Ok L.

Definition number (L : Lexer) : Result (Token * Lexer) :=
  let startColumn := column L in
  match readWhile isDigit (loopFuel L) "" L with
  | Ok (result, L1) =>
      if isChar "." (currentChar L1) then
        match readWhile isDigit (loopFuel L) (result ++ ".") (advance L1) with
        | Ok (result2, L2) => Ok (mkToken NUMBER result2 (line L2) startColumn, L2)
        | Throw e => Throw e
        | OutOfFuel => OutOfFuel
        end
      else Ok (mkToken NUMBER result (line L1) startColumn, L1)
  | Throw e => Throw e
  | OutOfFuel => OutOfFuel
  end.

Definition string_ (L : Lexer) : Result (Token * Lexer) :=
  let startColumn := column L in
  let quote := currentChar L in
  match readWhile (fun c => negb (optChar_eqb (Some c) quote))
                  (loopFuel L) "" (advance L) with
  | Ok (result, L1) =>
      if optChar_eqb (currentChar L1) quote then
        let L2 := advance L1 in
        Ok (mkToken STRING result (line L2) startColumn, L2)
      else
        Throw (Error ("Unterminated string at line " ++ showNat (line L1)
                      ++ ", column " ++ showNat startColumn))
  | Throw e => Throw e
  | OutOfFuel => OutOfFuel
  end.

(** The tail of [identifier]: the classification of the lexeme read. *)
Definition classify (result : string) (line startColumn : nat) : Token :=
  let lowerResult := toLowerCase result in
  if includes KEYWORDS lowerResult then mkToken KEYWORD lowerResult line startColumn
  else if includes OPERATORS lowerResult then mkToken OPERATOR lowerResult line startColumn
  else mkToken IDENTIFIER result line startColumn.

Definition identifier (L : Lexer) : Result (Token * Lexer) :=
  let startColumn := column L in
  match readWhile isIdentChar (loopFuel L) "" L with
  | Ok (result, L1) => Ok (classify result (line L1) startColumn, L1)
  | Throw e => Throw e
  | OutOfFuel => OutOfFuel
  end.

(** [operator] is entered at a character only ([this.currentChar!]). *)
Definition operator (L : Lexer) : Result (Token * Lexer) :=
  let startColumn := column L in
  match currentChar L with
  | None => Throw TypeError
  | Some v =>
      let L1 := advance L in
      if (Ascii.eqb v "=" || Ascii.eqb v "!" || Ascii.eqb v ">" || Ascii.eqb v "<")
         && isChar "=" (currentChar L1)
      then
        let L2 := advance L1 in
        Ok (mkToken OPERATOR (str v ++ "=") (line L2) startColumn, L2)
      else Ok (mkToken OPERATOR (str v) (line L1) startColumn, L1)
  end.

Definition isPunctuation (c : ascii) : bool :=
  includes ["("; ")"; "{"; "}"; "["; "]"; ","; "."; ";"] (str c).

Fixpoint getNextToken_loop (fuel : nat) (L : Lexer) : Result (Token * Lexer) :=
  match fuel with
  | 0 => OutOfFuel
  | S fuel' =>
      match currentChar L with
      | None => Ok (mkToken EOF "" (line L) (column L), L)
      | Some c =>
          if isSpace c then
            match skipWhitespace L with
            | Ok L1 => getNextToken_loop fuel' L1
            | Throw e => Throw e
            | OutOfFuel => OutOfFuel
            end
          else if Ascii.eqb c "/" && isChar "/" (peek L) then
            match skipComment L with
            | Ok L1 => getNextToken_loop fuel' L1
            | Throw e => Throw e
            | OutOfFuel => OutOfFuel
            end
          else if isDigit c then number L
          else if Ascii.eqb c dquote || Ascii.eqb c squote then string_ L
          else if isIdentStart c then identifier L
          else if includes OPERATORS (str c) || Ascii.eqb c "=" || Ascii.eqb c "!"
                  || Ascii.eqb c ">" || Ascii.eqb c "<" then operator L
          else if isPunctuation c then
            Ok (mkToken PUNCTUATION (str c) (line L) (column L), advance L)
          else
            Throw (Error ("Unexpected character '" ++ str c ++ "' at line "
                          ++ showNat (line L) ++ ", column " ++ showNat (column L)))
      end
  end.

Definition getNextToken (L : Lexer) : Result (Token * Lexer) :=
  getNextToken_loop (loopFuel L) L.

Fixpoint tokenize_loop (fuel : nat) (tokens : list Token) (L : Lexer)
  : Result (list Token) :=
  match fuel with
  | 0 => OutOfFuel
  | S fuel' =>
      match getNextToken L with
      | Ok (token, L1) =>
          if TokenType_eqb (type token) EOF then Ok (tokens ++ [token])%list
          else tokenize_loop fuel' (tokens ++ [token])%list L1
      | Throw e => Throw e
      | OutOfFuel => OutOfFuel
      end
  end.

Definition tokenize (L : Lexer) : Result (list Token) :=
  tokenize_loop (loopFuel L) [] L.

End Lexer.

(** [new Lexer(code).tokenize()]. *)
Definition tokenize (code : string) : Result (list Token) :=
  Lexer.tokenize (Lexer.new code).

(** ** The syntax tree *)

(** The value of a numeric literal, a JavaScript Number.  [Finite q] is
    the double whose exact value is the rational [q] (positive zero for
    [q] = 0); the other values of the type are named. *)
Inductive Number : Type :=
| Finite (q : Q)
| NaN
| NegativeZero
| PositiveInfinity
| NegativeInfinity.

Inductive Expression : Type :=
| NumericLiteral (value : Number) (line column : nat)
| StringLiteral (value : string) (line column : nat)
| BooleanLiteral (value : bool) (line column : nat)
| Identifier (name : string) (line column : nat)
| BinaryExpression (operator : string) (left right : Expression) (line column : nat)
| AssignmentExpression (left right : Expression) (line column : nat)
| CallExpression (callee : Expression) (arguments : list Expression) (line column : nat)
| ArrayLiteral (elements : list Expression) (line column : nat).

Inductive Statement : Type :=
| FunctionDeclaration (name : string) (params : list string) (body : Statement)
                      (line column : nat)
| ReturnStatement (argument : option Expression) (line column : nat)
| IfStatement (test : Expression) (consequent : Statement)
              (alternate : option Statement) (line column : nat)
| WhileStatement (test : Expression) (body : Statement) (line column : nat)
| ForStatement (variable : string) (iterable : Expression) (body : Statement)
               (line column : nat)
| BlockStatement (body : list Statement) (line column : nat)
| ExpressionStatement (expression : Expression) (line column : nat).

Inductive Program : Type :=
| mkProgram (body : list Statement) (line column : nat).

(** [expr.type === NodeType.Identifier]. *)
Definition isIdentifier (e : Expression) : bool :=
  match e with Identifier _ _ _ => true | _ => false end.

(** A run of decimal digits: its value after [acc], its length, the rest. *)
Fixpoint readDigits (s : string) (acc : Z) (n : nat) : Z * nat * string :=
  match s with
  | String c s' =>
      if isDigit c
      then readDigits s' (10 * acc + Z.of_nat (nat_of_ascii c - 48))%Z (S n)
      else (acc, n, s)
  | EmptyString => (acc, n, s)
  end.

(** [n / d] rounded to the nearest integer, a tie to the even one. *)
Definition roundHalfEven (n d : Z) : Z :=
  let q := (n / d)%Z in
  let r := (n mod d)%Z in
  match (2 * r ?= d)%Z with
  | Lt => q
  | Gt => (q + 1)%Z
  | Eq => if Z.even q then q else (q + 1)%Z
  end.

(** The Number value for the positive rational [n / d]: the nearest
    double, a tie to the even significand; [None] where that is beyond
    the largest double.  The significand has 53 bits, the least
    exponent is -1074. *)
Definition roundToDouble (n d : Z) : option Q :=
  let l := (Z.log2 n - Z.log2 d)%Z in
  let reaches :=
    if (0 <=? l)%Z then (d * 2 ^ l <=? n)%Z else (d <=? n * 2 ^ (- l))%Z in
  let b := if reaches then l else (l - 1)%Z in
  let e := Z.max (b - 52) (-1074) in
  let m :=
    if (0 <=? e)%Z then roundHalfEven n (d * 2 ^ e)
    else roundHalfEven (n * 2 ^ (- e)) d in
  if (0 <=? e)%Z
  then if (2 ^ 1024 <=? m * 2 ^ e)%Z then None
       else Some (Qred (Qmake (m * 2 ^ e) 1))
  else Some (Qred (Qmake m (Z.to_pos (2 ^ (- e))))).

(** The leading white space and line terminators [parseFloat] skips. *)
Fixpoint trimStart (s : string) : string :=
  match s with
  | String c s' => if isSpace c then trimStart s' else s
  | EmptyString => s
  end.

Fixpoint prefix_eqb (p s : string) : bool :=
  match p, s with
  | EmptyString, _ => true
  | String a p', String b s' => Ascii.eqb a b && prefix_eqb p' s'
  | _, _ => false
  end.

(** The exponent part behind the mantissa: [e] or [E], a sign or none,
    and at least one digit; 0 where there is no such part. *)
Definition readExponent (s : string) : Z :=
  match s with
  | String c s' =>
      if Ascii.eqb c "e" || Ascii.eqb c "E"
      then
        let '(negative, s'') :=
          match s' with
          | String "-"%char t => (true, t)
          | String "+"%char t => (false, t)
          | _ => (false, s')
          end in
        let '(x, nx, _) := readDigits s'' 0%Z 0 in
        if nx =? 0 then 0%Z else if negative then (- x)%Z else x
      else 0%Z
  | EmptyString => 0%Z
  end.

(** The longest unsigned decimal literal the text starts with, as a
    mantissa and a power of ten: digits, a point and digits (one of the
    two runs may be empty, not both), an exponent part.  [None] where
    the text starts with no such literal. *)
Definition readDecimal (s : string) : option (Z * Z) :=
  let '(i, ni, rest) := readDigits s 0%Z 0 in
  match rest with
  | String "."%char rest' =>
      let '(m, nf, rest'') := readDigits rest' i 0 in
      if ni + nf =? 0 then None
      else Some (m, (readExponent rest'' - Z.of_nat nf)%Z)
  | _ => if ni =? 0 then None else Some (i, readExponent rest)
  end.

(** The builtin [parseFloat]: leading blanks are skipped, then a sign,
    then [Infinity] or the longest decimal literal is read and the rest
    of the text ignored; the value is rounded to the nearest double.  A
    text that starts with no literal is [NaN]. *)
Definition parseFloat (s : string) : Number :=
  let t := trimStart s in
  let '(negative, u) :=
    match t with
    | String "-"%char u => (true, u)
    | String "+"%char u => (false, u)
    | _ => (false, t)
    end in
  if prefix_eqb "Infinity" u
  then if negative then NegativeInfinity else PositiveInfinity
  else
    match readDecimal u with
    | None => NaN
    | Some (m, k) =>
        let rounded :=
          if (m =? 0)%Z then Some 0%Q
          else if (0 <=? k)%Z then roundToDouble (m * 10 ^ k) 1
          else roundToDouble m (10 ^ (- k)) in
        match rounded with
        | None => if negative then NegativeInfinity else PositiveInfinity
        | Some (Qmake 0 _) => if negative then NegativeZero else Finite 0
        | Some q => Finite (if negative then Qopp q else q)
        end
    end.

(** Operator precedence for expression parsing (the table of the
    source; no method of the parser reads it). *)
Definition PRECEDENCE : list (string * nat) :=
  [("=", 1); ("==", 2); ("!=", 2); ("<", 3); (">", 3); ("<=", 3); (">=", 3);
   ("+", 4); ("jama", 4); ("-", 4); ("manfi", 4); ("_", 4);
   ("*", 5); ("zarab", 5); ("/", 5); ("takseem", 5); ("%", 5);
   ("takseembaki", 5)].

Fixpoint precedenceOf (table : list (string * nat)) (op : string) : option nat :=
  match table with
  | [] => None
  | (k, v) :: rest => if String.eqb k op then Some v else precedenceOf rest op
  end.

(** The operator lists handed to [parseBinaryExpression]. *)
Definition equalityOperators : list string := ["=="; "!="].
Definition comparisonOperators : list string := [">"; "<"; ">="; "<="].
Definition additionOperators : list string := ["+"; "-"; "_"; "jama"; "manfi"].
Definition multiplicationOperators : list string :=
  ["*"; "/"; "%"; "zarab"; "takseem"; "takseembaki"].

(** ** The parser *)

Module Parser.

(** A method of the parser: from the index [current] to an outcome and
    the new index.  The token array is never written. *)
Definition M (A : Type) : Type := nat -> Result (A * nat).

Definition ret {A : Type} (a : A) : M A := fun current => Ok (a, current).

Definition bind {A B : Type} (m : M A) (f : A -> M B) : M B :=
  fun current =>
    match m current with
    | Ok (a, current') => f a current'
    | Throw e => Throw e
    | OutOfFuel => OutOfFuel
    end.

Definition throw {A : Type} (e : Exn) : M A := fun _ => Throw e.

Definition outOfFuel {A : Type} : M A := fun _ => OutOfFuel.

Notation "x <- m ;; k" := (bind m (fun x => k))
  (at level 61, m at next level, right associativity).
Notation "m ;;; k" := (bind m (fun _ => k))
  (at level 61, right associativity).

Section Methods.

Variable tokens : list Token.

(** [this.tokens[this.current]]; every caller reads a property of the
    result at once, which throws when the index is out of range. *)
Definition peek : M Token :=
  fun current =>
    match nth_error tokens current with
    | Some t => Ok (t, current)
    | None => Throw TypeError
    end.

(** [this.tokens[this.current - 1]].  Every method [parse] reaches
    calls it behind a token it has consumed, so the index is in range
    there.  At index 0 the array read of the source gives [undefined]
    and the first read of a property of it throws; the model throws at
    the array read. *)
Definition previous : M Token :=
  fun current =>
    match current with
    | 0 => Throw TypeError
    | S c =>
        match nth_error tokens c with
        | Some t => Ok (t, current)
        | None => Throw TypeError
        end
    end.

Definition isAtEnd : M bool :=
  t <- peek ;; ret (TokenType_eqb (type t) EOF).

Definition advance : M Token :=
  atEnd <- isAtEnd ;;
  (if atEnd then ret tt else fun current => Ok (tt, S current)) ;;;
  previous.

(** [check(type, value?)]: an absent or empty [value] is falsy. *)
Definition check (ty : TokenType) (v : option string) : M bool :=
  atEnd <- isAtEnd ;;
  if atEnd then ret false
  else
    t <- peek ;;
    match v with
    | Some (String _ _ as v') =>
        ret (TokenType_eqb (type t) ty
             && String.eqb (toLowerCase (value t)) (toLowerCase v'))
    | _ => ret (TokenType_eqb (type t) ty)
    end.

Fixpoint match_ (types : list TokenType) : M bool :=
  match types with
  | [] => ret false
  | ty :: rest =>
      c <- check ty None ;;
      if c then advance ;;; ret true else match_ rest
  end.

Definition matchValue (ty : TokenType) (v : string) : M bool :=
  c <- check ty (Some v) ;;
  if c then advance ;;; ret true else ret false.

Definition errorAt {A : Type} (message : string) : M A :=
  t <- peek ;;
  throw (Error (message ++ " at line " ++ showNat (line t)
                ++ ", column " ++ showNat (column t))).

(** [consume(type, message)].  The method has two parameters; where the
    source calls it with three (a type, a punctuation character and a
    text), the character is bound to [message] and the text is dropped:
    the token's value is not compared. *)
Definition consume (ty : TokenType) (message : string) : M Token :=
  c <- check ty None ;;
  if c then advance else errorAt message.

Definition consumeValue (ty : TokenType) (v message : string) : M Token :=
  c <- check ty (Some v) ;;
  if c then advance else errorAt message.

(** [this.match(TokenType.X) && this.previous().value === v]: the token
    is consumed by [match] before its value is looked at. *)
Definition matchThenValue (ty : TokenType) (accept : string -> bool) : M bool :=
  m <- match_ [ty] ;;
  if m then p <- previous ;; ret (accept (value p)) else ret false.

(** [while (cond) { acc.push(body) }]. *)
Fixpoint whilePush {A : Type} (cond : M bool) (body : M A) (fuel : nat)
         (acc : list A) : M (list A) :=
  match fuel with
  | 0 => outOfFuel
  | S n =>
      c <- cond ;;
      if c then x <- body ;; whilePush cond body n (acc ++ [x])%list
      else ret acc
  end.

(** [do { acc.push(body) }
     while (this.match(TokenType.PUNCTUATION) && this.previous().value === ',')]. *)
Fixpoint doWhileComma {A : Type} (body : M A) (fuel : nat) (acc : list A)
  : M (list A) :=
  match fuel with
  | 0 => outOfFuel
  | S n =>
      x <- body ;;
      again <- matchThenValue PUNCTUATION (String.eqb ",") ;;
      if again then doWhileComma body n (acc ++ [x])%list
      else ret (acc ++ [x])%list
  end.

(** The loop of [parseBinaryExpression]. *)
Fixpoint parseBinaryLoop (nextMethod : M Expression) (operators : list string)
         (fuel : nat) (expr : Expression) : M Expression :=
  match fuel with
  | 0 => outOfFuel
  | S n =>
      m <- match_ [OPERATOR] ;;
      if m then
        p <- previous ;;
        if includes operators (value p) then
          let operator := value p in
          right <- nextMethod ;;
          q <- previous ;;
          parseBinaryLoop nextMethod operators n
            (BinaryExpression operator expr right (line q) (column q))
        else ret expr
      else ret expr
  end.

Definition parseBinaryExpression (nextMethod : M Expression)
           (operators : list string) (fuel : nat) : M Expression :=
  expr <- nextMethod ;;
  parseBinaryLoop nextMethod operators fuel expr.

(** The loop of [call]. *)
Fixpoint callLoop (finishCall : Expression -> M Expression) (fuel : nat)
         (expr : Expression) : M Expression :=
  match fuel with
  | 0 => outOfFuel
  | S n =>
      m <- matchThenValue PUNCTUATION (String.eqb "(") ;;
      if m then e <- finishCall expr ;; callLoop finishCall n e
      else ret expr
  end.

(** [if (this.match(TokenType.PUNCTUATION) && this.previous().value === ';') {}] *)
Definition optionalSemicolon : M unit :=
  matchThenValue PUNCTUATION (String.eqb ";") ;;; ret tt.

(** The methods of the grammar.  Each call of a method uses up one unit
    of [fuel]. *)
Fixpoint declaration (fuel : nat) : M Statement :=
  match fuel with
  | 0 => outOfFuel
  | S n =>
      isFunction <- matchValue KEYWORD "opejana" ;;
      if isFunction then functionDeclaration n else statement n
  end

with functionDeclaration (fuel : nat) : M Statement :=
  match fuel with
  | 0 => outOfFuel
  | S n =>
      token <- previous ;;
      name <- consume IDENTIFIER "Expected function name" ;;
      consume PUNCTUATION "(" ;;;
      closing <- check PUNCTUATION (Some ")") ;;
      params <- (if negb closing then
                   doWhileComma
                     (p <- consume IDENTIFIER "Expected parameter name" ;;
                      ret (value p)) n []
                 else ret []) ;;
      consume PUNCTUATION ")" ;;;
      consume PUNCTUATION "{" ;;;
      body <- blockStatement n ;;
      ret (FunctionDeclaration (value name) params body (line token) (column token))
  end

with statement (fuel : nat) : M Statement :=
  match fuel with
  | 0 => outOfFuel
  | S n =>
      isIf <- matchValue KEYWORD "ko" ;;
      if isIf then ifStatement n else
      isWhile <- matchValue KEYWORD "kala" ;;
      if isWhile then whileStatement n else
      isFor <- matchValue KEYWORD "che" ;;
      if isFor then forStatement n else
      isReturn <- matchValue KEYWORD "raka" ;;
      if isReturn then returnStatement n else
      isBlock <- matchThenValue PUNCTUATION (String.eqb "{") ;;
      if isBlock then blockStatement n else
      expressionStatement n
  end

with ifStatement (fuel : nat) : M Statement :=
  match fuel with
  | 0 => outOfFuel
  | S n =>
      token <- previous ;;
      consume PUNCTUATION "(" ;;;
      test <- expression n ;;
      consume PUNCTUATION ")" ;;;
      consume PUNCTUATION "{" ;;;
      consequent <- blockStatement n ;;
      hasElse <- matchValue KEYWORD "geni" ;;
      alternate <- (if hasElse then
                      consume PUNCTUATION "{" ;;;
                      b <- blockStatement n ;; ret (Some b)
                    else ret None) ;;
      ret (IfStatement test consequent alternate (line token) (column token))
  end

with whileStatement (fuel : nat) : M Statement :=
  match fuel with
  | 0 => outOfFuel
  | S n =>
      token <- previous ;;
      consume PUNCTUATION "(" ;;;
      test <- expression n ;;
      consume PUNCTUATION ")" ;;;
      consume PUNCTUATION "{" ;;;
      body <- blockStatement n ;;
      ret (WhileStatement test body (line token) (column token))
  end

with forStatement (fuel : nat) : M Statement :=
  match fuel with
  | 0 => outOfFuel
  | S n =>
      token <- previous ;;
      consume PUNCTUATION "(" ;;;
      variable <- consume IDENTIFIER "Expected variable name in for loop" ;;
      consumeValue KEYWORD "we"
        ("Expected " ++ str dquote ++ "we" ++ str dquote
         ++ " after variable name in for loop") ;;;
      iterable <- expression n ;;
      consume PUNCTUATION ")" ;;;
      consume PUNCTUATION "{" ;;;
      body <- blockStatement n ;;
      ret (ForStatement (value variable) iterable body (line token) (column token))
  end

with returnStatement (fuel : nat) : M Statement :=
  match fuel with
  | 0 => outOfFuel
  | S n =>
      token <- previous ;;
      semi <- check PUNCTUATION (Some ";") ;;
      argument <- (if semi then ret None else
                     brace <- check PUNCTUATION (Some "}") ;;
                     if brace then ret None
                     else e <- expression n ;; ret (Some e)) ;;
      optionalSemicolon ;;;
      ret (ReturnStatement argument (line token) (column token))
  end

with blockStatement (fuel : nat) : M Statement :=
  match fuel with
  | 0 => outOfFuel
  | S n =>
      token <- previous ;;
      statements <- whilePush
                      (closing <- check PUNCTUATION (Some "}") ;;
                       if closing then ret false
                       else atEnd <- isAtEnd ;; ret (negb atEnd))
                      (declaration n) n [] ;;
      consume PUNCTUATION "}" ;;;
      ret (BlockStatement statements (line token) (column token))
  end

with expressionStatement (fuel : nat) : M Statement :=
  match fuel with
  | 0 => outOfFuel
  | S n =>
      token <- peek ;;
      expr <- expression n ;;
      optionalSemicolon ;;;
      ret (ExpressionStatement expr (line token) (column token))
  end

with expression (fuel : nat) : M Expression :=
  match fuel with
  | 0 => outOfFuel
  | S n => assignment n
  end

with assignment (fuel : nat) : M Expression :=
  match fuel with
  | 0 => outOfFuel
  | S n =>
      expr <- equality n ;;
      isAssign <- matchThenValue OPERATOR (String.eqb "=") ;;
      if isAssign then
        equals <- previous ;;
        v <- assignment n ;;
        if isIdentifier expr then
          ret (AssignmentExpression expr v (line equals) (column equals))
        else
          throw (Error ("Invalid assignment target at line " ++ showNat (line equals)
                        ++ ", column " ++ showNat (column equals)))
      else ret expr
  end

with equality (fuel : nat) : M Expression :=
  match fuel with
  | 0 => outOfFuel
  | S n => parseBinaryExpression (comparison n) equalityOperators n
  end

with comparison (fuel : nat) : M Expression :=
  match fuel with
  | 0 => outOfFuel
  | S n => parseBinaryExpression (addition n) comparisonOperators n
  end

with addition (fuel : nat) : M Expression :=
  match fuel with
  | 0 => outOfFuel
  | S n => parseBinaryExpression (multiplication n) additionOperators n
  end

with multiplication (fuel : nat) : M Expression :=
  match fuel with
  | 0 => outOfFuel
  | S n => parseBinaryExpression (unary n) multiplicationOperators n
  end

with unary (fuel : nat) : M Expression :=
  match fuel with
  | 0 => outOfFuel
  | S n =>
      isMinus <- matchThenValue OPERATOR (includes ["-"; "manfi"]) ;;
      if isMinus then
        p <- previous ;;
        let operator := value p in
        right <- unary n ;;
        q <- previous ;;
        ret (BinaryExpression operator
               (NumericLiteral (Finite 0) (line q) (column q))
               right (line q) (column q))
      else call n
  end

with call (fuel : nat) : M Expression :=
  match fuel with
  | 0 => outOfFuel
  | S n =>
      expr <- primary n ;;
      callLoop (finishCall n) n expr
  end

with finishCall (fuel : nat) (callee : Expression) : M Expression :=
  match fuel with
  | 0 => outOfFuel
  | S n =>
      token <- previous ;;
      closing <- check PUNCTUATION (Some ")") ;;
      args <- (if negb closing then doWhileComma (expression n) n []
               else ret []) ;;
      consume PUNCTUATION ")" ;;;
      ret (CallExpression callee args (line token) (column token))
  end

with primary (fuel : nat) : M Expression :=
  match fuel with
  | 0 => outOfFuel
  | S n =>
      peek ;;;
      isNumber <- match_ [NUMBER] ;;
      if isNumber then
        p <- previous ;;
        ret (NumericLiteral (parseFloat (value p)) (line p) (column p))
      else
      isString <- match_ [STRING] ;;
      if isString then
        p <- previous ;; ret (StringLiteral (value p) (line p) (column p))
      else
      isTrue <- matchValue KEYWORD "rishtia" ;;
      if isTrue then
        p <- previous ;; ret (BooleanLiteral true (line p) (column p))
      else
      isFalse <- matchValue KEYWORD "ghalat" ;;
      if isFalse then
        p <- previous ;; ret (BooleanLiteral false (line p) (column p))
      else
      isArray <- matchThenValue PUNCTUATION (String.eqb "[") ;;
      if isArray then arrayLiteral n else
      isGroup <- matchThenValue PUNCTUATION (String.eqb "(") ;;
      if isGroup then
        expr <- expression n ;;
        consume PUNCTUATION ")" ;;;
        ret expr
      else
      isName <- match_ [IDENTIFIER] ;;
      if isName then
        p <- previous ;; ret (Identifier (value p) (line p) (column p))
      else
        t <- peek ;;
        throw (Error ("Unexpected token '" ++ value t ++ "' at line "
                      ++ showNat (line t) ++ ", column " ++ showNat (column t)))
  end

with arrayLiteral (fuel : nat) : M Expression :=
  match fuel with
  | 0 => outOfFuel
  | S n =>
      token <- previous ;;
      closing <- check PUNCTUATION (Some "]") ;;
      elements <- (if negb closing then doWhileComma (expression n) n []
                   else ret []) ;;
      consume PUNCTUATION "]" ;;;
      ret (ArrayLiteral elements (line token) (column token))
  end.

(** The recursion of the parser is at most this deep, and no loop takes
    this many turns: every turn of a loop and every cycle of calls
    consumes a token. *)
Definition parseFuel : nat := 24 * S (length tokens).

(** [parse()]; the [catch] logs to the console and throws again. *)
Definition parse : Result Program :=
  match whilePush (atEnd <- isAtEnd ;; ret (negb atEnd))
                  (declaration parseFuel) parseFuel [] 0 with
  | Ok (body, _) => Ok (mkProgram body 1 1)
  | Throw e => Throw e
  | OutOfFuel => OutOfFuel
  end.

End Methods.

End Parser.

(** [new Parser(tokens).parse()]. *)
Definition parse (tokens : list Token) : Result Program := Parser.parse tokens.

(** ** The entry point *)

Record RunOutcome : Type := mkRunOutcome {
  output : string;
  error : option Exn
}.

Section Run.

(** [new Interpreter(inputCallback).interpret]: the evaluator, which is
    not part of the front end; it is handed the tree and may throw. *)
Variable interpret : Program -> Result RunOutcome.

(** [runPashtoPlusPlus(code, inputCallback)]: whatever is thrown in the
    [try] block becomes the [error] of a result with an empty output. *)
Definition runPashtoPlusPlus (code : string) : Result RunOutcome :=
  match tokenize code with
  | Ok tokens =>
      match parse tokens with
      | Ok program =>
          match interpret program with
          | Ok r => Ok r
          | Throw e => Ok (mkRunOutcome "" (Some e))
          | OutOfFuel => OutOfFuel
          end
      | Throw e => Ok (mkRunOutcome "" (Some e))
      | OutOfFuel => OutOfFuel
      end
  | Throw e => Ok (mkRunOutcome "" (Some e))
  | OutOfFuel => OutOfFuel
  end.

End Run.

(** Lexing and parsing a source text in one go. *)
Definition parseSource (code : string) : Result Program :=
  match tokenize code with
  | Ok tokens => parse tokens
  | Throw e => Throw e
  | OutOfFuel => OutOfFuel
  end.

(** ** Vocabulary of the statements *)

Fixpoint allChars (p : ascii -> bool) (s : string) : bool :=
  match s with
  | EmptyString => true
  | String c s' => p c && allChars p s'
  end.

(** Does the text begin with a character accepted by [p]? *)
Definition startsWith (p : ascii -> bool) (s : string) : bool :=
  match s with
  | EmptyString => false
  | String c _ => p c
  end.

(** The lexer standing at an index of a text: the states the constructor
    and [advance] produce. *)
Definition lexerAt (code : string) (position line column : nat) : Lexer.Lexer :=
  Lexer.mkLexer code position line column (String.get position code).

(** [currentChar] is the character at [position], or [null] past the end. *)
Definition consistent (L : Lexer.Lexer) : Prop :=
  Lexer.currentChar L = String.get (Lexer.position L) (Lexer.code L).

(** The error [primary] throws at a token it cannot start with. *)
Definition unexpectedToken (t : Token) : Exn :=
  Error ("Unexpected token '" ++ value t ++ "' at line "
         ++ showNat (line t) ++ ", column " ++ showNat (column t)).

(** The program [olika("Salam" _ "Ji")]. *)
Definition olikaSalamJi : string :=
  "olika(" ++ str dquote ++ "Salam" ++ str dquote ++ " _ "
  ++ str dquote ++ "Ji" ++ str dquote ++ ")".

(** Two words on two lines. *)
Definition twoLines : string := "a" ++ str newline ++ "b".

(** The number of line feeds in a text. *)
Fixpoint newlinesIn (s : string) : nat :=
  match s with
  | EmptyString => 0
  | String c s' => (if Ascii.eqb c newline then 1 else 0) + newlinesIn s'
  end.

(** The characters at which [getNextToken] does not throw. *)
Definition startsToken (c : ascii) : bool :=
  isSpace c || isDigit c || Ascii.eqb c dquote || Ascii.eqb c squote
  || isIdentStart c || includes OPERATORS (str c) || Ascii.eqb c "="
  || Ascii.eqb c "!" || Ascii.eqb c ">" || Ascii.eqb c "<"
  || Lexer.isPunctuation c.

(** The leaf [primary] builds from a literal or identifier token. *)
Definition leafOf (t : Token) : Expression :=
  match type t with
  | NUMBER => NumericLiteral (parseFloat (value t)) (line t) (column t)
  | STRING => StringLiteral (value t) (line t) (column t)
  | _ => Identifier (value t) (line t) (column t)
  end.

(** The token types of a literal or an identifier. *)
Definition isLeafType (ty : TokenType) : bool :=
  match ty with
  | NUMBER | STRING | IDENTIFIER => true
  | _ => false
  end.

(** [x] is a node [primary] may build from the literal or identifier
    token [t]: a numeric literal of some value, the string literal or
    the identifier of the token's text, at the token's line and column. *)
Definition leafNode (t : Token) (x : Expression) : Prop :=
  match type t with
  | NUMBER => exists v : Number, x = NumericLiteral v (line t) (column t)
  | STRING => x = StringLiteral (value t) (line t) (column t)
  | IDENTIFIER => x = Identifier (value t) (line t) (column t)
  | _ => False
  end.

(** The characters of the text not yet passed. *)
Definition remaining (L : Lexer.Lexer) : nat :=
  String.length (Lexer.code L) - Lexer.position L.

(** What a method that reads one token may answer: a token that is not
    the end of input, with the lexer moved forward, or an [Error]. *)
Definition stepOk (L : Lexer.Lexer) (r : Result (Token * Lexer.Lexer)) : Prop :=
  match r with
  | Ok (t, L') =>
      consistent L' /\ Lexer.code L' = Lexer.code L /\ Lexer.position L < Lexer.position L'
      /\ type t <> EOF
  | Throw (Error _) => True
  | Throw TypeError => False
  | OutOfFuel => False
  end.

(** What [getNextToken] may answer. *)
Definition loopOk (L : Lexer.Lexer) (r : Result (Token * Lexer.Lexer)) : Prop :=
  match r with
  | Ok (t, L') =>
      consistent L' /\ Lexer.code L' = Lexer.code L /\ Lexer.position L <= Lexer.position L'
      /\ (type t <> EOF -> Lexer.position L < Lexer.position L')
      /\ (type t = EOF -> value t = ""%string /\ Lexer.currentChar L' = None)
  | Throw (Error _) => True
  | Throw TypeError => False
  | OutOfFuel => False
  end.


(** The error of [consume] and [consumeValue] at a token. *)
Definition errorOf (message : string) (t : Token) : Exn :=
  Error (message ++ " at line " ++ showNat (line t)
         ++ ", column " ++ showNat (column t)).

(** A method of the parser that, started at or before the index [e],
    ends with success only at an index between its start and [e]. *)
Definition within (e : nat) {A : Type} (m : Parser.M A) : Prop :=
  forall (current : nat) (a : A) (current' : nat),
    current <= e ->
    m current = Ok (a, current') ->
    current <= current' /\ current' <= e.

(** A method that, when it succeeds, has consumed at least one token. *)
Definition advancing (e : nat) {A : Type} (m : Parser.M A) : Prop :=
  forall (current : nat) (a : A) (current' : nat),
    current <= e ->
    m current = Ok (a, current') ->
    current < current' /\ current' <= e.

(** A test of the parser: it answers yes only after consuming a token. *)
Definition deciding (e : nat) (m : Parser.M bool) : Prop :=
  forall (current : nat) (b : bool) (current' : nat),
    current <= e ->
    m current = Ok (b, current') ->
    current <= current' /\ current' <= e /\ (b = true -> current < current').

(** Two methods that give the same outcome from every index up to [e]. *)
Definition agree (e : nat) {A : Type} (m1 m2 : Parser.M A) : Prop :=
  forall current : nat, current <= e -> m1 current = m2 current.

(** The operator names + and jama, one for the other. *)
Definition swapOperator (v : string) : string :=
  if String.eqb v "+" then "jama"
  else if String.eqb v "jama" then "+"
  else v.

(** An operator token with + for jama and jama for +; any other token
    as it is. *)
Definition swapToken (t : Token) : Token :=
  match type t with
  | OPERATOR => mkToken OPERATOR (swapOperator (value t)) (line t) (column t)
  | _ => t
  end.

(** The tree with the two names exchanged in its binary nodes. *)
Fixpoint swapExpression (x : Expression) : Expression :=
  match x with
  | BinaryExpression operator a b l c =>
      BinaryExpression (swapOperator operator) (swapExpression a) (swapExpression b) l c
  | AssignmentExpression a b l c =>
      AssignmentExpression (swapExpression a) (swapExpression b) l c
  | CallExpression callee arguments l c =>
      CallExpression (swapExpression callee) (map swapExpression arguments) l c
  | ArrayLiteral elements l c => ArrayLiteral (map swapExpression elements) l c
  | _ => x
  end.

Fixpoint swapStatement (s : Statement) : Statement :=
  match s with
  | FunctionDeclaration name params body l c =>
      FunctionDeclaration name params (swapStatement body) l c
  | ReturnStatement argument l c =>
      ReturnStatement (option_map swapExpression argument) l c
  | IfStatement test consequent alternate l c =>
      IfStatement (swapExpression test) (swapStatement consequent)
                  (option_map swapStatement alternate) l c
  | WhileStatement test body l c =>
      WhileStatement (swapExpression test) (swapStatement body) l c
  | ForStatement variable iterable body l c =>
      ForStatement variable (swapExpression iterable) (swapStatement body) l c
  | BlockStatement body l c => BlockStatement (map swapStatement body) l c
  | ExpressionStatement expression l c =>
      ExpressionStatement (swapExpression expression) l c
  end.

Definition swapProgram (p : Program) : Program :=
  match p with
  | mkProgram body l c => mkProgram (map swapStatement body) l c
  end.

(** Two errors that are the same up to the two names in the token that
    [primary] quotes. *)
Definition sameError (e1 e2 : Exn) : Prop :=
  e1 = e2
  \/ exists t : Token, e1 = unexpectedToken t /\ e2 = unexpectedToken (swapToken t).

(** The second method does at every index what the first does, with
    [g] of its result. *)
Definition simulates {A : Type} (g : A -> A) (m1 m2 : Parser.M A) : Prop :=
  forall current : nat,
    match m1 current with
    | Ok (a, current') => m2 current = Ok (g a, current')
    | Throw e => exists e' : Exn, m2 current = Throw e' /\ sameError e e'
    | OutOfFuel => m2 current = OutOfFuel
    end.

(** * Properties *)

(** ** Strings *)

Lemma sapp_assoc (a b c : string) : ((a ++ b) ++ c = a ++ (b ++ c))%string.
Proof. induction a as [|x a IH]; simpl; [reflexivity | now rewrite IH]. Qed.

Lemma slength_app (a b : string) :
  String.length (a ++ b) = String.length a + String.length b.
Proof. induction a as [|x a IH]; simpl; [reflexivity | now rewrite IH]. Qed.

Lemma get_after (pre s : string) :
  String.get (String.length pre) (pre ++ s) = String.get 0 s.
Proof. induction pre as [|x pre IH]; simpl; [reflexivity | exact IH]. Qed.

Lemma get_beyond (s : string) (n : nat) :
  String.length s <= n -> String.get n s = None.
Proof.
  revert n; induction s as [|x s IH]; intros n Hn; simpl in *; [reflexivity|].
  destruct n as [|n]; [lia | apply IH; lia].
Qed.

Module LexerFacts.
Import Lexer.

Lemma new_lexerAt (code : string) : new code = lexerAt code 0 1 1.
Proof. unfold new, lexerAt; destruct code; reflexivity. Qed.

Lemma advance_code (L : Lexer) : code (advance L) = code L.
Proof.
  unfold advance.
  destruct (String.length (code L) <=? S (position L)); [reflexivity|].
  destruct (String.get (S (position L)) (code L)) as [[[] [] [] [] [] [] [] []]|];
    reflexivity.
Qed.

Lemma advance_position (L : Lexer) : position (advance L) = S (position L).
Proof.
  unfold advance.
  destruct (String.length (code L) <=? S (position L)); [reflexivity|].
  destruct (String.get (S (position L)) (code L)) as [[[] [] [] [] [] [] [] []]|];
    reflexivity.
Qed.

Lemma advance_consistent (L : Lexer) : consistent (advance L).
Proof.
  unfold consistent, advance.
  destruct (String.length (code L) <=? S (position L)) eqn:E.
  - simpl. symmetry. apply get_beyond. now apply Nat.leb_le.
  - destruct (String.get (S (position L)) (code L)) as [[[] [] [] [] [] [] [] []]|] eqn:G;
      simpl; now rewrite G.
Qed.

Lemma iter_advance_code (n : nat) (L : Lexer) : code (Nat.iter n advance L) = code L.
Proof. induction n as [|n IH]; simpl; [reflexivity | now rewrite advance_code]. Qed.

Lemma iter_advance_position (n : nat) (L : Lexer) :
  position (Nat.iter n advance L) = position L + n.
Proof.
  induction n as [|n IH]; simpl; [lia | rewrite advance_position, IH; lia].
Qed.

(** A loop that reads while [p] holds, run over a stretch [w] of
    characters accepted by [p] and followed by something [p] rejects,
    reads exactly [w] and stops right behind it. *)
Lemma readWhile_stretch (p : ascii -> bool) (w : string) :
  forall (pre rest result : string) (L : Lexer) (fuel : nat),
    consistent L ->
    code L = (pre ++ w ++ rest)%string ->
    position L = String.length pre ->
    allChars p w = true ->
    startsWith p rest = false ->
    String.length w < fuel ->
    readWhile p fuel result L
    = Ok ((result ++ w)%string, Nat.iter (String.length w) advance L).
Proof.
  induction w as [|c w IH]; intros pre rest result L fuel HL Hcode Hpos Hall Hrest Hfuel.
  - destruct fuel as [|fuel]; [simpl in Hfuel; lia|].
    simpl. rewrite HL, Hcode, Hpos, get_after. simpl.
    assert (E : (result ++ "")%string = result)
      by (clear; induction result as [|x r IH]; simpl; [reflexivity | now rewrite IH]).
    rewrite E.
    destruct rest as [|d rest]; simpl in *; [reflexivity | now rewrite Hrest].
  - destruct fuel as [|fuel]; [simpl in Hfuel; lia|].
    simpl in Hall. apply andb_true_iff in Hall as [Hc Hw].
    cbn [readWhile]. rewrite HL, Hcode, Hpos, get_after. cbn [append String.get].
    rewrite Hc.
    rewrite (IH (pre ++ str c)%string rest).
    + rewrite sapp_assoc. cbn [str append String.length].
      now rewrite Nat.iter_succ_r.
    + apply advance_consistent.
    + rewrite advance_code, Hcode, sapp_assoc. reflexivity.
    + rewrite advance_position, Hpos, slength_app. simpl. lia.
    + exact Hw.
    + exact Hrest.
    + simpl in Hfuel. lia.
Qed.

End LexerFacts.

Module LexerTheorems.
Import Lexer LexerFacts.

Lemma lexerAt_consistent (code : string) (pos ln col : nat) :
  consistent (lexerAt code pos ln col).
Proof. reflexivity. Qed.

Lemma identStart_dispatch (c : ascii) :
  isIdentStart c = true ->
  isSpace c = false /\ Ascii.eqb c "/" = false /\ isDigit c = false
  /\ Ascii.eqb c dquote = false /\ Ascii.eqb c squote = false
  /\ isIdentChar c = true.
Proof.
  destruct c as [[] [] [] [] [] [] [] []]; vm_compute; intros H;
    repeat split; congruence.
Qed.

Lemma quote_dispatch (q : ascii) :
  q = dquote \/ q = squote ->
  isSpace q = false /\ Ascii.eqb q "/" = false /\ isDigit q = false
  /\ (Ascii.eqb q dquote || Ascii.eqb q squote) = true.
Proof. intros [-> | ->]; vm_compute; repeat split. Qed.

(** [identifier] reads a maximal stretch of identifier characters and
    classifies it. *)
Lemma identifier_stretch (pre w rest : string) (ln col : nat) :
  allChars isIdentChar w = true ->
  startsWith isIdentChar rest = false ->
  let L := lexerAt (pre ++ w ++ rest) (String.length pre) ln col in
  let L' := Nat.iter (String.length w) advance L in
  identifier L = Ok (classify w (Lexer.line L') col, L').
Proof.
  intros Hw Hrest L L'. unfold identifier.
  rewrite (readWhile_stretch isIdentChar w pre rest "" L); try assumption.
  - reflexivity.
  - reflexivity.
  - reflexivity.
  - reflexivity.
  - unfold loopFuel, L. cbn [code lexerAt]. rewrite !slength_app. lia.
Qed.

(** At an identifier start, [getNextToken] is [identifier]. *)
Lemma getNextToken_identifier (pre rest w : string) (c : ascii) (ln col : nat) :
  isIdentStart c = true ->
  let L := lexerAt (pre ++ String c w ++ rest) (String.length pre) ln col in
  getNextToken L = identifier L.
Proof.
  intros Hc L. unfold getNextToken, loopFuel. cbn [Nat.add getNextToken_loop].
  assert (E : currentChar L = Some c)
    by (unfold L; cbn [currentChar lexerAt]; now rewrite get_after).
  rewrite E.
  destruct (identStart_dispatch c Hc) as (H1 & H2 & H3 & H4 & H5 & _).
  rewrite H1, H2, H3, H4, H5, Hc. reflexivity.
Qed.

(** [string] keeps every character up to the closing quote. *)
Lemma string_stretch (pre s rest : string) (q : ascii) (ln col : nat) :
  allChars (fun c => negb (Ascii.eqb c q)) s = true ->
  let L := lexerAt (pre ++ String q (s ++ String q rest)) (String.length pre) ln col in
  let L' := Nat.iter (String.length s + 2) advance L in
  string_ L = Ok (mkToken STRING s (Lexer.line L') col, L').
Proof.
  intros Hs L L'. unfold string_.
  assert (E : currentChar L = Some q)
    by (unfold L; cbn [currentChar lexerAt]; now rewrite get_after).
  rewrite E.
  rewrite (readWhile_stretch _ s (pre ++ str q) (String q rest) "" (advance L)).
  - cbn [append].
    assert (Q : currentChar (Nat.iter (String.length s) advance (advance L)) = Some q).
    { rewrite <- Nat.iter_succ_r.
      pose proof (advance_consistent (Nat.iter (String.length s) advance L)) as C.
      cbn [Nat.iter]. rewrite C, advance_code, advance_position,
        iter_advance_code, iter_advance_position.
      unfold L. cbn [code position lexerAt].
      replace (pre ++ String q (s ++ String q rest))%string
        with ((pre ++ String q s) ++ String q rest)%string
        by (rewrite sapp_assoc; reflexivity).
      replace (S (String.length pre + String.length s))
        with (String.length (pre ++ String q s)%string)
        by (rewrite slength_app; simpl; lia).
      now rewrite get_after. }
    rewrite Q. cbn [optChar_eqb]. rewrite Ascii.eqb_refl.
    unfold L'. replace (String.length s + 2) with (S (S (String.length s))) by lia.
    cbn [Nat.iter]. rewrite <- (Nat.iter_succ_r (String.length s)). cbn [Nat.iter].
    reflexivity.
  - apply advance_consistent.
  - rewrite advance_code. unfold L. cbn [code lexerAt].
    rewrite sapp_assoc. reflexivity.
  - rewrite advance_position. unfold L. cbn [position lexerAt].
    rewrite slength_app. simpl. lia.
  - exact Hs.
  - cbn [startsWith optChar_eqb]. now rewrite Ascii.eqb_refl.
  - unfold loopFuel, L. cbn [code lexerAt]. rewrite !slength_app. simpl.
    rewrite slength_app. lia.
Qed.

Lemma getNextToken_string (pre tail : string) (q : ascii) (ln col : nat) :
  q = dquote \/ q = squote ->
  let L := lexerAt (pre ++ String q tail) (String.length pre) ln col in
  getNextToken L = string_ L.
Proof.
  intros Hq L. unfold getNextToken, loopFuel. cbn [Nat.add getNextToken_loop].
  assert (E : currentChar L = Some q)
    by (unfold L; cbn [currentChar lexerAt]; now rewrite get_after).
  rewrite E.
  destruct (quote_dispatch q Hq) as (H1 & H2 & H3 & H4).
  rewrite H1, H2, H3, H4. reflexivity.
Qed.

(** Arriving at a line feed already counts the new line, and gives the
    line feed itself column 1: the character behind it has column 2. *)
Lemma advance_onto_newline (code : string) (pos ln col : nat) :
  String.get (S pos) code = Some newline ->
  advance (lexerAt code pos ln col) = lexerAt code (S pos) (S ln) 1.
Proof.
  intros G. unfold advance, lexerAt. cbn [Lexer.code position Lexer.line Lexer.column].
  destruct (Nat.leb_spec (String.length code) (S pos)) as [Hle|_].
  - rewrite (get_beyond code (S pos) Hle) in G. discriminate.
  - rewrite G. reflexivity.
Qed.

Lemma advance_behind_newline (code : string) (pos ln col : nat) (c : ascii) :
  String.get (S pos) code = Some newline ->
  String.get (S (S pos)) code = Some c ->
  c <> newline ->
  advance (advance (lexerAt code pos ln col)) = lexerAt code (S (S pos)) (S ln) 2.
Proof.
  intros G1 G2 Hc. rewrite (advance_onto_newline code pos ln col G1).
  unfold advance, lexerAt. cbn [Lexer.code position Lexer.line Lexer.column].
  destruct (Nat.leb_spec (String.length code) (S (S pos))) as [Hle|_].
  - rewrite (get_beyond code (S (S pos)) Hle) in G2. discriminate.
  - rewrite G2.
    destruct c as [[] [] [] [] [] [] [] []]; try reflexivity.
    exfalso. apply Hc. reflexivity.
Qed.

End LexerTheorems.

Module ParserFacts.
Import Parser.

Section Facts.

Variable tokens : list Token.

Lemma check_at (current : nat) (t : Token) (ty : TokenType) (v : option string) :
  nth_error tokens current = Some t ->
  check tokens ty v current
  = Ok (if TokenType_eqb (type t) EOF then false
        else match v with
             | Some (String _ _ as v') =>
                 TokenType_eqb (type t) ty
                 && String.eqb (toLowerCase (value t)) (toLowerCase v')
             | _ => TokenType_eqb (type t) ty
             end, current).
Proof.
  intros H. unfold check, isAtEnd, bind, peek, ret. rewrite H.
  destruct (TokenType_eqb (type t) EOF); [reflexivity|].
  rewrite H. destruct v as [[|a v]|]; reflexivity.
Qed.

(** A token of another type is not matched, and nothing is consumed. *)
Lemma match_other (current : nat) (t : Token) (ty : TokenType) :
  nth_error tokens current = Some t ->
  TokenType_eqb (type t) ty = false ->
  match_ tokens [ty] current = Ok (false, current).
Proof.
  intros H Hty. unfold match_, bind. rewrite (check_at current t ty None H), Hty.
  destruct (TokenType_eqb (type t) EOF); reflexivity.
Qed.

Lemma matchThenValue_other (current : nat) (t : Token) (ty : TokenType)
      (accept : string -> bool) :
  nth_error tokens current = Some t ->
  TokenType_eqb (type t) ty = false ->
  matchThenValue tokens ty accept current = Ok (false, current).
Proof.
  intros H Hty. unfold matchThenValue, bind.
  now rewrite (match_other current t ty H Hty).
Qed.

(** A token with another value is not matched by [matchValue]. *)
Lemma matchValue_other (current : nat) (t : Token) (ty : TokenType)
      (a : ascii) (v : string) :
  nth_error tokens current = Some t ->
  String.eqb (toLowerCase (value t)) (toLowerCase (String a v)) = false ->
  matchValue tokens ty (String a v) current = Ok (false, current).
Proof.
  intros H Hv. unfold matchValue, bind.
  rewrite (check_at current t ty (Some (String a v)) H), Hv, andb_false_r.
  destruct (TokenType_eqb (type t) EOF); reflexivity.
Qed.

(** A token of the type asked for is matched and consumed, whatever its
    value is. *)
Lemma match_same (current : nat) (t : Token) (ty : TokenType) :
  nth_error tokens current = Some t ->
  type t = ty ->
  ty <> EOF ->
  match_ tokens [ty] current = Ok (true, S current)
  /\ previous tokens (S current) = Ok (t, S current).
Proof.
  intros H Hty Hne.
  assert (E : TokenType_eqb (type t) EOF = false)
    by (rewrite Hty; destruct ty; try reflexivity; now elim Hne).
  assert (R : TokenType_eqb (type t) ty = true) by (rewrite Hty; destruct ty; reflexivity).
  split.
  - unfold match_, bind. rewrite (check_at current t ty None H), E, R.
    unfold advance, bind, isAtEnd, bind, peek, ret, previous. rewrite H, E.
    now rewrite H.
  - unfold previous. now rewrite H.
Qed.

(** [consume] lets any punctuation token pass: its second argument is
    only the text of the error. *)
Lemma consume_any_punctuation (current : nat) (t : Token) (message : string) :
  nth_error tokens current = Some t ->
  type t = PUNCTUATION ->
  consume tokens PUNCTUATION message current = Ok (t, S current).
Proof.
  intros H Hty. unfold consume, bind.
  rewrite (check_at current t PUNCTUATION None H), Hty. cbn [TokenType_eqb].
  unfold advance, bind, isAtEnd, bind, peek, ret, previous. rewrite H, Hty.
  cbn [TokenType_eqb]. now rewrite H.
Qed.

(** A level of binary operators that meets an operator of another level
    consumes it and returns its left operand alone. *)
Lemma parseBinaryLoop_drops_operator
      (nextMethod : M Expression) (operators : list string)
      (fuel current : nat) (t : Token) (expr : Expression) :
  nth_error tokens current = Some t ->
  type t = OPERATOR ->
  includes operators (value t) = false ->
  parseBinaryLoop tokens nextMethod operators (S fuel) expr current
  = Ok (expr, S current).
Proof.
  intros H Hty Hout. cbn [parseBinaryLoop]. unfold bind at 1.
  destruct (match_same current t OPERATOR H Hty) as [Hm Hp]; [discriminate|].
  rewrite Hm. unfold bind at 1. rewrite Hp, Hout. reflexivity.
Qed.

(** A level of binary operators stops at a token that is no operator. *)
Lemma parseBinaryLoop_no_operator
      (nextMethod : M Expression) (operators : list string)
      (fuel current : nat) (t : Token) (expr : Expression) :
  nth_error tokens current = Some t ->
  type t <> OPERATOR ->
  parseBinaryLoop tokens nextMethod operators (S fuel) expr current
  = Ok (expr, current).
Proof.
  intros H Hty. cbn [parseBinaryLoop]. unfold bind at 1.
  rewrite (match_other current t OPERATOR H); [reflexivity|].
  destruct (type t); try reflexivity. now elim Hty.
Qed.

(** A level of binary operators that meets an operator of its own list
    reads the right operand and builds the node, which carries the line
    and column of the last token of that operand. *)
Lemma parseBinaryLoop_builds_node
      (nextMethod : M Expression) (operators : list string)
      (fuel current last : nat) (o q : Token) (expr right : Expression) :
  nth_error tokens current = Some o ->
  type o = OPERATOR ->
  includes operators (value o) = true ->
  nextMethod (S current) = Ok (right, S last) ->
  nth_error tokens last = Some q ->
  parseBinaryLoop tokens nextMethod operators (S fuel) expr current
  = parseBinaryLoop tokens nextMethod operators fuel
      (BinaryExpression (value o) expr right (line q) (column q)) (S last).
Proof.
  intros H Hty Hin Hnext Hq. cbn [parseBinaryLoop]. unfold bind at 1.
  destruct (match_same current o OPERATOR H Hty) as [Hm Hp]; [discriminate|].
  rewrite Hm. unfold bind at 1. rewrite Hp, Hin. unfold bind at 1. rewrite Hnext.
  unfold bind at 1. unfold previous. rewrite Hq. reflexivity.
Qed.

(** The additive level between two operands of the multiplicative
    level: an operator of its list builds the binary node. *)
Lemma addition_builds_node
      (fuel current next last : nat) (left right : Expression) (o q t : Token) :
  multiplication tokens (S (S fuel)) current = Ok (left, next) ->
  nth_error tokens next = Some o ->
  type o = OPERATOR ->
  includes additionOperators (value o) = true ->
  multiplication tokens (S (S fuel)) (S next) = Ok (right, S last) ->
  nth_error tokens last = Some q ->
  nth_error tokens (S last) = Some t ->
  type t <> OPERATOR ->
  addition tokens (S (S (S fuel))) current
  = Ok (BinaryExpression (value o) left right (line q) (column q), S last).
Proof.
  intros Hleft Ho Hop Hin Hright Hq Ht Hty.
  remember (S (S fuel)) as k eqn:Hk.
  cbn [addition]. unfold parseBinaryExpression, bind at 1. rewrite Hleft.
  rewrite Hk at 2.
  rewrite (parseBinaryLoop_builds_node _ _ (S fuel) next last o q left right
                                       Ho Hop Hin Hright Hq).
  exact (parseBinaryLoop_no_operator _ _ fuel (S last) t _ Ht Hty).
Qed.

(** [primary] rejects a keyword that is neither [rishtia] nor [ghalat]. *)
Lemma primary_keyword (fuel current : nat) (t : Token) :
  nth_error tokens current = Some t ->
  type t = KEYWORD ->
  toLowerCase (value t) <> "rishtia" ->
  toLowerCase (value t) <> "ghalat" ->
  primary tokens (S fuel) current = Throw (unexpectedToken t).
Proof.
  intros H Hty Ht Hf.
  apply String.eqb_neq in Ht, Hf.
  cbn [primary]. unfold bind at 1. unfold peek at 1. rewrite H.
  unfold bind at 1. rewrite (match_other current t NUMBER H) by now rewrite Hty.
  unfold bind at 1. rewrite (match_other current t STRING H) by now rewrite Hty.
  unfold bind at 1. rewrite (matchValue_other current t KEYWORD "r" "ishtia" H Ht).
  unfold bind at 1. rewrite (matchValue_other current t KEYWORD "g" "halat" H Hf).
  unfold bind at 1.
  rewrite (matchThenValue_other current t PUNCTUATION _ H) by now rewrite Hty.
  unfold bind at 1.
  rewrite (matchThenValue_other current t PUNCTUATION _ H) by now rewrite Hty.
  unfold bind at 1. rewrite (match_other current t IDENTIFIER H) by now rewrite Hty.
  unfold bind, peek, throw. rewrite H. reflexivity.
Qed.

(** A statement cannot begin with a keyword that opens no statement and
    is no boolean literal: the whole parse stops at it. *)
Lemma declaration_keyword (fuel current : nat) (t : Token) :
  nth_error tokens current = Some t ->
  type t = KEYWORD ->
  includes ["opejana"; "ko"; "kala"; "che"; "raka"; "rishtia"; "ghalat"]
           (toLowerCase (value t)) = false ->
  declaration tokens (12 + fuel) current = Throw (unexpectedToken t).
Proof.
  intros H Hty Hk.
  unfold includes in Hk. cbn [existsb] in Hk.
  repeat (apply orb_false_iff in Hk; destruct Hk as [? Hk]).
  assert (Ht : toLowerCase (value t) <> "rishtia") by now apply String.eqb_neq.
  assert (Hf : toLowerCase (value t) <> "ghalat") by now apply String.eqb_neq.
  change (12 + fuel) with (S (S (S (S (S (S (S (S (S (S (S (S fuel)))))))))))).
  cbn [declaration]. unfold bind at 1.
  rewrite (matchValue_other current t KEYWORD "o" "pejana" H) by assumption.
  cbn [statement].
  unfold bind at 1. rewrite (matchValue_other current t KEYWORD "k" "o" H) by assumption.
  unfold bind at 1. rewrite (matchValue_other current t KEYWORD "k" "ala" H) by assumption.
  unfold bind at 1. rewrite (matchValue_other current t KEYWORD "c" "he" H) by assumption.
  unfold bind at 1. rewrite (matchValue_other current t KEYWORD "r" "aka" H) by assumption.
  unfold bind at 1.
  rewrite (matchThenValue_other current t PUNCTUATION _ H) by now rewrite Hty.
  cbn [expressionStatement]. unfold bind at 1. unfold peek at 1. rewrite H.
  unfold bind at 1.
  cbn [expression assignment]. unfold bind at 1.
  cbn [equality]. unfold parseBinaryExpression at 1. unfold bind at 1.
  cbn [comparison]. unfold parseBinaryExpression at 1. unfold bind at 1.
  cbn [addition]. unfold parseBinaryExpression at 1. unfold bind at 1.
  cbn [multiplication]. unfold parseBinaryExpression at 1. unfold bind at 1.
  cbn [unary]. unfold bind at 1.
  rewrite (matchThenValue_other current t OPERATOR _ H) by now rewrite Hty.
  cbn [call]. unfold bind at 1.
  now rewrite (primary_keyword _ current t H Hty Ht Hf).
Qed.

End Facts.

Lemma parse_keyword (t : Token) (rest : list Token) :
  type t = KEYWORD ->
  includes ["opejana"; "ko"; "kala"; "che"; "raka"; "rishtia"; "ghalat"]
           (toLowerCase (value t)) = false ->
  parse (t :: rest) = Throw (unexpectedToken t).
Proof.
  intros Hty Hk. unfold parse, Parser.parse.
  assert (F : exists m, parseFuel (t :: rest) = S m /\ exists k, S m = 12 + k).
  { unfold parseFuel. exists (23 + 24 * S (length rest)). simpl length. split; [lia|].
    exists (12 + 24 * S (length rest)). lia. }
  destruct F as (m & Fm & k & Fk).
  rewrite Fm at 2. cbn [whilePush]. unfold bind at 1.
  assert (E : (atEnd <- isAtEnd (t :: rest) ;; ret (negb atEnd)) 0 = Ok (true, 0)).
  { unfold bind, isAtEnd, bind, peek, ret. cbn [nth_error]. now rewrite Hty. }
  rewrite E. unfold bind at 1. rewrite Fm, Fk.
  now rewrite (declaration_keyword (t :: rest) k 0 t eq_refl Hty Hk).

Qed.

End ParserFacts.

(** ** The parser: primitives and leaves *)

Module ParserSteps.
Import Parser ParserFacts.

Section Steps.

Variable tokens : list Token.

Lemma advance_at (current : nat) (t : Token) :
  nth_error tokens current = Some t ->
  type t <> EOF ->
  advance tokens current = Ok (t, S current).
Proof.
  intros H Hne. unfold advance, bind, isAtEnd, bind, peek, ret, previous. rewrite H.
  destruct (type t) eqn:E; try (now elim Hne); cbn [TokenType_eqb]; now rewrite H.
Qed.

Lemma advance_at_end (current : nat) (t : Token) :
  nth_error tokens current = Some t ->
  type t = EOF ->
  advance tokens current = previous tokens current.
Proof.
  intros H Hty. unfold advance, bind, isAtEnd, bind, peek, ret. rewrite H, Hty.
  cbn [TokenType_eqb]. destruct (previous tokens current) as [[a c]|e|]; reflexivity.
Qed.

Lemma TokenType_eqb_eq (a b : TokenType) : TokenType_eqb a b = true <-> a = b.
Proof. destruct a, b; cbn; split; intros H; try reflexivity; discriminate. Qed.

Lemma TokenType_eqb_neq (a b : TokenType) : TokenType_eqb a b = false <-> a <> b.
Proof.
  destruct a, b; cbn; split; intros H; try reflexivity; try discriminate;
    try (now elim H).
Qed.

Lemma matchThenValue_same (current : nat) (t : Token) (ty : TokenType)
      (accept : string -> bool) :
  nth_error tokens current = Some t ->
  type t = ty ->
  ty <> EOF ->
  matchThenValue tokens ty accept current = Ok (accept (value t), S current).
Proof.
  intros H Hty Hne. unfold matchThenValue, bind.
  destruct (match_same tokens current t ty H Hty Hne) as [Hm Hp].
  now rewrite Hm, Hp.
Qed.

(** [match] at the end of input answers no, for every type. *)
Lemma match_at_end (current : nat) (t : Token) (ty : TokenType) :
  nth_error tokens current = Some t ->
  type t = EOF ->
  match_ tokens [ty] current = Ok (false, current).
Proof.
  intros H Hty. unfold match_, bind. rewrite (check_at tokens current t ty None H), Hty.
  reflexivity.
Qed.

Lemma matchThenValue_at_end (current : nat) (t : Token) (ty : TokenType)
      (accept : string -> bool) :
  nth_error tokens current = Some t ->
  type t = EOF ->
  matchThenValue tokens ty accept current = Ok (false, current).
Proof.
  intros H Hty. unfold matchThenValue, bind.
  now rewrite (match_at_end current t ty H Hty).
Qed.

Lemma matchValue_wrong_type (current : nat) (t : Token) (ty : TokenType) (v : string) :
  nth_error tokens current = Some t ->
  TokenType_eqb (type t) ty = false ->
  matchValue tokens ty v current = Ok (false, current).
Proof.
  intros H Hty. unfold matchValue, bind.
  rewrite (check_at tokens current t ty (Some v) H), Hty.
  destruct (TokenType_eqb (type t) EOF); [reflexivity|].
  destruct v; reflexivity.
Qed.

(** [primary] at a literal or identifier token. *)
Lemma primary_leaf (fuel current : nat) (t : Token) :
  nth_error tokens current = Some t ->
  isLeafType (type t) = true ->
  primary tokens (S fuel) current = Ok (leafOf t, S current).
Proof.
  intros H Hleaf. cbn [primary]. unfold bind at 1. unfold peek at 1. rewrite H.
  unfold leafOf. destruct (type t) eqn:Hty; try discriminate Hleaf.
  - unfold bind at 1.
    destruct (match_same tokens current t NUMBER H Hty) as [Hm Hp]; [discriminate|].
    rewrite Hm. unfold bind. now rewrite Hp.
  - unfold bind at 1. rewrite (match_other tokens current t NUMBER H) by now rewrite Hty.
    unfold bind at 1.
    destruct (match_same tokens current t STRING H Hty) as [Hm Hp]; [discriminate|].
    rewrite Hm. unfold bind. now rewrite Hp.
  - unfold bind at 1. rewrite (match_other tokens current t NUMBER H) by now rewrite Hty.
    unfold bind at 1. rewrite (match_other tokens current t STRING H) by now rewrite Hty.
    unfold bind at 1.
    rewrite (matchValue_wrong_type current t KEYWORD _ H) by now rewrite Hty.
    unfold bind at 1.
    rewrite (matchValue_wrong_type current t KEYWORD _ H) by now rewrite Hty.
    unfold bind at 1.
    rewrite (matchThenValue_other tokens current t PUNCTUATION _ H) by now rewrite Hty.
    unfold bind at 1.
    rewrite (matchThenValue_other tokens current t PUNCTUATION _ H) by now rewrite Hty.
    unfold bind at 1.
    destruct (match_same tokens current t IDENTIFIER H Hty) as [Hm Hp]; [discriminate|].
    rewrite Hm. unfold bind. now rewrite Hp.
Qed.

Lemma leafOf_leafNode (t : Token) :
  isLeafType (type t) = true -> leafNode t (leafOf t).
Proof.
  unfold leafNode, leafOf. destruct (type t); intros H; try discriminate H;
    [eexists; reflexivity | reflexivity | reflexivity].
Qed.

(** [primary] at a token that starts no expression: the end of input,
    an operator, or a keyword that is no boolean. *)
Lemma primary_rejects (fuel current : nat) (t : Token) :
  nth_error tokens current = Some t ->
  type t = EOF \/ type t = OPERATOR ->
  primary tokens (S fuel) current = Throw (unexpectedToken t).
Proof.
  intros H Hty. cbn [primary]. unfold bind at 1. unfold peek at 1. rewrite H.
  assert (N : forall ty, ty <> EOF -> ty <> OPERATOR ->
                         match_ tokens [ty] current = Ok (false, current)).
  { intros ty H1 H2. destruct Hty as [Hty|Hty].
    - exact (match_at_end current t ty H Hty).
    - apply (match_other tokens current t ty H). rewrite Hty.
      destruct ty; try reflexivity. now elim H2. }
  assert (V : forall v, matchValue tokens KEYWORD v current = Ok (false, current)).
  { intros v. apply (matchValue_wrong_type current t KEYWORD v H).
    destruct Hty as [-> | ->]; reflexivity. }
  assert (P : forall accept,
             matchThenValue tokens PUNCTUATION accept current = Ok (false, current)).
  { intros accept. unfold matchThenValue, bind. rewrite N by discriminate. reflexivity. }
  unfold bind at 1. rewrite N by discriminate.
  unfold bind at 1. rewrite N by discriminate.
  unfold bind at 1. rewrite V.
  unfold bind at 1. rewrite V.
  unfold bind at 1. rewrite P.
  unfold bind at 1. rewrite P.
  unfold bind at 1. rewrite N by discriminate.
  unfold bind, peek, throw. now rewrite H.
Qed.

End Steps.

End ParserSteps.

Module ParserLevels.
Import Parser ParserFacts ParserSteps.

Section Levels.

Variable tokens : list Token.

(** A level of binary operators stops where no operator follows. *)
Lemma parseBinaryExpression_stops
      (nextMethod : M Expression) (operators : list string)
      (fuel current current' : nat) (e : Expression) (t : Token) :
  nextMethod current = Ok (e, current') ->
  nth_error tokens current' = Some t ->
  type t <> OPERATOR ->
  parseBinaryExpression tokens nextMethod operators (S fuel) current
  = Ok (e, current').
Proof.
  intros Hnext H Hty. unfold parseBinaryExpression, bind at 1. rewrite Hnext.
  cbn [parseBinaryLoop]. unfold bind at 1.
  rewrite (match_other tokens current' t OPERATOR H); [reflexivity|].
  now apply TokenType_eqb_neq.
Qed.

(** A level of binary operators drops an operator of another level. *)
Lemma parseBinaryExpression_drops
      (nextMethod : M Expression) (operators : list string)
      (fuel current current' : nat) (e : Expression) (o : Token) :
  nextMethod current = Ok (e, current') ->
  nth_error tokens current' = Some o ->
  type o = OPERATOR ->
  includes operators (value o) = false ->
  parseBinaryExpression tokens nextMethod operators (S fuel) current
  = Ok (e, S current').
Proof.
  intros Hnext H Hty Hout. unfold parseBinaryExpression, bind at 1. rewrite Hnext.
  exact (parseBinaryLoop_drops_operator tokens nextMethod operators fuel current' o e
                                        H Hty Hout).
Qed.

Lemma call_leaf (fuel current : nat) (a x : Token) :
  nth_error tokens current = Some a ->
  isLeafType (type a) = true ->
  nth_error tokens (S current) = Some x ->
  type x <> PUNCTUATION ->
  call tokens (S (S fuel)) current = Ok (leafOf a, S current).
Proof.
  intros Ha Hleaf Hx Hty. cbn [call]. unfold bind at 1.
  rewrite (primary_leaf tokens fuel current a Ha Hleaf).
  cbn [callLoop]. unfold bind at 1.
  rewrite (matchThenValue_other tokens (S current) x PUNCTUATION _ Hx); [reflexivity|].
  now apply TokenType_eqb_neq.
Qed.

Lemma leaf_not_operator (a : Token) :
  isLeafType (type a) = true -> TokenType_eqb (type a) OPERATOR = false.
Proof. destruct (type a); cbn; congruence. Qed.

Lemma unary_leaf (fuel current : nat) (a x : Token) :
  nth_error tokens current = Some a ->
  isLeafType (type a) = true ->
  nth_error tokens (S current) = Some x ->
  type x <> PUNCTUATION ->
  unary tokens (S (S (S fuel))) current = Ok (leafOf a, S current).
Proof.
  intros Ha Hleaf Hx Hty. remember (S (S fuel)) as k eqn:Hk.
  cbn [unary]. unfold bind at 1.
  rewrite (matchThenValue_other tokens current a OPERATOR _ Ha (leaf_not_operator a Hleaf)).
  subst k. exact (call_leaf fuel current a x Ha Hleaf Hx Hty).
Qed.

Lemma operator_not_punctuation (o : Token) : type o = OPERATOR -> type o <> PUNCTUATION.
Proof. intros ->. discriminate. Qed.

(** An operand, an operator that is not multiplicative, and no operator
    behind it: the expression is the operand. *)
Lemma expression_drops (fuel current : nat) (a o t : Token) :
  nth_error tokens current = Some a ->
  isLeafType (type a) = true ->
  nth_error tokens (S current) = Some o ->
  type o = OPERATOR ->
  includes multiplicationOperators (value o) = false ->
  nth_error tokens (S (S current)) = Some t ->
  type t <> OPERATOR ->
  expression tokens (9 + fuel) current = Ok (leafOf a, S (S current)).
Proof.
  intros Ha Hleaf Ho Hop Hout Ht Hty.
  change (9 + fuel) with (S (S (S (S (S (S (S (S (S fuel))))))))).
  assert (M1 : multiplication tokens (S (S (S (S fuel)))) current
               = Ok (leafOf a, S (S current))).
  { cbn [multiplication].
    apply (parseBinaryExpression_drops _ _ _ current (S current) (leafOf a) o);
      try assumption.
    apply (unary_leaf fuel current a o); try assumption.
    now apply operator_not_punctuation. }
  assert (A1 : addition tokens (S (S (S (S (S fuel))))) current
               = Ok (leafOf a, S (S current))).
  { cbn [addition].
    apply (parseBinaryExpression_stops _ _ _ current _ (leafOf a) t); assumption. }
  assert (C1 : comparison tokens (S (S (S (S (S (S fuel)))))) current
               = Ok (leafOf a, S (S current))).
  { cbn [comparison].
    apply (parseBinaryExpression_stops _ _ _ current _ (leafOf a) t); assumption. }
  assert (E1 : equality tokens (S (S (S (S (S (S (S fuel))))))) current
               = Ok (leafOf a, S (S current))).
  { cbn [equality].
    apply (parseBinaryExpression_stops _ _ _ current _ (leafOf a) t); assumption. }
  remember (S (S (S (S (S (S (S fuel))))))) as k eqn:Hk.
  cbn [expression assignment]. unfold bind at 1. rewrite E1.
  unfold bind at 1.
  rewrite (matchThenValue_other tokens (S (S current)) t OPERATOR _ Ht); [reflexivity|].
  now apply TokenType_eqb_neq.
Qed.

(** A minus sign before an operand. *)
Lemma unary_minus (fuel current : nat) (o a t : Token) :
  nth_error tokens current = Some o ->
  type o = OPERATOR ->
  includes ["-"; "manfi"] (value o) = true ->
  nth_error tokens (S current) = Some a ->
  isLeafType (type a) = true ->
  nth_error tokens (S (S current)) = Some t ->
  type t <> PUNCTUATION ->
  unary tokens (4 + fuel) current
  = Ok (BinaryExpression (value o)
          (NumericLiteral (Finite 0) (line a) (column a))
          (leafOf a) (line a) (column a), S (S current)).
Proof.
  intros Ho Hop Hin Ha Hleaf Ht Hty.
  change (4 + fuel) with (S (S (S (S fuel)))).
  remember (S (S (S fuel))) as k eqn:Hk.
  cbn [unary]. unfold bind at 1.
  rewrite (matchThenValue_same tokens current o OPERATOR _ Ho Hop) by discriminate.
  rewrite Hin. unfold bind at 1. unfold previous at 1. rewrite Ho.
  unfold bind at 1. subst k. rewrite (unary_leaf fuel (S current) a t Ha Hleaf Ht Hty).
  unfold bind, previous. rewrite Ha. reflexivity.
Qed.

(** [call] consumes a punctuation token behind its operand also where
    that is no opening parenthesis. *)
Lemma call_leaf_punctuation (fuel current : nat) (a x : Token) :
  nth_error tokens current = Some a ->
  isLeafType (type a) = true ->
  nth_error tokens (S current) = Some x ->
  type x = PUNCTUATION ->
  value x <> "("%string ->
  call tokens (S (S fuel)) current = Ok (leafOf a, S (S current)).
Proof.
  intros Ha Hleaf Hx Hty Hv. cbn [call]. unfold bind at 1.
  rewrite (primary_leaf tokens fuel current a Ha Hleaf).
  cbn [callLoop]. unfold bind at 1.
  rewrite (matchThenValue_same tokens (S current) x PUNCTUATION _ Hx Hty)
    by discriminate.
  assert (E : String.eqb "(" (value x) = false)
    by (apply String.eqb_neq; congruence).
  rewrite E. reflexivity.
Qed.

Lemma unary_leaf_punctuation (fuel current : nat) (a x : Token) :
  nth_error tokens current = Some a ->
  isLeafType (type a) = true ->
  nth_error tokens (S current) = Some x ->
  type x = PUNCTUATION ->
  value x <> "("%string ->
  unary tokens (S (S (S fuel))) current = Ok (leafOf a, S (S current)).
Proof.
  intros Ha Hleaf Hx Hty Hv. remember (S (S fuel)) as k eqn:Hk.
  cbn [unary]. unfold bind at 1.
  rewrite (matchThenValue_other tokens current a OPERATOR _ Ha (leaf_not_operator a Hleaf)).
  subst k. exact (call_leaf_punctuation fuel current a x Ha Hleaf Hx Hty Hv).
Qed.

(** A minus sign before an operand that a punctuation token follows. *)
Lemma unary_minus_punctuation (fuel current : nat) (o a t : Token) :
  nth_error tokens current = Some o ->
  type o = OPERATOR ->
  includes ["-"; "manfi"] (value o) = true ->
  nth_error tokens (S current) = Some a ->
  isLeafType (type a) = true ->
  nth_error tokens (S (S current)) = Some t ->
  type t = PUNCTUATION ->
  value t <> "("%string ->
  unary tokens (4 + fuel) current
  = Ok (BinaryExpression (value o)
          (NumericLiteral (Finite 0) (line t) (column t))
          (leafOf a) (line t) (column t), S (S (S current))).
Proof.
  intros Ho Hop Hin Ha Hleaf Ht Hty Hv.
  change (4 + fuel) with (S (S (S (S fuel)))).
  remember (S (S (S fuel))) as k eqn:Hk.
  cbn [unary]. unfold bind at 1.
  rewrite (matchThenValue_same tokens current o OPERATOR _ Ho Hop) by discriminate.
  rewrite Hin. unfold bind at 1. unfold previous at 1. rewrite Ho.
  unfold bind at 1. subst k.
  rewrite (unary_leaf_punctuation fuel (S current) a t Ha Hleaf Ht Hty Hv).
  unfold bind, previous. rewrite Ht. reflexivity.
Qed.

(** Any other operator before an operand is dropped. *)
Lemma unary_other (fuel current : nat) (o : Token) :
  nth_error tokens current = Some o ->
  type o = OPERATOR ->
  includes ["-"; "manfi"] (value o) = false ->
  unary tokens (S fuel) current = call tokens fuel (S current).
Proof.
  intros Ho Hop Hout. destruct fuel as [|fuel].
  - cbn [unary]. unfold bind.
    rewrite (matchThenValue_same tokens current o OPERATOR _ Ho Hop) by discriminate.
    now rewrite Hout.
  - remember (S fuel) as k. cbn [unary]. unfold bind.
    rewrite (matchThenValue_same tokens current o OPERATOR _ Ho Hop) by discriminate.
    now rewrite Hout.
Qed.

End Levels.

End ParserLevels.

(** ** The parser: the names + and jama *)

Module OperatorNames.
Import Parser ParserFacts ParserSteps.

Lemma swapOperator_includes (operators : list string) (v : string) :
  includes operators "+" = includes operators "jama" ->
  includes operators (swapOperator v) = includes operators v.
Proof.
  intros H. unfold swapOperator.
  destruct (String.eqb_spec v "+") as [->|N1]; [now symmetry|].
  destruct (String.eqb_spec v "jama") as [->|N2]; [exact H | reflexivity].
Qed.

Lemma swapToken_type (t : Token) : type (swapToken t) = type t.
Proof. unfold swapToken. destruct (type t) eqn:E; try exact E; reflexivity. Qed.

Lemma swapToken_line (t : Token) : line (swapToken t) = line t.
Proof. unfold swapToken. destruct (type t); reflexivity. Qed.

Lemma swapToken_column (t : Token) : column (swapToken t) = column t.
Proof. unfold swapToken. destruct (type t); reflexivity. Qed.

Lemma swapToken_other (t : Token) : type t <> OPERATOR -> swapToken t = t.
Proof. unfold swapToken. destruct (type t); try reflexivity. intros H. now elim H. Qed.

Lemma swapToken_operator (t : Token) :
  type t = OPERATOR -> value (swapToken t) = swapOperator (value t).
Proof. unfold swapToken. intros ->. reflexivity. Qed.

Lemma sameError_refl (e : Exn) : sameError e e.
Proof. now left. Qed.

Section Simulation.

Variable tokens : list Token.

Let tokens' : list Token := map swapToken tokens.

Lemma nth_swapped (i : nat) :
  nth_error tokens' i = option_map swapToken (nth_error tokens i).
Proof. apply nth_error_map. Qed.

Lemma simulates_ret (A : Type) (g : A -> A) (a : A) : simulates g (ret a) (ret (g a)).
Proof. intros c. reflexivity. Qed.

Lemma simulates_same (A : Type) (m : M A) : simulates (fun a : A => a) m m.
Proof.
  intros c. destruct (m c) as [[a c1]|e|]; try reflexivity.
  exists e. split; [reflexivity | now left].
Qed.

Lemma simulates_throw (A : Type) (g : A -> A) (e1 e2 : Exn) :
  sameError e1 e2 -> simulates g (@throw A e1) (@throw A e2).
Proof. intros H c. exists e2. now split. Qed.

Lemma simulates_outOfFuel (A : Type) (g : A -> A) : simulates g (@outOfFuel A) (@outOfFuel A).
Proof. intros c. reflexivity. Qed.

Lemma simulates_bind (A B : Type) (g : A -> A) (h : B -> B)
      (m1 m2 : M A) (f1 f2 : A -> M B) :
  simulates g m1 m2 ->
  (forall a : A, simulates h (f1 a) (f2 (g a))) ->
  simulates h (bind m1 f1) (bind m2 f2).
Proof.
  intros Hm Hf c. unfold bind. specialize (Hm c).
  destruct (m1 c) as [[a c1]|e|].
  - rewrite Hm. apply Hf.
  - destruct Hm as (e' & -> & He). exists e'. now split.
  - now rewrite Hm.
Qed.

Lemma simulates_peek : simulates swapToken (peek tokens) (peek tokens').
Proof.
  intros c. unfold peek. rewrite nth_swapped.
  destruct (nth_error tokens c) as [t|]; cbn [option_map]; [reflexivity|].
  exists TypeError. split; [reflexivity | apply sameError_refl].
Qed.

Lemma simulates_previous : simulates swapToken (previous tokens) (previous tokens').
Proof.
  intros c. unfold previous. destruct c as [|c].
  - exists TypeError. split; [reflexivity | apply sameError_refl].
  - rewrite nth_swapped.
    destruct (nth_error tokens c) as [t|]; cbn [option_map]; [reflexivity|].
    exists TypeError. split; [reflexivity | apply sameError_refl].
Qed.

Lemma simulates_isAtEnd : simulates (fun b : bool => b) (isAtEnd tokens) (isAtEnd tokens').
Proof.
  unfold isAtEnd. apply (simulates_bind _ _ swapToken); [apply simulates_peek|].
  intros t. rewrite swapToken_type. apply simulates_same.
Qed.

Lemma simulates_advance : simulates swapToken (advance tokens) (advance tokens').
Proof.
  unfold advance. apply (simulates_bind _ _ (fun b : bool => b)); [apply simulates_isAtEnd|].
  intros atEnd. apply (simulates_bind _ _ (fun u : unit => u)).
  - destruct atEnd; apply simulates_same.
  - intros _. apply simulates_previous.
Qed.

(** [check] compares the value of no operator token. *)
Lemma simulates_check (ty : TokenType) (v : option string) :
  ty <> OPERATOR \/ v = None ->
  simulates (fun b : bool => b) (check tokens ty v) (check tokens' ty v).
Proof.
  intros Hv. unfold check.
  apply (simulates_bind _ _ (fun b : bool => b)); [apply simulates_isAtEnd|].
  intros [|]; [apply simulates_same|].
  apply (simulates_bind _ _ swapToken); [apply simulates_peek|].
  intros t. rewrite swapToken_type.
  destruct v as [[|a v]|]; try apply simulates_same.
  assert (K : value (swapToken t) = value t \/ TokenType_eqb (type t) ty = false).
  { destruct Hv as [Hv|Hv]; [|discriminate].
    destruct (type t) eqn:Et; try (left; unfold swapToken; rewrite Et; reflexivity).
    right. destruct ty; try reflexivity. now elim Hv. }
  destruct K as [K|K]; rewrite K; apply simulates_same.
Qed.

Lemma simulates_match (types : list TokenType) :
  simulates (fun b : bool => b) (match_ tokens types) (match_ tokens' types).
Proof.
  induction types as [|ty types IH]; cbn [match_]; [apply simulates_same|].
  apply (simulates_bind _ _ (fun b : bool => b)); [apply simulates_check; now right|].
  intros [|]; [|exact IH].
  apply (simulates_bind _ _ swapToken); [apply simulates_advance|].
  intros _. apply simulates_same.
Qed.

Lemma simulates_matchValue (ty : TokenType) (v : string) :
  ty <> OPERATOR ->
  simulates (fun b : bool => b) (matchValue tokens ty v) (matchValue tokens' ty v).
Proof.
  intros Hty. unfold matchValue.
  apply (simulates_bind _ _ (fun b : bool => b)); [apply simulates_check; now left|].
  intros [|]; [|apply simulates_same].
  apply (simulates_bind _ _ swapToken); [apply simulates_advance|].
  intros _. apply simulates_same.
Qed.

Lemma simulates_errorAt (A : Type) (g : A -> A) (message : string) :
  simulates g (@errorAt tokens A message) (@errorAt tokens' A message).
Proof.
  unfold errorAt. apply (simulates_bind _ _ swapToken); [apply simulates_peek|].
  intros t. rewrite swapToken_line, swapToken_column.
  apply simulates_throw, sameError_refl.
Qed.

Lemma simulates_consume (ty : TokenType) (message : string) :
  simulates swapToken (consume tokens ty message) (consume tokens' ty message).
Proof.
  unfold consume.
  apply (simulates_bind _ _ (fun b : bool => b)); [apply simulates_check; now right|].
  intros [|]; [apply simulates_advance | apply simulates_errorAt].
Qed.

Lemma simulates_consumeValue (ty : TokenType) (v message : string) :
  ty <> OPERATOR ->
  simulates swapToken (consumeValue tokens ty v message)
            (consumeValue tokens' ty v message).
Proof.
  intros Hty. unfold consumeValue.
  apply (simulates_bind _ _ (fun b : bool => b)); [apply simulates_check; now left|].
  intros [|]; [apply simulates_advance | apply simulates_errorAt].
Qed.

(** What [match] and [previous] give at an index, read off the array. *)
Lemma match_previous_at (toks : list Token) (ty : TokenType) (c : nat) :
  match nth_error toks c with
  | None => match_ toks [ty] c = Throw TypeError
  | Some t =>
      if TokenType_eqb (type t) ty && negb (TokenType_eqb (type t) EOF)
      then match_ toks [ty] c = Ok (true, S c)
           /\ previous toks (S c) = Ok (t, S c)
      else match_ toks [ty] c = Ok (false, c)
  end.
Proof.
  destruct (nth_error toks c) as [t|] eqn:H.
  - destruct (TokenType_eqb (type t) ty) eqn:E1.
    + destruct (TokenType_eqb (type t) EOF) eqn:E2; cbn [andb negb].
      * apply TokenType_eqb_eq in E2. now apply (match_at_end toks c t ty).
      * apply TokenType_eqb_eq in E1. apply TokenType_eqb_neq in E2.
        apply (match_same toks c t ty H E1). congruence.
    + cbn [andb]. now apply (match_other toks c t ty).
  - unfold match_, bind, check, isAtEnd, bind, peek. now rewrite H.
Qed.

(** A token that [match] has accepted, read by [previous]: what follows
    may rely on its type. *)
Lemma simulates_match_previous (A : Type) (g : A -> A) (ty : TokenType)
      (k1 k2 : Token -> M A) (alt1 alt2 : M A) :
  (forall p : Token, type p = ty -> simulates g (k1 p) (k2 (swapToken p))) ->
  simulates g alt1 alt2 ->
  simulates g
    (m <- match_ tokens [ty] ;; if m then p <- previous tokens ;; k1 p else alt1)
    (m <- match_ tokens' [ty] ;; if m then p <- previous tokens' ;; k2 p else alt2).
Proof.
  intros Hk Halt c.
  pose proof (match_previous_at tokens ty c) as H1.
  pose proof (match_previous_at tokens' ty c) as H2.
  rewrite nth_swapped in H2.
  destruct (nth_error tokens c) as [t|]; cbn [option_map] in H2.
  - rewrite swapToken_type in H2.
    destruct (TokenType_eqb (type t) ty && negb (TokenType_eqb (type t) EOF)) eqn:E.
    + destruct H1 as [M1 P1], H2 as [M2 P2].
      apply andb_true_iff in E as [E _]. apply TokenType_eqb_eq in E.
      assert (L : (m <- match_ tokens [ty] ;;
                   if m then p <- previous tokens ;; k1 p else alt1) c
                  = k1 t (S c))
        by (unfold bind; now rewrite M1, P1).
      assert (R : (m <- match_ tokens' [ty] ;;
                   if m then p <- previous tokens' ;; k2 p else alt2) c
                  = k2 (swapToken t) (S c))
        by (unfold bind; now rewrite M2, P2).
      rewrite L, R. exact (Hk t E (S c)).
    + assert (L : (m <- match_ tokens [ty] ;;
                   if m then p <- previous tokens ;; k1 p else alt1) c
                  = alt1 c)
        by (unfold bind; now rewrite H1).
      assert (R : (m <- match_ tokens' [ty] ;;
                   if m then p <- previous tokens' ;; k2 p else alt2) c
                  = alt2 c)
        by (unfold bind; now rewrite H2).
      rewrite L, R. apply Halt.
  - unfold bind. rewrite H1, H2.
    exists TypeError. split; [reflexivity | apply sameError_refl].
Qed.


Lemma simulates_matchThenValue (ty : TokenType) (accept : string -> bool) :
  ty <> OPERATOR \/ (forall v : string, accept (swapOperator v) = accept v) ->
  simulates (fun b : bool => b) (matchThenValue tokens ty accept)
            (matchThenValue tokens' ty accept).
Proof.
  intros H. unfold matchThenValue. apply simulates_match_previous.
  - intros p Hp.
    assert (E : accept (value (swapToken p)) = accept (value p)).
    { destruct (TokenType_eqb (type p) OPERATOR) eqn:Eo.
      - apply TokenType_eqb_eq in Eo. rewrite (swapToken_operator p Eo).
        destruct H as [H|H]; [congruence | apply H].
      - apply TokenType_eqb_neq in Eo. now rewrite (swapToken_other p Eo). }
    rewrite E. apply simulates_same.
  - apply simulates_same.
Qed.

Lemma simulates_optionalSemicolon :
  simulates (fun u : unit => u) (optionalSemicolon tokens) (optionalSemicolon tokens').
Proof.
  unfold optionalSemicolon. apply (simulates_bind _ _ (fun b : bool => b)).
  - apply simulates_matchThenValue. left. discriminate.
  - intros _. apply simulates_same.
Qed.

(** What [matchThenValue] gives at an index, read off the array. *)
Lemma matchThenValue_at (toks : list Token) (ty : TokenType)
      (accept : string -> bool) (c : nat) :
  match nth_error toks c with
  | None => matchThenValue toks ty accept c = Throw TypeError
  | Some t =>
      if TokenType_eqb (type t) ty && negb (TokenType_eqb (type t) EOF)
      then matchThenValue toks ty accept c = Ok (accept (value t), S c)
           /\ previous toks (S c) = Ok (t, S c)
      else matchThenValue toks ty accept c = Ok (false, c)
  end.
Proof.
  pose proof (match_previous_at toks ty c) as H. unfold matchThenValue, bind.
  destruct (nth_error toks c) as [t|].
  - destruct (TokenType_eqb (type t) ty && negb (TokenType_eqb (type t) EOF)).
    + destruct H as [M1 P1]. now rewrite M1, P1.
    + now rewrite H.
  - now rewrite H.
Qed.

(** A token that [matchThenValue] has accepted, read again by
    [previous]: what follows may rely on its type and on its value. *)
Lemma simulates_matchThenValue_previous (A : Type) (g : A -> A) (ty : TokenType)
      (accept : string -> bool) (k1 k2 : Token -> M A) (alt1 alt2 : M A) :
  (forall t : Token, type t = ty -> accept (value (swapToken t)) = accept (value t)) ->
  (forall p : Token, type p = ty -> accept (value p) = true ->
                     simulates g (k1 p) (k2 (swapToken p))) ->
  simulates g alt1 alt2 ->
  simulates g
    (b <- matchThenValue tokens ty accept ;;
     if b then p <- previous tokens ;; k1 p else alt1)
    (b <- matchThenValue tokens' ty accept ;;
     if b then p <- previous tokens' ;; k2 p else alt2).
Proof.
  intros Hacc Hk Halt c.
  pose proof (matchThenValue_at tokens ty accept c) as H1.
  pose proof (matchThenValue_at tokens' ty accept c) as H2.
  rewrite nth_swapped in H2.
  destruct (nth_error tokens c) as [t|]; cbn [option_map] in H2.
  - rewrite swapToken_type in H2.
    destruct (TokenType_eqb (type t) ty && negb (TokenType_eqb (type t) EOF)) eqn:E.
    + destruct H1 as [M1 P1], H2 as [M2 P2].
      apply andb_true_iff in E as [E _]. apply TokenType_eqb_eq in E.
      rewrite (Hacc t E) in M2.
      destruct (accept (value t)) eqn:Ea.
      * assert (L : (b <- matchThenValue tokens ty accept ;;
                     if b then p <- previous tokens ;; k1 p else alt1) c
                    = k1 t (S c))
          by (unfold bind; now rewrite M1, P1).
        assert (R : (b <- matchThenValue tokens' ty accept ;;
                     if b then p <- previous tokens' ;; k2 p else alt2) c
                    = k2 (swapToken t) (S c))
          by (unfold bind; now rewrite M2, P2).
        rewrite L, R. exact (Hk t E Ea (S c)).
      * assert (L : (b <- matchThenValue tokens ty accept ;;
                     if b then p <- previous tokens ;; k1 p else alt1) c
                    = alt1 (S c))
          by (unfold bind; now rewrite M1).
        assert (R : (b <- matchThenValue tokens' ty accept ;;
                     if b then p <- previous tokens' ;; k2 p else alt2) c
                    = alt2 (S c))
          by (unfold bind; now rewrite M2).
        rewrite L, R. apply Halt.
    + assert (L : (b <- matchThenValue tokens ty accept ;;
                   if b then p <- previous tokens ;; k1 p else alt1) c
                  = alt1 c)
        by (unfold bind; now rewrite H1).
      assert (R : (b <- matchThenValue tokens' ty accept ;;
                   if b then p <- previous tokens' ;; k2 p else alt2) c
                  = alt2 c)
        by (unfold bind; now rewrite H2).
      rewrite L, R. apply Halt.
  - unfold bind. rewrite H1, H2.
    exists TypeError. split; [reflexivity | apply sameError_refl].
Qed.

(** What [consume] gives at an index, read off the array. *)
Lemma consume_at (toks : list Token) (ty : TokenType) (message : string) (c : nat) :
  match nth_error toks c with
  | None => consume toks ty message c = Throw TypeError
  | Some t =>
      consume toks ty message c
      = if TokenType_eqb (type t) ty && negb (TokenType_eqb (type t) EOF)
        then Ok (t, S c) else Throw (errorOf message t)
  end.
Proof.
  destruct (nth_error toks c) as [t|] eqn:H.
  - unfold consume, bind. rewrite (check_at toks c t ty None H).
    destruct (TokenType_eqb (type t) EOF) eqn:E2.
    + rewrite andb_false_r. unfold errorAt, bind, peek, throw. now rewrite H.
    + rewrite andb_true_r. destruct (TokenType_eqb (type t) ty).
      * apply advance_at; [exact H | now apply TokenType_eqb_neq].
      * unfold errorAt, bind, peek, throw. now rewrite H.
  - unfold consume, bind, check, isAtEnd, bind, peek. now rewrite H.
Qed.

(** A token that [consume] returns: what follows may rely on its type. *)
Lemma simulates_consume_bind (A : Type) (g : A -> A) (ty : TokenType)
      (message : string) (k1 k2 : Token -> M A) :
  (forall p : Token, type p = ty -> simulates g (k1 p) (k2 (swapToken p))) ->
  simulates g (p <- consume tokens ty message ;; k1 p)
              (p <- consume tokens' ty message ;; k2 p).
Proof.
  intros Hk c. unfold bind.
  pose proof (consume_at tokens ty message c) as H1.
  pose proof (consume_at tokens' ty message c) as H2.
  rewrite nth_swapped in H2.
  destruct (nth_error tokens c) as [t|]; cbn [option_map] in H2.
  - rewrite swapToken_type in H2. rewrite H1, H2.
    destruct (TokenType_eqb (type t) ty && negb (TokenType_eqb (type t) EOF)) eqn:E.
    + apply andb_true_iff in E as [E _]. apply TokenType_eqb_eq in E.
      exact (Hk t E (S c)).
    + exists (errorOf message (swapToken t)). split; [reflexivity|]. left.
      unfold errorOf. now rewrite swapToken_line, swapToken_column.
  - rewrite H1, H2. exists TypeError. split; [reflexivity | apply sameError_refl].
Qed.

Lemma simulates_whilePush (A : Type) (g : A -> A) (cond1 cond2 : M bool)
      (body1 body2 : M A) :
  simulates (fun b : bool => b) cond1 cond2 ->
  simulates g body1 body2 ->
  forall (fuel : nat) (acc : list A),
    simulates (map g) (whilePush cond1 body1 fuel acc)
              (whilePush cond2 body2 fuel (map g acc)).
Proof.
  intros Hc Hb. induction fuel as [|fuel IH]; intros acc; cbn [whilePush].
  - apply simulates_outOfFuel.
  - apply (simulates_bind _ _ (fun b : bool => b)); [exact Hc|].
    intros [|]; [|apply simulates_ret].
    apply (simulates_bind _ _ g); [exact Hb|]. intros x.
    replace (map g acc ++ [g x])%list with (map g (acc ++ [x])%list)
      by (rewrite map_app; reflexivity).
    apply IH.
Qed.

Lemma simulates_doWhileComma (A : Type) (g : A -> A) (body1 body2 : M A) :
  simulates g body1 body2 ->
  forall (fuel : nat) (acc : list A),
    simulates (map g) (doWhileComma tokens body1 fuel acc)
              (doWhileComma tokens' body2 fuel (map g acc)).
Proof.
  intros Hb. induction fuel as [|fuel IH]; intros acc; cbn [doWhileComma].
  - apply simulates_outOfFuel.
  - apply (simulates_bind _ _ g); [exact Hb|]. intros x.
    apply (simulates_bind _ _ (fun b : bool => b)).
    + apply simulates_matchThenValue. left. discriminate.
    + replace (map g acc ++ [g x])%list with (map g (acc ++ [x])%list)
        by (rewrite map_app; reflexivity).
      intros [|]; [apply IH | apply simulates_ret].
Qed.

(** A level of binary operators whose list holds both names or neither. *)
Lemma simulates_parseBinaryLoop (next1 next2 : M Expression) (operators : list string) :
  includes operators "+" = includes operators "jama" ->
  simulates swapExpression next1 next2 ->
  forall (fuel : nat) (expr : Expression),
    simulates swapExpression
      (parseBinaryLoop tokens next1 operators fuel expr)
      (parseBinaryLoop tokens' next2 operators fuel (swapExpression expr)).
Proof.
  intros Hops Hn. induction fuel as [|fuel IH]; intros expr; cbn [parseBinaryLoop].
  - apply simulates_outOfFuel.
  - apply simulates_match_previous; [|apply simulates_ret].
    intros p Hp. rewrite (swapToken_operator p Hp).
    rewrite (swapOperator_includes operators (value p) Hops).
    destruct (includes operators (value p)); [|apply simulates_ret].
    apply (simulates_bind _ _ swapExpression); [exact Hn|]. intros right.
    apply (simulates_bind _ _ swapToken); [apply simulates_previous|]. intros q.
    rewrite swapToken_line, swapToken_column.
    exact (IH (BinaryExpression (value p) expr right (line q) (column q))).
Qed.

Lemma simulates_parseBinaryExpression (next1 next2 : M Expression)
      (operators : list string) (fuel : nat) :
  includes operators "+" = includes operators "jama" ->
  simulates swapExpression next1 next2 ->
  simulates swapExpression
    (parseBinaryExpression tokens next1 operators fuel)
    (parseBinaryExpression tokens' next2 operators fuel).
Proof.
  intros Hops Hn. unfold parseBinaryExpression.
  apply (simulates_bind _ _ swapExpression); [exact Hn|].
  intros expr. now apply simulates_parseBinaryLoop.
Qed.

Lemma simulates_callLoop (finish1 finish2 : Expression -> M Expression) :
  (forall callee : Expression,
      simulates swapExpression (finish1 callee) (finish2 (swapExpression callee))) ->
  forall (fuel : nat) (expr : Expression),
    simulates swapExpression (callLoop tokens finish1 fuel expr)
              (callLoop tokens' finish2 fuel (swapExpression expr)).
Proof.
  intros Hf. induction fuel as [|fuel IH]; intros expr; cbn [callLoop].
  - apply simulates_outOfFuel.
  - apply (simulates_bind _ _ (fun b : bool => b)).
    + apply simulates_matchThenValue. left. discriminate.
    + intros [|]; [|apply simulates_ret].
      apply (simulates_bind _ _ swapExpression); [apply Hf|]. intros x. apply IH.
Qed.


Lemma simulates_ext (A : Type) (g g' : A -> A) (m1 m2 : M A) :
  (forall a : A, g a = g' a) -> simulates g m1 m2 -> simulates g' m1 m2.
Proof.
  intros E H c. specialize (H c). destruct (m1 c) as [[a c1]|e|]; try exact H.
  now rewrite <- E.
Qed.

(** One step through a method: a primitive, or a bind whose first part
    is one. *)
Ltac sim_prim :=
  first
    [ eassumption
    | apply simulates_peek | apply simulates_previous | apply simulates_isAtEnd
    | apply simulates_advance | apply simulates_match
    | apply simulates_matchValue; discriminate
    | apply simulates_consume
    | apply simulates_consumeValue; discriminate
    | apply simulates_matchThenValue; left; discriminate
    | apply simulates_check; left; discriminate
    | apply simulates_optionalSemicolon ].

Ltac sim_bind :=
  eapply simulates_bind; [sim_prim | intros ?; cbv beta];
  rewrite ?swapToken_line, ?swapToken_column.

Ltac sim_done :=
  first [ apply simulates_outOfFuel
        | assumption
        | apply simulates_ret
        | apply simulates_same ].

Ltac sim_if :=
  match goal with
  | |- simulates _ (if ?b then _ else _) (if ?b then _ else _) => destruct b
  end.

Lemma isIdentifier_swap (x : Expression) : isIdentifier (swapExpression x) = isIdentifier x.
Proof. destruct x; reflexivity. Qed.

Section Step.

Variable fuel : nat.
Hypothesis D : simulates swapStatement (declaration tokens fuel) (declaration tokens' fuel).
Hypothesis FD : simulates swapStatement (functionDeclaration tokens fuel)
                          (functionDeclaration tokens' fuel).
Hypothesis ST : simulates swapStatement (statement tokens fuel) (statement tokens' fuel).
Hypothesis IFS : simulates swapStatement (ifStatement tokens fuel) (ifStatement tokens' fuel).
Hypothesis WS : simulates swapStatement (whileStatement tokens fuel)
                          (whileStatement tokens' fuel).
Hypothesis FS : simulates swapStatement (forStatement tokens fuel) (forStatement tokens' fuel).
Hypothesis RS : simulates swapStatement (returnStatement tokens fuel)
                          (returnStatement tokens' fuel).
Hypothesis BS : simulates swapStatement (blockStatement tokens fuel)
                          (blockStatement tokens' fuel).
Hypothesis ES : simulates swapStatement (expressionStatement tokens fuel)
                          (expressionStatement tokens' fuel).
Hypothesis EX : simulates swapExpression (expression tokens fuel) (expression tokens' fuel).
Hypothesis AS : simulates swapExpression (assignment tokens fuel) (assignment tokens' fuel).
Hypothesis EQ : simulates swapExpression (equality tokens fuel) (equality tokens' fuel).
Hypothesis CP : simulates swapExpression (comparison tokens fuel) (comparison tokens' fuel).
Hypothesis AD : simulates swapExpression (addition tokens fuel) (addition tokens' fuel).
Hypothesis MU : simulates swapExpression (multiplication tokens fuel)
                          (multiplication tokens' fuel).
Hypothesis UN : simulates swapExpression (unary tokens fuel) (unary tokens' fuel).
Hypothesis CA : simulates swapExpression (call tokens fuel) (call tokens' fuel).
Hypothesis FC : forall callee : Expression,
    simulates swapExpression (finishCall tokens fuel callee)
              (finishCall tokens' fuel (swapExpression callee)).
Hypothesis PR : simulates swapExpression (primary tokens fuel) (primary tokens' fuel).
Hypothesis AL : simulates swapExpression (arrayLiteral tokens fuel)
                          (arrayLiteral tokens' fuel).

Lemma step_declaration :
  simulates swapStatement (declaration tokens (S fuel)) (declaration tokens' (S fuel)).
Proof. cbn [declaration]. sim_bind. sim_if; sim_done. Qed.

Lemma step_functionDeclaration :
  simulates swapStatement (functionDeclaration tokens (S fuel))
            (functionDeclaration tokens' (S fuel)).
Proof.
  cbn [functionDeclaration]. sim_bind.
  apply simulates_consume_bind. intros name Hname.
  rewrite (swapToken_other name) by (rewrite Hname; discriminate).
  sim_bind. sim_bind.
  apply (simulates_bind _ _ (fun l : list string => l)).
  - match goal with |- context [negb ?b] => destruct b end; cbn [negb];
      [apply simulates_same|].
    apply (simulates_ext _ (map (fun x : string => x))); [apply map_id|].
    apply (simulates_doWhileComma string (fun x : string => x)).
    apply simulates_consume_bind. intros p Hp.
    rewrite (swapToken_other p) by (rewrite Hp; discriminate).
    apply simulates_same.
  - intros params. sim_bind. sim_bind. sim_bind.
    exact (simulates_ret _ swapStatement (FunctionDeclaration _ _ _ _ _)).
Qed.

Lemma step_statement :
  simulates swapStatement (statement tokens (S fuel)) (statement tokens' (S fuel)).
Proof.
  cbn [statement].
  sim_bind; sim_if; [sim_done|].
  sim_bind; sim_if; [sim_done|].
  sim_bind; sim_if; [sim_done|].
  sim_bind; sim_if; [sim_done|].
  sim_bind; sim_if; sim_done.
Qed.

Lemma step_ifStatement :
  simulates swapStatement (ifStatement tokens (S fuel)) (ifStatement tokens' (S fuel)).
Proof.
  cbn [ifStatement]. sim_bind. sim_bind. sim_bind. sim_bind. sim_bind. sim_bind.
  sim_bind.
  apply (simulates_bind _ _ (option_map swapStatement)).
  - sim_if; [|exact (simulates_ret _ (option_map swapStatement) None)].
    sim_bind. sim_bind.
    exact (simulates_ret _ (option_map swapStatement) (Some _)).
  - intros alternate.
    exact (simulates_ret _ swapStatement (IfStatement _ _ _ _ _)).
Qed.

Lemma step_whileStatement :
  simulates swapStatement (whileStatement tokens (S fuel)) (whileStatement tokens' (S fuel)).
Proof.
  cbn [whileStatement]. sim_bind. sim_bind. sim_bind. sim_bind. sim_bind. sim_bind.
  exact (simulates_ret _ swapStatement (WhileStatement _ _ _ _)).
Qed.

Lemma step_forStatement :
  simulates swapStatement (forStatement tokens (S fuel)) (forStatement tokens' (S fuel)).
Proof.
  cbn [forStatement]. sim_bind. sim_bind.
  apply simulates_consume_bind. intros variable Hvariable.
  rewrite (swapToken_other variable) by (rewrite Hvariable; discriminate).
  sim_bind. sim_bind. sim_bind. sim_bind. sim_bind.
  exact (simulates_ret _ swapStatement (ForStatement _ _ _ _ _)).
Qed.

Lemma step_returnStatement :
  simulates swapStatement (returnStatement tokens (S fuel)) (returnStatement tokens' (S fuel)).
Proof.
  cbn [returnStatement]. sim_bind. sim_bind.
  apply (simulates_bind _ _ (option_map swapExpression)).
  - sim_if; [exact (simulates_ret _ (option_map swapExpression) None)|].
    sim_bind. sim_if; [exact (simulates_ret _ (option_map swapExpression) None)|].
    sim_bind. exact (simulates_ret _ (option_map swapExpression) (Some _)).
  - intros argument. sim_bind.
    exact (simulates_ret _ swapStatement (ReturnStatement _ _ _)).
Qed.

Lemma step_blockStatement :
  simulates swapStatement (blockStatement tokens (S fuel)) (blockStatement tokens' (S fuel)).
Proof.
  cbn [blockStatement]. sim_bind.
  apply (simulates_bind _ _ (map swapStatement)).
  - apply (simulates_whilePush Statement swapStatement _ _ _ _ ) with (acc := []);
      [|exact D].
    sim_bind. sim_if; [apply simulates_same|]. sim_bind. apply simulates_same.
  - intros statements. sim_bind.
    exact (simulates_ret _ swapStatement (BlockStatement _ _ _)).
Qed.

Lemma step_expressionStatement :
  simulates swapStatement (expressionStatement tokens (S fuel))
            (expressionStatement tokens' (S fuel)).
Proof.
  cbn [expressionStatement]. sim_bind. sim_bind. sim_bind.
  exact (simulates_ret _ swapStatement (ExpressionStatement _ _ _)).
Qed.

Lemma step_expression :
  simulates swapExpression (expression tokens (S fuel)) (expression tokens' (S fuel)).
Proof. cbn [expression]. exact AS. Qed.

Lemma step_assignment :
  simulates swapExpression (assignment tokens (S fuel)) (assignment tokens' (S fuel)).
Proof.
  cbn [assignment]. sim_bind.
  apply (simulates_bind _ _ (fun b : bool => b)).
  - apply simulates_matchThenValue. right. intros v. unfold swapOperator.
    destruct (String.eqb_spec v "+") as [->|N1]; [reflexivity|].
    destruct (String.eqb_spec v "jama") as [->|N2]; reflexivity.
  - intros [|]; [|apply simulates_ret].
    sim_bind. sim_bind. rewrite isIdentifier_swap.
    match goal with |- context [isIdentifier ?x] => destruct (isIdentifier x) end.
    + exact (simulates_ret _ swapExpression (AssignmentExpression _ _ _ _)).
    + apply simulates_throw, sameError_refl.
Qed.

Lemma step_equality :
  simulates swapExpression (equality tokens (S fuel)) (equality tokens' (S fuel)).
Proof. cbn [equality]. apply simulates_parseBinaryExpression; [reflexivity | exact CP]. Qed.

Lemma step_comparison :
  simulates swapExpression (comparison tokens (S fuel)) (comparison tokens' (S fuel)).
Proof. cbn [comparison]. apply simulates_parseBinaryExpression; [reflexivity | exact AD]. Qed.

Lemma step_addition :
  simulates swapExpression (addition tokens (S fuel)) (addition tokens' (S fuel)).
Proof. cbn [addition]. apply simulates_parseBinaryExpression; [reflexivity | exact MU]. Qed.

Lemma step_multiplication :
  simulates swapExpression (multiplication tokens (S fuel)) (multiplication tokens' (S fuel)).
Proof.
  cbn [multiplication]. apply simulates_parseBinaryExpression; [reflexivity | exact UN].
Qed.

Lemma minus_names (v : string) :
  includes ["-"; "manfi"] v = true -> swapOperator v = v.
Proof.
  unfold swapOperator.
  destruct (String.eqb_spec v "+") as [->|N1]; [discriminate|].
  destruct (String.eqb_spec v "jama") as [->|N2]; [discriminate | reflexivity].
Qed.

Lemma step_unary :
  simulates swapExpression (unary tokens (S fuel)) (unary tokens' (S fuel)).
Proof.
  cbn [unary]. apply simulates_matchThenValue_previous; [| |exact CA].
  - intros t Ht. rewrite (swapToken_operator t Ht).
    apply swapOperator_includes. reflexivity.
  - intros p Hp Hminus. cbv zeta. rewrite (swapToken_operator p Hp).
    rewrite (minus_names (value p) Hminus).
    sim_bind. sim_bind.
    rewrite <- (minus_names (value p) Hminus) at 2.
    exact (simulates_ret _ swapExpression (BinaryExpression _ _ _ _ _)).
Qed.

Lemma step_call :
  simulates swapExpression (call tokens (S fuel)) (call tokens' (S fuel)).
Proof.
  cbn [call]. sim_bind. apply simulates_callLoop. exact FC.
Qed.

Lemma step_finishCall (callee : Expression) :
  simulates swapExpression (finishCall tokens (S fuel) callee)
            (finishCall tokens' (S fuel) (swapExpression callee)).
Proof.
  cbn [finishCall]. sim_bind. sim_bind.
  apply (simulates_bind _ _ (map swapExpression)).
  - match goal with |- context [negb ?b] => destruct b end; cbn [negb];
      [exact (simulates_ret _ (map swapExpression) [])|].
    apply (simulates_doWhileComma Expression swapExpression _ _ EX fuel []).
  - intros args. sim_bind.
    exact (simulates_ret _ swapExpression (CallExpression _ _ _ _)).
Qed.

Lemma step_arrayLiteral :
  simulates swapExpression (arrayLiteral tokens (S fuel)) (arrayLiteral tokens' (S fuel)).
Proof.
  cbn [arrayLiteral]. sim_bind. sim_bind.
  apply (simulates_bind _ _ (map swapExpression)).
  - match goal with |- context [negb ?b] => destruct b end; cbn [negb];
      [exact (simulates_ret _ (map swapExpression) [])|].
    apply (simulates_doWhileComma Expression swapExpression _ _ EX fuel []).
  - intros elements. sim_bind.
    exact (simulates_ret _ swapExpression (ArrayLiteral _ _ _)).
Qed.

Lemma step_primary :
  simulates swapExpression (primary tokens (S fuel)) (primary tokens' (S fuel)).
Proof.
  cbn [primary]. sim_bind.
  apply simulates_match_previous.
  { intros p Hp. rewrite (swapToken_other p) by (rewrite Hp; discriminate).
    exact (simulates_ret _ swapExpression (NumericLiteral _ _ _)). }
  apply simulates_match_previous.
  { intros p Hp. rewrite (swapToken_other p) by (rewrite Hp; discriminate).
    exact (simulates_ret _ swapExpression (StringLiteral _ _ _)). }
  sim_bind. sim_if.
  { sim_bind. exact (simulates_ret _ swapExpression (BooleanLiteral _ _ _)). }
  sim_bind. sim_if.
  { sim_bind. exact (simulates_ret _ swapExpression (BooleanLiteral _ _ _)). }
  sim_bind. sim_if; [exact AL|].
  sim_bind. sim_if.
  { sim_bind. sim_bind. apply simulates_ret. }
  apply simulates_match_previous.
  { intros p Hp. rewrite (swapToken_other p) by (rewrite Hp; discriminate).
    exact (simulates_ret _ swapExpression (Identifier _ _ _)). }
  sim_bind. apply simulates_throw. right.
  match goal with t : Token |- _ => exists t end.
  split; [reflexivity|]. unfold unexpectedToken.
  now rewrite swapToken_line, swapToken_column.
Qed.

End Step.

(** All methods of the grammar do the same on the array with the two
    names exchanged. *)
Lemma all_simulate (fuel : nat) :
  simulates swapStatement (declaration tokens fuel) (declaration tokens' fuel)
  /\ simulates swapStatement (functionDeclaration tokens fuel)
               (functionDeclaration tokens' fuel)
  /\ simulates swapStatement (statement tokens fuel) (statement tokens' fuel)
  /\ simulates swapStatement (ifStatement tokens fuel) (ifStatement tokens' fuel)
  /\ simulates swapStatement (whileStatement tokens fuel) (whileStatement tokens' fuel)
  /\ simulates swapStatement (forStatement tokens fuel) (forStatement tokens' fuel)
  /\ simulates swapStatement (returnStatement tokens fuel) (returnStatement tokens' fuel)
  /\ simulates swapStatement (blockStatement tokens fuel) (blockStatement tokens' fuel)
  /\ simulates swapStatement (expressionStatement tokens fuel)
               (expressionStatement tokens' fuel)
  /\ simulates swapExpression (expression tokens fuel) (expression tokens' fuel)
  /\ simulates swapExpression (assignment tokens fuel) (assignment tokens' fuel)
  /\ simulates swapExpression (equality tokens fuel) (equality tokens' fuel)
  /\ simulates swapExpression (comparison tokens fuel) (comparison tokens' fuel)
  /\ simulates swapExpression (addition tokens fuel) (addition tokens' fuel)
  /\ simulates swapExpression (multiplication tokens fuel) (multiplication tokens' fuel)
  /\ simulates swapExpression (unary tokens fuel) (unary tokens' fuel)
  /\ simulates swapExpression (call tokens fuel) (call tokens' fuel)
  /\ (forall callee : Expression,
         simulates swapExpression (finishCall tokens fuel callee)
                   (finishCall tokens' fuel (swapExpression callee)))
  /\ simulates swapExpression (primary tokens fuel) (primary tokens' fuel)
  /\ simulates swapExpression (arrayLiteral tokens fuel) (arrayLiteral tokens' fuel).
Proof.
  induction fuel as [|fuel IH].
  - repeat match goal with |- _ /\ _ => split end;
      first [apply simulates_outOfFuel | intros ?; apply simulates_outOfFuel].
  - destruct IH as (D & FD & ST & IFS & WS & FS & RS & BS & ES & EX & AS
                    & EQ & CP & AD & MU & UN & CA & FC & PR & AL).
    repeat match goal with |- _ /\ _ => split end.
    + now apply step_declaration.
    + now apply step_functionDeclaration.
    + now apply step_statement.
    + now apply step_ifStatement.
    + now apply step_whileStatement.
    + now apply step_forStatement.
    + now apply step_returnStatement.
    + now apply step_blockStatement.
    + now apply step_expressionStatement.
    + now apply step_expression.
    + now apply step_assignment.
    + now apply step_equality.
    + now apply step_comparison.
    + now apply step_addition.
    + now apply step_multiplication.
    + now apply step_unary.
    + now apply step_call.
    + intros callee. now apply step_finishCall.
    + now apply step_primary.
    + now apply step_arrayLiteral.
Qed.

End Simulation.

(** Exchanging the names + and jama in the operator tokens exchanges
    them in the tree and changes nothing else. *)
Lemma parse_swapped (tokens : list Token) :
  match parse tokens with
  | Ok program => parse (map swapToken tokens) = Ok (swapProgram program)
  | Throw e => exists e' : Exn, parse (map swapToken tokens) = Throw e' /\ sameError e e'
  | OutOfFuel => parse (map swapToken tokens) = OutOfFuel
  end.
Proof.
  unfold parse, Parser.parse, parseFuel. rewrite length_map.
  set (fuel := 24 * S (length tokens)).
  destruct (all_simulate tokens fuel) as (D & _).
  assert (C : simulates (fun b : bool => b)
                (atEnd <- isAtEnd tokens ;; ret (negb atEnd))
                (atEnd <- isAtEnd (map swapToken tokens) ;; ret (negb atEnd))).
  { apply (simulates_bind _ _ (fun b : bool => b)); [apply simulates_isAtEnd|].
    intros atEnd. apply simulates_same. }
  pose proof (simulates_whilePush Statement swapStatement _ _ _ _ C D fuel [] 0) as H.
  cbn [map] in H.
  destruct (whilePush _ _ fuel [] 0) as [[body c]|e|].
  - rewrite H. reflexivity.
  - destruct H as (e' & -> & He). exists e'. now split.
  - now rewrite H.
Qed.

End OperatorNames.

(** ** The lexer: words and string literals *)

Module LexerClaims.
Import LexerFacts LexerTheorems.

(** A whole text that is one string literal gives the literal and the
    end-of-input token. *)
Lemma tokenize_string_literal (s : string) (q : ascii) :
  q = dquote \/ q = squote ->
  allChars (fun c => negb (Ascii.eqb c q)) s = true ->
  exists ln col : nat,
    tokenize (String q (s ++ str q))
    = Ok [mkToken STRING s ln 1; mkToken EOF "" ln col].
Proof.
  intros Hq Hs.
  set (src := String q (s ++ str q)).
  set (L' := Nat.iter (String.length s + 2) Lexer.advance (lexerAt src 0 1 1)).
  exists (Lexer.line L'), (Lexer.column L').
  unfold tokenize, Lexer.tokenize. rewrite new_lexerAt.
  unfold Lexer.loopFuel at 1. cbn [Nat.add Lexer.tokenize_loop].
  pose proof (getNextToken_string "" (s ++ str q) q 1 1 Hq) as G.
  pose proof (string_stretch "" s "" q 1 1 Hs) as T.
  cbn [append String.length] in G, T. fold (str q) in T. fold src in G, T.
  rewrite G, T. fold L'. cbn [type TokenType_eqb app].
  assert (C : Lexer.currentChar L' = None).
  { assert (K : consistent L').
    { unfold L'. replace (String.length s + 2) with (S (String.length s + 1)) by lia.
      cbn [Nat.iter]. apply advance_consistent. }
    rewrite K. apply get_beyond. unfold L'.
    rewrite iter_advance_code, iter_advance_position. cbn [Lexer.code Lexer.position lexerAt].
    unfold src. cbn [String.length]. rewrite slength_app. simpl. lia. }
  unfold Lexer.getNextToken, Lexer.loopFuel. cbn [Nat.add Lexer.getNextToken_loop]. rewrite C.
  reflexivity.
Qed.

(** C9. A string literal may span lines.  Wherever a quote [q] opens a
    literal and the same quote closes it, with any characters [s] other
    than [q] in between (line feeds and the other quote included), the
    next token is the STRING token whose value is [s], character for
    character; no error is raised, and the lexer stops right behind the
    closing quote.  A text that is just such a literal tokenizes to that
    token and the end-of-input token. *)
Theorem string_literal_spans_lines :
  forall (pre s rest : string) (q : ascii) (ln col : nat),
    q = dquote \/ q = squote ->
    allChars (fun c => negb (Ascii.eqb c q)) s = true ->
    (exists L' : Lexer.Lexer,
        Lexer.getNextToken (lexerAt (pre ++ String q (s ++ String q rest))
                              (String.length pre) ln col)
        = Ok (mkToken STRING s (Lexer.line L') col, L')
        /\ Lexer.position L' = String.length pre + String.length s + 2)
    /\ (exists ln' col' : nat,
           tokenize (String q (s ++ str q))
           = Ok [mkToken STRING s ln' 1; mkToken EOF "" ln' col']).
Proof.
  intros pre s rest q ln col Hq Hs. split.
  - eexists. split.
    + rewrite (getNextToken_string pre (s ++ String q rest) q ln col Hq).
      apply (string_stretch pre s rest q ln col Hs).
    + rewrite iter_advance_position. cbn [Lexer.position lexerAt]. lia.
  - apply tokenize_string_literal; assumption.
Qed.

(** A double-quoted literal holding a line feed and a single quote, in
    the middle of a line. *)
Lemma string_literal_spans_lines_witness :
  (exists L' : Lexer.Lexer,
      Lexer.getNextToken
        (lexerAt ("x = " ++ String dquote (("a" ++ str newline ++ "b'c")
                                            ++ String dquote " _ y"))
                 (String.length "x = ") 1 5)
      = Ok (mkToken STRING ("a" ++ str newline ++ "b'c") (Lexer.line L') 5, L')
      /\ Lexer.position L'
         = String.length "x = " + String.length ("a" ++ str newline ++ "b'c") + 2)
  /\ (exists ln' col' : nat,
         tokenize (String dquote (("a" ++ str newline ++ "b'c") ++ str dquote))
         = Ok [mkToken STRING ("a" ++ str newline ++ "b'c") ln' 1;
               mkToken EOF "" ln' col']).
Proof.
  apply (string_literal_spans_lines "x = " ("a" ++ str newline ++ "b'c") " _ y"
                                    dquote 1 5).
  - left; reflexivity.
  - reflexivity.
Defined.

(** C8. Keyword and word-operator recognition is case-insensitive and
    normalises to lower case.  Wherever a lexeme made of a letter or
    underscore followed by letters, digits and underscores stands in a
    text, the next token starts at the lexeme's column and is: a KEYWORD
    token with the lower-case text when that is in [KEYWORDS]; else an
    OPERATOR token with the lower-case text when that is in [OPERATORS]
    (whose word-shaped members are jama, manfi, zarab, takseem,
    takseembaki and the underscore); else an IDENTIFIER token with the
    text as written.  So KO, Ko and ko tokenize alike, JAMA is the
    operator jama, and jama stands with + in the operator list of the
    additive level and in the precedence table.

    The parser handles the operator jama where it handles +, at the
    additive level.  Where the multiplicative level has read a left
    operand and stands at an operator token whose value is + or jama,
    and reads a right operand behind it that no operator token follows,
    [addition] returns the binary node of that operator over the two
    operands, with the line and column of the last token of the right
    operand; the right operand is a whole product, so both bind less
    tightly than the star.  The multiplicative level handles neither
    of the two: behind a plain operand it consumes either of them and
    returns (the loss of C1), so that x JAMA y and x + y alike parse to
    the two statements x and y, and the additive level is reached by
    either only behind an operator that was lost before it, as in
    x = JAMA y and x = + y.

    For the parser as a whole the two names are one operator: where in
    any token array the operator tokens + and jama are exchanged, the
    parse gives the same tree with the two names exchanged in its
    binary nodes; it fails where the parse of the given array fails,
    with the same error but for the name that the error of an
    unexpected token quotes. *)
Theorem keyword_recognition_case_insensitive :
  forall (pre w rest : string) (c : ascii) (ln col : nat),
    isIdentStart c = true ->
    allChars isIdentChar w = true ->
    startsWith isIdentChar rest = false ->
    (exists (tok : Token) (L' : Lexer.Lexer),
        Lexer.getNextToken (lexerAt (pre ++ String c w ++ rest) (String.length pre) ln col)
        = Ok (tok, L')
        /\ Lexer.position L' = String.length pre + String.length (String c w)
        /\ column tok = col
        /\ (includes KEYWORDS (toLowerCase (String c w)) = true ->
            type tok = KEYWORD /\ value tok = toLowerCase (String c w))
        /\ (includes KEYWORDS (toLowerCase (String c w)) = false ->
            includes OPERATORS (toLowerCase (String c w)) = true ->
            type tok = OPERATOR /\ value tok = toLowerCase (String c w))
        /\ (includes KEYWORDS (toLowerCase (String c w)) = false ->
            includes OPERATORS (toLowerCase (String c w)) = false ->
            type tok = IDENTIFIER /\ value tok = String c w))
    /\ tokenize "KO" = tokenize "ko"
    /\ tokenize "Ko" = tokenize "ko"
    /\ tokenize "ko" = Ok [mkToken KEYWORD "ko" 1 1; mkToken EOF "" 1 3]
    /\ tokenize "JAMA" = Ok [mkToken OPERATOR "jama" 1 1; mkToken EOF "" 1 5]
    /\ includes additionOperators "jama" = true
    /\ includes additionOperators "+" = true
    /\ precedenceOf PRECEDENCE "jama" = precedenceOf PRECEDENCE "+"
    /\ (forall (tokens : list Token) (fuel current next last : nat)
               (left right : Expression) (o q t : Token),
           Parser.multiplication tokens (2 + fuel) current = Ok (left, next) ->
           nth_error tokens next = Some o ->
           type o = OPERATOR ->
           value o = "+" \/ value o = "jama" ->
           Parser.multiplication tokens (2 + fuel) (S next) = Ok (right, S last) ->
           nth_error tokens last = Some q ->
           nth_error tokens (S last) = Some t ->
           type t <> OPERATOR ->
           Parser.addition tokens (3 + fuel) current
           = Ok (BinaryExpression (value o) left right (line q) (column q), S last))
    /\ (forall (tokens : list Token) (fuel current : nat) (a o : Token),
           nth_error tokens current = Some a ->
           isLeafType (type a) = true ->
           nth_error tokens (S current) = Some o ->
           type o = OPERATOR ->
           value o = "+" \/ value o = "jama" ->
           exists operand : Expression,
             Parser.unary tokens (3 + fuel) current = Ok (operand, S current)
             /\ Parser.multiplication tokens (4 + fuel) current
                = Ok (operand, S (S current)))
    /\ (forall tokens : list Token,
           match parse tokens with
           | Ok program => parse (map swapToken tokens) = Ok (swapProgram program)
           | Throw e =>
               exists e' : Exn,
                 parse (map swapToken tokens) = Throw e' /\ sameError e e'
           | OutOfFuel => parse (map swapToken tokens) = OutOfFuel
           end)
    /\ parseSource "x = JAMA y"
       = Ok (mkProgram
               [ExpressionStatement
                  (BinaryExpression "jama" (Identifier "x" 1 1) (Identifier "y" 1 10)
                                    1 10) 1 1] 1 1)
    /\ parseSource "x = + y"
       = Ok (mkProgram
               [ExpressionStatement
                  (BinaryExpression "+" (Identifier "x" 1 1) (Identifier "y" 1 7)
                                    1 7) 1 1] 1 1)
    /\ parseSource "x = JAMA y * z"
       = Ok (mkProgram
               [ExpressionStatement
                  (BinaryExpression "jama" (Identifier "x" 1 1)
                     (BinaryExpression "*" (Identifier "y" 1 10) (Identifier "z" 1 14)
                                       1 14) 1 14) 1 1] 1 1)
    /\ parseSource "x = + y * z"
       = Ok (mkProgram
               [ExpressionStatement
                  (BinaryExpression "+" (Identifier "x" 1 1)
                     (BinaryExpression "*" (Identifier "y" 1 7) (Identifier "z" 1 11)
                                       1 11) 1 11) 1 1] 1 1)
    /\ parseSource "x JAMA y"
       = Ok (mkProgram [ExpressionStatement (Identifier "x" 1 1) 1 1;
                        ExpressionStatement (Identifier "y" 1 8) 1 8] 1 1)
    /\ parseSource "x + y"
       = Ok (mkProgram [ExpressionStatement (Identifier "x" 1 1) 1 1;
                        ExpressionStatement (Identifier "y" 1 5) 1 5] 1 1).
Proof.
  intros pre w rest c ln col Hc Hw Hrest.
  split; [|repeat match goal with |- _ /\ _ => split end;
           try match goal with |- _ = _ => vm_compute; reflexivity end].
  - assert (Hcw : allChars isIdentChar (String c w) = true).
    { cbn [allChars]. destruct (identStart_dispatch c Hc) as (_ & _ & _ & _ & _ & K).
      now rewrite K, Hw. }
    pose proof (identifier_stretch pre (String c w) rest ln col Hcw Hrest) as I.
    cbv zeta in I.
    eexists. eexists. split; [|split; [|split]].
    + rewrite (getNextToken_identifier pre rest w c ln col Hc). exact I.
    + rewrite iter_advance_position. reflexivity.
    + unfold Lexer.classify.
      destruct (includes KEYWORDS (toLowerCase (String c w)));
        [|destruct (includes OPERATORS (toLowerCase (String c w)))]; reflexivity.
    + unfold Lexer.classify.
      destruct (includes KEYWORDS (toLowerCase (String c w))) eqn:K;
        [|destruct (includes OPERATORS (toLowerCase (String c w))) eqn:O];
        repeat split; intros; try discriminate; reflexivity.
  - intros tokens fuel current next last left right o q t
           Hleft Ho Hop Hval Hright Hq Ht Hty.
    apply (ParserFacts.addition_builds_node tokens fuel current next last left right
                                            o q t); try assumption.
    destruct Hval as [-> | ->]; reflexivity.
  - intros tokens fuel current a o Ha Hleaf Ho Hop Hval.
    exists (leafOf a).
    assert (U : Parser.unary tokens (3 + fuel) current = Ok (leafOf a, S current)).
    { apply (ParserLevels.unary_leaf tokens fuel current a o); try assumption.
      rewrite Hop. discriminate. }
    split; [exact U|].
    change (4 + fuel) with (S (3 + fuel)). cbn [Parser.multiplication].
    unfold Parser.parseBinaryExpression, Parser.bind at 1. rewrite U.
    change (3 + fuel) with (S (2 + fuel)).
    apply (ParserFacts.parseBinaryLoop_drops_operator tokens _ _ (2 + fuel)
                                                      (S current) o);
      try assumption.
    destruct Hval as [-> | ->]; reflexivity.
  - exact OperatorNames.parse_swapped.
Qed.

(** The word JAMA between two operands, and the tokens of x = jama y. *)
Lemma keyword_recognition_case_insensitive_witness :
  (exists (tok : Token) (L' : Lexer.Lexer),
      Lexer.getNextToken (lexerAt ("1 " ++ String "J" "AMA" ++ " 2") (String.length "1 ") 1 3)
      = Ok (tok, L')
      /\ Lexer.position L' = String.length "1 " + String.length (String "J" "AMA")
      /\ column tok = 3
      /\ type tok = OPERATOR /\ value tok = "jama")
  /\ Parser.addition
       [mkToken IDENTIFIER "x" 1 1; mkToken OPERATOR "=" 1 3;
        mkToken OPERATOR "jama" 1 5; mkToken IDENTIFIER "y" 1 10; mkToken EOF "" 1 11]
       (3 + 2) 0
     = Ok (BinaryExpression "jama" (Identifier "x" 1 1) (Identifier "y" 1 10) 1 10, 4)
  /\ Parser.addition
       [mkToken IDENTIFIER "x" 1 1; mkToken OPERATOR "=" 1 3;
        mkToken OPERATOR "+" 1 5; mkToken IDENTIFIER "y" 1 7; mkToken EOF "" 1 8]
       (3 + 2) 0
     = Ok (BinaryExpression "+" (Identifier "x" 1 1) (Identifier "y" 1 7) 1 7, 4)
  /\ Parser.multiplication
       [mkToken IDENTIFIER "x" 1 1; mkToken OPERATOR "jama" 1 3;
        mkToken IDENTIFIER "y" 1 8; mkToken EOF "" 1 9] (4 + 0) 0
     = Ok (Identifier "x" 1 1, 2)
  /\ parse (map swapToken
              [mkToken IDENTIFIER "x" 1 1; mkToken OPERATOR "=" 1 3;
               mkToken OPERATOR "jama" 1 5; mkToken IDENTIFIER "y" 1 10;
               mkToken EOF "" 1 11])
     = Ok (swapProgram
             (mkProgram
                [ExpressionStatement
                   (BinaryExpression "jama" (Identifier "x" 1 1) (Identifier "y" 1 10)
                                     1 10) 1 1] 1 1)).
Proof.
  destruct (keyword_recognition_case_insensitive "1 " "AMA" " 2" "J" 1 3
              eq_refl eq_refl eq_refl)
    as ((tok & L' & Hget & Hpos & Hcol & _ & Hop & _) & _ & _ & _ & _ & _ & _ & _
        & Hadd & Hmul & Hswap & _).
  split; [|split; [|split; [|split]]].
  - exists tok, L'. split; [exact Hget|]. split; [exact Hpos|]. split; [exact Hcol|].
    exact (Hop eq_refl eq_refl).
  - apply (Hadd [mkToken IDENTIFIER "x" 1 1; mkToken OPERATOR "=" 1 3;
                 mkToken OPERATOR "jama" 1 5; mkToken IDENTIFIER "y" 1 10;
                 mkToken EOF "" 1 11]
                2 0 2 3 (Identifier "x" 1 1) (Identifier "y" 1 10)
                (mkToken OPERATOR "jama" 1 5) (mkToken IDENTIFIER "y" 1 10)
                (mkToken EOF "" 1 11));
      try reflexivity; [now right | discriminate].
  - apply (Hadd [mkToken IDENTIFIER "x" 1 1; mkToken OPERATOR "=" 1 3;
                 mkToken OPERATOR "+" 1 5; mkToken IDENTIFIER "y" 1 7;
                 mkToken EOF "" 1 8]
                2 0 2 3 (Identifier "x" 1 1) (Identifier "y" 1 7)
                (mkToken OPERATOR "+" 1 5) (mkToken IDENTIFIER "y" 1 7)
                (mkToken EOF "" 1 8));
      try reflexivity; [now left | discriminate].
  - destruct (Hmul [mkToken IDENTIFIER "x" 1 1; mkToken OPERATOR "jama" 1 3;
                    mkToken IDENTIFIER "y" 1 8; mkToken EOF "" 1 9]
                   0 0 (mkToken IDENTIFIER "x" 1 1) (mkToken OPERATOR "jama" 1 3)
                   eq_refl eq_refl eq_refl eq_refl (or_intror eq_refl))
      as (operand & Hu & Hm).
    rewrite Hm. f_equal. f_equal.
    assert (E : Ok (operand, 1)
                = @Ok (Expression * nat) (Identifier "x" 1 1, 1))
      by (rewrite <- Hu; reflexivity).
    congruence.
  - exact (Hswap [mkToken IDENTIFIER "x" 1 1; mkToken OPERATOR "=" 1 3;
                  mkToken OPERATOR "jama" 1 5; mkToken IDENTIFIER "y" 1 10;
                  mkToken EOF "" 1 11]).
Defined.

End LexerClaims.

(** ** Reserved words *)

Module KeywordClaims.
Import LexerFacts LexerTheorems ParserFacts.

(** C10. All eleven keywords are reserved.  A lexeme whose lower-case
    text is in [KEYWORDS] is tokenized as a KEYWORD token with that
    lower-case text, wherever it stands.  And wherever [primary] is
    entered at a KEYWORD token whose value is neither rishtia nor ghalat,
    it throws the error "Unexpected token" with that token's value, line
    and column; when such a token that opens no statement either stands
    first in the token array, the whole parse throws that error. *)
Theorem keywords_reserved :
  forall (pre w rest : string) (c : ascii) (ln col : nat)
         (tokens after : list Token) (fuel current : nat) (t : Token),
    isIdentStart c = true ->
    allChars isIdentChar w = true ->
    startsWith isIdentChar rest = false ->
    includes KEYWORDS (toLowerCase (String c w)) = true ->
    nth_error tokens current = Some t ->
    type t = KEYWORD ->
    toLowerCase (value t) <> "rishtia" ->
    toLowerCase (value t) <> "ghalat" ->
    length KEYWORDS = 11
    /\ (exists L' : Lexer.Lexer,
           Lexer.getNextToken
             (lexerAt (pre ++ String c w ++ rest) (String.length pre) ln col)
           = Ok (mkToken KEYWORD (toLowerCase (String c w)) (Lexer.line L') col, L'))
    /\ Parser.primary tokens (S fuel) current = Throw (unexpectedToken t)
    /\ (includes ["opejana"; "ko"; "kala"; "che"; "raka"] (toLowerCase (value t)) = false ->
        parse (t :: after) = Throw (unexpectedToken t)).
Proof.
  intros pre w rest c ln col tokens after fuel current t
         Hc Hw Hrest Hk Hnth Hty Ht Hf.
  split; [reflexivity|]. split; [|split].
  - assert (Hcw : allChars isIdentChar (String c w) = true).
    { cbn [allChars]. destruct (identStart_dispatch c Hc) as (_ & _ & _ & _ & _ & K).
      now rewrite K, Hw. }
    pose proof (identifier_stretch pre (String c w) rest ln col Hcw Hrest) as I.
    cbv zeta in I. unfold Lexer.classify in I. rewrite Hk in I.
    eexists. rewrite (getNextToken_identifier pre rest w c ln col Hc). exact I.
  - exact (primary_keyword tokens fuel current t Hnth Hty Ht Hf).
  - intros Hs. apply parse_keyword; [exact Hty|].
    apply String.eqb_neq in Ht, Hf.
    unfold includes in *. cbn [existsb] in *.
    repeat (apply orb_false_iff in Hs; destruct Hs as [? Hs]).
    repeat (apply orb_false_iff; split); assumption.
Qed.

(** The word OLIKA in a text, and the token of olika before a call. *)
Lemma keywords_reserved_witness :
  length KEYWORDS = 11
  /\ (exists L' : Lexer.Lexer,
         Lexer.getNextToken
           (lexerAt ("x = " ++ String "O" "LIKA" ++ "(1)") (String.length "x = ") 1 5)
         = Ok (mkToken KEYWORD (toLowerCase (String "O" "LIKA")) (Lexer.line L') 5, L'))
  /\ Parser.primary [mkToken KEYWORD "olika" 1 1; mkToken PUNCTUATION "(" 1 6;
                     mkToken PUNCTUATION ")" 1 7; mkToken EOF "" 1 8] (S 0) 0
     = Throw (unexpectedToken (mkToken KEYWORD "olika" 1 1))
  /\ (includes ["opejana"; "ko"; "kala"; "che"; "raka"]
               (toLowerCase (value (mkToken KEYWORD "olika" 1 1))) = false ->
      parse [mkToken KEYWORD "olika" 1 1; mkToken PUNCTUATION "(" 1 6;
             mkToken PUNCTUATION ")" 1 7; mkToken EOF "" 1 8]
      = Throw (unexpectedToken (mkToken KEYWORD "olika" 1 1))).
Proof.
  apply (keywords_reserved "x = " "LIKA" "(1)" "O" 1 5
           [mkToken KEYWORD "olika" 1 1; mkToken PUNCTUATION "(" 1 6;
            mkToken PUNCTUATION ")" 1 7; mkToken EOF "" 1 8]
           [mkToken PUNCTUATION "(" 1 6; mkToken PUNCTUATION ")" 1 7;
            mkToken EOF "" 1 8]
           0 0 (mkToken KEYWORD "olika" 1 1));
    try reflexivity; simpl; discriminate.
Defined.

End KeywordClaims.

(** ** The parser on the programs of the documentation *)

Module ParserClaims.

Local Open Scope Q_scope.

(** C1. Operator precedence.  The additive operator of [5 + 3] is
    consumed at the multiplicative level, which then drops it: the parse
    is two expression statements, 5 and 3, and no binary node.  Likewise
    [1 + 2 * 3] gives the statements 1 and 2 * 3, and [x == y + z] the
    statements x, y and z.  Only a multiplicative operator, tried first,
    builds its node. *)
Theorem additive_operator_dropped :
  parseSource "5 + 3"
  = Ok (mkProgram
          [ExpressionStatement (NumericLiteral (Finite (5 # 1)) 1 1) 1 1;
           ExpressionStatement (NumericLiteral (Finite (3 # 1)) 1 5) 1 5] 1 1)
  /\ parseSource "1 + 2 * 3"
     = Ok (mkProgram
             [ExpressionStatement (NumericLiteral (Finite (1 # 1)) 1 1) 1 1;
              ExpressionStatement
                (BinaryExpression "*" (NumericLiteral (Finite (2 # 1)) 1 5)
                                  (NumericLiteral (Finite (3 # 1)) 1 9) 1 9) 1 5] 1 1)
  /\ parseSource "x == y + z"
     = Ok (mkProgram
             [ExpressionStatement (Identifier "x" 1 1) 1 1;
              ExpressionStatement (Identifier "y" 1 6) 1 6;
              ExpressionStatement (Identifier "z" 1 10) 1 10] 1 1)
  /\ parseSource "2 * 3"
     = Ok (mkProgram
             [ExpressionStatement
                (BinaryExpression "*" (NumericLiteral (Finite (2 # 1)) 1 1)
                                  (NumericLiteral (Finite (3 # 1)) 1 5) 1 5) 1 1] 1 1).
Proof. repeat split; vm_compute; reflexivity. Qed.

(** C2. Running [olika("Salam" _ "Ji")].  The lexer makes olika a
    KEYWORD token, [primary] has no case for it, and the run ends, for
    any evaluator, with an empty output and the parser's error. *)
Theorem run_olika_is_a_syntax_error :
  forall interpret : Program -> Result RunOutcome,
    runPashtoPlusPlus interpret olikaSalamJi
    = Ok (mkRunOutcome ""
            (Some (Error "Unexpected token 'olika' at line 1, column 1"))).
Proof. intros interpret. vm_compute. reflexivity. Qed.

(** C3. Function declarations with parameters.  The closing parenthesis
    after the last parameter is consumed by the loop that looks for a
    comma, so the two [consume] calls that follow take the brace and
    then want one more punctuation token: [opejana jor(a, b) { raka a + b }]
    is rejected at raka, and [opejana f(a) { }] at the end of input.
    Without parameters the declaration parses. *)
Theorem function_with_parameters_rejected :
  parseSource "opejana jor(a, b) { raka a + b }"
  = Throw (Error "{ at line 1, column 21")
  /\ parseSource "opejana f(a) { }" = Throw (Error "} at line 1, column 17")
  /\ parseSource "opejana f() { }"
     = Ok (mkProgram [FunctionDeclaration "f" [] (BlockStatement [] 1 13) 1 1] 1 1).
Proof. repeat split; vm_compute; reflexivity. Qed.

(** C4. Assignment.  The operator [=] after an operand is consumed at
    the multiplicative level before [assignment] can see it: [x = 5]
    parses to the two statements x and 5 with no assignment node,
    [x = y = 5] to three statements, and [5 = 3] parses without error. *)
Theorem assignment_operator_dropped :
  parseSource "x = 5"
  = Ok (mkProgram
          [ExpressionStatement (Identifier "x" 1 1) 1 1;
           ExpressionStatement (NumericLiteral (Finite (5 # 1)) 1 5) 1 5] 1 1)
  /\ parseSource "x = y = 5"
     = Ok (mkProgram
             [ExpressionStatement (Identifier "x" 1 1) 1 1;
              ExpressionStatement (Identifier "y" 1 5) 1 5;
              ExpressionStatement (NumericLiteral (Finite (5 # 1)) 1 9) 1 9] 1 1)
  /\ parseSource "5 = 3"
     = Ok (mkProgram
             [ExpressionStatement (NumericLiteral (Finite (5 # 1)) 1 1) 1 1;
              ExpressionStatement (NumericLiteral (Finite (3 # 1)) 1 5) 1 5] 1 1).
Proof. repeat split; vm_compute; reflexivity. Qed.

(** C5. The trailing semicolon.  The test for an optional semicolon
    consumes whatever punctuation comes next, so without a semicolon the
    closing brace of the block is lost: [opejana f() { raka }] is
    rejected while [opejana f() { raka; }] parses, and [ko (rishtia) { 5 }]
    and the bare block [{ 5 }] are rejected. *)
Theorem trailing_semicolon_decides :
  parseSource "opejana f() { raka }" = Throw (Error "} at line 1, column 21")
  /\ parseSource "opejana f() { raka; }"
     = Ok (mkProgram
             [FunctionDeclaration "f" []
                (BlockStatement [ReturnStatement None 1 15] 1 13) 1 1] 1 1)
  /\ parseSource "ko (rishtia) { 5 }" = Throw (Error "{ at line 1, column 16")
  /\ parseSource "{ 5 }" = Throw (Error "} at line 1, column 6").
Proof. repeat split; vm_compute; reflexivity. Qed.

(** C6. Required punctuation.  [consume] compares the token type only,
    so any punctuation passes where a particular one is required:
    [opejana f() [ }] parses to the declaration that [opejana f() { }]
    gives.  The text [ko (rishtia] { }] is rejected, but with the error
    of the well-formed [ko (rishtia) { }], at the end of input (column
    17) and not at the bracket (column 12); [ko (rishtia]] { }] parses. *)
Theorem wrong_punctuation_accepted :
  parseSource "opejana f() [ }"
  = Ok (mkProgram [FunctionDeclaration "f" [] (BlockStatement [] 1 13) 1 1] 1 1)
  /\ parseSource "opejana f() [ }" = parseSource "opejana f() { }"
  /\ parseSource "ko (rishtia] { }" = Throw (Error "} at line 1, column 17")
  /\ parseSource "ko (rishtia) { }" = Throw (Error "} at line 1, column 17")
  /\ parseSource "ko (rishtia]] { }"
     = Ok (mkProgram
             [IfStatement (BooleanLiteral true 1 5) (BlockStatement [] 1 15)
                          None 1 1] 1 1).
Proof. repeat split; vm_compute; reflexivity. Qed.

(** C7. Lines and columns.  On one line the columns are right: [5 + 3]
    gives tokens at columns 1, 3, 5 and the end of input at 6.  Across a
    line feed they are not: in the text of a, a line feed and b, the
    token a, which ends just before the line feed, reports line 2, and
    b, the first token of line 2, reports column 2. *)
Theorem position_wrong_across_newline :
  tokenize "5 + 3"
  = Ok [mkToken NUMBER "5" 1 1; mkToken OPERATOR "+" 1 3;
        mkToken NUMBER "3" 1 5; mkToken EOF "" 1 6]
  /\ tokenize twoLines
     = Ok [mkToken IDENTIFIER "a" 2 1; mkToken IDENTIFIER "b" 2 2;
           mkToken EOF "" 2 3].
Proof. repeat split; vm_compute; reflexivity. Qed.

End ParserClaims.

(** ** The lexer: counters, termination, shape of the token list *)

Module LexerProgress.
Import Lexer LexerFacts.

Lemma substring_snoc (s : string) :
  forall p n : nat,
    substring p (S n) s
    = (substring p n s
       ++ match String.get (p + n) s with Some c => str c | None => "" end)%string.
Proof.
  induction s as [|x s IH]; intros p n.
  - destruct p, n; reflexivity.
  - destruct p as [|p].
    + destruct n as [|n].
      * cbn. destruct s; reflexivity.
      * cbn [substring Nat.add String.get]. cbn [append]. f_equal.
        exact (IH 0 n).
    + cbn [substring Nat.add String.get]. exact (IH p n).
Qed.

Lemma substring_zero (s : string) : forall p : nat, substring p 0 s = ""%string.
Proof. induction s as [|x s IH]; intros [|p]; simpl; auto. Qed.

Lemma newlinesIn_app (a b : string) :
  newlinesIn (a ++ b) = newlinesIn a + newlinesIn b.
Proof. induction a as [|x a IH]; simpl; [reflexivity | rewrite IH; lia]. Qed.

Lemma line_advance (L : Lexer) :
  Lexer.line (advance L)
  = Lexer.line L
    + newlinesIn match String.get (S (position L)) (code L) with
                 | Some c => str c
                 | None => ""
                 end.
Proof.
  unfold advance.
  destruct (Nat.leb_spec (String.length (code L)) (S (position L))) as [Hle|_].
  - rewrite (get_beyond _ _ Hle). simpl. lia.
  - destruct (String.get (S (position L)) (code L)) as [[[] [] [] [] [] [] [] []]|];
      simpl; lia.
Qed.

(** The line counter after [n] steps: the line feeds stepped onto. *)
Lemma line_iter_advance (n : nat) (L : Lexer) :
  Lexer.line (Nat.iter n advance L)
  = Lexer.line L + newlinesIn (substring (S (position L)) n (code L)).
Proof.
  induction n as [|n IH].
  - rewrite substring_zero. simpl. lia.
  - rewrite Nat.iter_succ, line_advance, IH, iter_advance_code, iter_advance_position.
    rewrite substring_snoc, newlinesIn_app. cbn [Nat.add]. lia.
Qed.

Lemma column_advance (L : Lexer) :
  newlinesIn match String.get (S (position L)) (code L) with
             | Some c => str c
             | None => ""
             end = 0 ->
  Lexer.column (advance L) = S (Lexer.column L).
Proof.
  unfold advance.
  destruct (Nat.leb_spec (String.length (code L)) (S (position L))) as [Hle|_];
    [reflexivity|].
  destruct (String.get (S (position L)) (code L)) as [[[] [] [] [] [] [] [] []]|];
    simpl; intros H; try reflexivity; discriminate.
Qed.

(** Without a line feed on the way the column counter is an offset. *)
Lemma column_iter_advance (n : nat) (L : Lexer) :
  newlinesIn (substring (S (position L)) n (code L)) = 0 ->
  Lexer.column (Nat.iter n advance L) = Lexer.column L + n.
Proof.
  induction n as [|n IH]; intros H.
  - simpl. lia.
  - rewrite substring_snoc, newlinesIn_app in H.
    rewrite Nat.iter_succ, column_advance.
    + rewrite IH by lia. lia.
    + rewrite iter_advance_code, iter_advance_position. cbn [Nat.add] in H. lia.
Qed.

End LexerProgress.

Module LexerTermination.
Import Lexer LexerFacts.

Lemma current_in_range (L : Lexer) (c : ascii) :
  consistent L -> currentChar L = Some c -> position L < String.length (code L).
Proof.
  intros HL Hc. destruct (Nat.lt_ge_cases (position L) (String.length (code L)))
    as [Hlt|Hge]; [exact Hlt|].
  rewrite HL, (get_beyond _ _ Hge) in Hc. discriminate.
Qed.

(** A reading loop ends within its fuel, on a consistent state of the
    same text, not before where it began and behind it when its first
    character is accepted. *)
Lemma readWhile_total (p : ascii -> bool) (fuel : nat) :
  forall (result : string) (L : Lexer),
    consistent L ->
    remaining L < fuel ->
    exists (r : string) (L' : Lexer),
      readWhile p fuel result L = Ok (r, L')
      /\ consistent L' /\ code L' = code L /\ position L <= position L'
      /\ (forall c, currentChar L = Some c -> p c = true -> position L < position L').
Proof.
  induction fuel as [|fuel IH]; intros result L HL Hfuel; unfold remaining in *; [lia|].
  cbn [readWhile]. destruct (currentChar L) as [c|] eqn:Hc.
  - destruct (p c) eqn:Hp.
    + pose proof (current_in_range L c HL Hc) as Hin.
      destruct (IH (result ++ str c)%string (advance L)) as (r & L' & E & C & K & P & _).
      * apply advance_consistent.
      * rewrite advance_code, advance_position. lia.
      * exists r, L'. rewrite advance_code, advance_position in *.
        split; [assumption|]. split; [assumption|]. split; [assumption|].
        split; [lia | intros; lia].
    + exists result, L. split; [reflexivity|]. split; [assumption|].
      split; [reflexivity|]. split; [lia|]. intros c' Hc' Hp'. congruence.
  - exists result, L. split; [reflexivity|]. split; [assumption|].
    split; [reflexivity|]. split; [lia|]. intros; discriminate.
Qed.

Lemma skipWhile_total (p : ascii -> bool) (fuel : nat) :
  forall L : Lexer,
    consistent L ->
    remaining L < fuel ->
    exists L' : Lexer,
      skipWhile p fuel L = Ok L'
      /\ consistent L' /\ code L' = code L /\ position L <= position L'
      /\ (forall c, currentChar L = Some c -> p c = true -> position L < position L').
Proof.
  induction fuel as [|fuel IH]; intros L HL Hfuel; unfold remaining in *; [lia|].
  cbn [skipWhile]. destruct (currentChar L) as [c|] eqn:Hc.
  - destruct (p c) eqn:Hp.
    + pose proof (current_in_range L c HL Hc) as Hin.
      destruct (IH (advance L)) as (L' & E & C & K & P & _).
      * apply advance_consistent.
      * rewrite advance_code, advance_position. lia.
      * exists L'. rewrite advance_code, advance_position in *.
        split; [assumption|]. split; [assumption|]. split; [assumption|].
        split; [lia | intros; lia].
    + exists L. split; [reflexivity|]. split; [assumption|].
      split; [reflexivity|]. split; [lia|]. intros c' Hc' Hp'. congruence.
  - exists L. split; [reflexivity|]. split; [assumption|].
    split; [reflexivity|]. split; [lia|]. intros; discriminate.
Qed.

Lemma fuel_enough (L : Lexer) : remaining L < loopFuel L.
Proof. unfold loopFuel, remaining. lia. Qed.

Lemma number_step (L : Lexer) (c : ascii) :
  consistent L -> currentChar L = Some c -> isDigit c = true ->
  stepOk L (number L).
Proof.
  intros HL Hc Hd. unfold number.
  destruct (readWhile_total isDigit (loopFuel L) "" L HL (fuel_enough L))
    as (r & L1 & E & C1 & K1 & P1 & Q1).
  rewrite E. specialize (Q1 c Hc Hd).
  destruct (isChar "." (currentChar L1)).
  - destruct (readWhile_total isDigit (loopFuel L) (r ++ ".") (advance L1))
      as (r2 & L2 & E2 & C2 & K2 & P2 & _).
    + apply advance_consistent.
    + unfold remaining. rewrite advance_code, K1. unfold loopFuel. lia.
    + rewrite E2. rewrite advance_code, advance_position in *.
      cbn. repeat split; try assumption; try congruence; try lia.
  - cbn. repeat split; try assumption; try congruence.
Qed.

Lemma string_step (L : Lexer) : consistent L -> stepOk L (string_ L).
Proof.
  intros HL. unfold string_.
  destruct (readWhile_total
              (fun c => negb (optChar_eqb (Some c) (currentChar L)))
              (loopFuel L) "" (advance L))
    as (r & L1 & E & C1 & K1 & P1 & _).
  - apply advance_consistent.
  - unfold remaining. rewrite advance_code. unfold loopFuel. lia.
  - rewrite E. rewrite advance_code, advance_position in *.
    destruct (optChar_eqb (currentChar L1) (currentChar L)); cbn; [|exact I].
    rewrite advance_code, advance_position.
    repeat split; try assumption; try lia; try congruence.
    apply advance_consistent.
Qed.

Lemma classify_type (w : string) (ln col : nat) : type (classify w ln col) <> EOF.
Proof.
  unfold classify. destruct (includes KEYWORDS (toLowerCase w));
    [|destruct (includes OPERATORS (toLowerCase w))]; discriminate.
Qed.

Lemma identifier_step (L : Lexer) (c : ascii) :
  consistent L -> currentChar L = Some c -> isIdentChar c = true ->
  stepOk L (identifier L).
Proof.
  intros HL Hc Hi. unfold identifier.
  destruct (readWhile_total isIdentChar (loopFuel L) "" L HL (fuel_enough L))
    as (r & L1 & E & C1 & K1 & P1 & Q1).
  rewrite E. specialize (Q1 c Hc Hi). cbn.
  repeat split; try assumption. apply classify_type.
Qed.

Lemma operator_step (L : Lexer) (c : ascii) :
  consistent L -> currentChar L = Some c -> stepOk L (operator L).
Proof.
  intros HL Hc. unfold operator. rewrite Hc.
  destruct ((Ascii.eqb c "=" || Ascii.eqb c "!" || Ascii.eqb c ">" || Ascii.eqb c "<")
            && isChar "=" (currentChar (advance L))); cbn;
    rewrite ?advance_code, ?advance_position;
    repeat split; try apply advance_consistent; try lia; discriminate.
Qed.

Lemma stepOk_loopOk (L : Lexer) (r : Result (Token * Lexer)) :
  stepOk L r -> loopOk L r.
Proof.
  destruct r as [[t L']|[m|]|]; cbn; try tauto.
  intros (C & K & P & T).
  split; [assumption|]. split; [assumption|]. split; [lia|].
  split; [intros; assumption | intros; contradiction].
Qed.

Lemma loopOk_after (L L1 : Lexer) (r : Result (Token * Lexer)) :
  code L1 = code L -> position L < position L1 ->
  loopOk L1 r -> loopOk L r.
Proof.
  intros K P. destruct r as [[t L']|[m|]|]; cbn; try tauto.
  intros (C & K' & P' & T & Z).
  split; [assumption|]. split; [congruence|]. split; [lia|].
  split; [intros; lia | exact Z].
Qed.

Lemma skipWhitespace_step (L : Lexer) (c : ascii) :
  consistent L -> currentChar L = Some c -> isSpace c = true ->
  exists L1, skipWhitespace L = Ok L1 /\ consistent L1 /\ code L1 = code L
             /\ position L < position L1.
Proof.
  intros HL Hc Hs. unfold skipWhitespace.
  destruct (skipWhile_total isSpace (loopFuel L) L HL (fuel_enough L))
    as (L1 & E & C & K & _ & Q).
  exists L1. repeat split; try assumption. exact (Q c Hc Hs).
Qed.

Lemma skipComment_step (L : Lexer) (c : ascii) :
  consistent L -> currentChar L = Some c ->
  (Ascii.eqb c "/" && isChar "/" (peek L)) = true ->
  exists L1, skipComment L = Ok L1 /\ consistent L1 /\ code L1 = code L
             /\ position L < position L1.
Proof.
  intros HL Hc Hs. unfold skipComment. rewrite Hc. cbn [isChar]. rewrite Hs.
  destruct (skipWhile_total (fun c => negb (Ascii.eqb c newline)) (loopFuel L) L HL
                            (fuel_enough L))
    as (L1 & E & C & K & P & Q).
  rewrite E.
  assert (Hn : negb (Ascii.eqb c newline) = true).
  { apply andb_true_iff in Hs as [Hs _]. apply Ascii.eqb_eq in Hs. subst c.
    reflexivity. }
  specialize (Q c Hc Hn).
  destruct (isChar newline (currentChar L1)).
  - exists (advance L1). rewrite advance_code, advance_position.
    repeat split; try assumption; try lia. apply advance_consistent.
  - exists L1. repeat split; assumption.
Qed.

Lemma getNextToken_loop_ok (fuel : nat) :
  forall L : Lexer,
    consistent L -> remaining L < fuel -> loopOk L (getNextToken_loop fuel L).
Proof.
  induction fuel as [|fuel IH]; intros L HL Hfuel; unfold remaining in *; [lia|].
  cbn [getNextToken_loop]. destruct (currentChar L) as [c|] eqn:Hc.
  2:{ cbn. split; [assumption|]. split; [reflexivity|]. split; [lia|].
      split; [intros H; now elim H | intros; split; [reflexivity | assumption]]. }
  pose proof (current_in_range L c HL Hc) as Hin.
  destruct (isSpace c) eqn:Hs.
  { destruct (skipWhitespace_step L c HL Hc Hs) as (L1 & E & C & K & P).
    rewrite E. apply (loopOk_after L L1); try assumption.
    apply IH; [assumption | rewrite K; lia]. }
  destruct (Ascii.eqb c "/" && isChar "/" (peek L)) eqn:Hcm.
  { destruct (skipComment_step L c HL Hc Hcm) as (L1 & E & C & K & P).
    rewrite E. apply (loopOk_after L L1); try assumption.
    apply IH; [assumption | rewrite K; lia]. }
  destruct (isDigit c) eqn:Hd.
  { apply stepOk_loopOk. exact (number_step L c HL Hc Hd). }
  destruct (Ascii.eqb c dquote || Ascii.eqb c squote).
  { apply stepOk_loopOk. exact (string_step L HL). }
  destruct (isIdentStart c) eqn:Hi.
  { apply stepOk_loopOk. apply (identifier_step L c HL Hc).
    unfold isIdentChar. now rewrite Hi. }
  destruct (includes OPERATORS (str c) || Ascii.eqb c "=" || Ascii.eqb c "!"
            || Ascii.eqb c ">" || Ascii.eqb c "<").
  { apply stepOk_loopOk. exact (operator_step L c HL Hc). }
  destruct (isPunctuation c); [|exact I].
  cbn. rewrite advance_code, advance_position.
  split; [apply advance_consistent|]. split; [reflexivity|]. split; [lia|].
  split; [intros; lia | intros; discriminate].
Qed.

Lemma getNextToken_ok (L : Lexer) : consistent L -> loopOk L (getNextToken L).
Proof. intros HL. apply getNextToken_loop_ok; [assumption | apply fuel_enough]. Qed.

(** The fuel of the loop of [getNextToken] does not matter once it
    covers the characters left. *)
Lemma getNextToken_loop_fuel (fuel1 : nat) :
  forall (fuel2 : nat) (L : Lexer),
    consistent L -> remaining L < fuel1 -> remaining L < fuel2 ->
    getNextToken_loop fuel1 L = getNextToken_loop fuel2 L.
Proof.
  induction fuel1 as [|fuel1 IH]; intros fuel2 L HL H1 H2; unfold remaining in *; [lia|].
  destruct fuel2 as [|fuel2]; [lia|].
  cbn [getNextToken_loop]. destruct (currentChar L) as [c|] eqn:Hc; [|reflexivity].
  pose proof (current_in_range L c HL Hc) as Hin.
  destruct (isSpace c) eqn:Hs.
  { destruct (skipWhitespace_step L c HL Hc Hs) as (L1 & E & C & K & P).
    rewrite E. apply IH; [assumption | rewrite K; lia | rewrite K; lia]. }
  destruct (Ascii.eqb c "/" && isChar "/" (peek L)) eqn:Hcm; [|reflexivity].
  destruct (skipComment_step L c HL Hc Hcm) as (L1 & E & C & K & P).
  rewrite E. apply IH; [assumption | rewrite K; lia | rewrite K; lia].
Qed.

Lemma tokenize_loop_ok (fuel : nat) :
  forall (acc : list Token) (L : Lexer),
    consistent L -> remaining L < fuel ->
    Forall (fun t => type t <> EOF) acc ->
    (exists (init : list Token) (eof : Token),
        tokenize_loop fuel acc L = Ok (init ++ [eof])%list
        /\ Forall (fun t => type t <> EOF) init
        /\ type eof = EOF /\ value eof = ""%string)
    \/ (exists message : string, tokenize_loop fuel acc L = Throw (Error message)).
Proof.
  induction fuel as [|fuel IH]; intros acc L HL Hfuel Hacc; unfold remaining in *; [lia|].
  cbn [tokenize_loop]. pose proof (getNextToken_ok L HL) as G.
  assert (Hin : forall t L1, getNextToken L = Ok (t, L1) -> type t <> EOF ->
                             position L < String.length (code L)).
  { intros t L1 E Hne. destruct (currentChar L) as [c|] eqn:Hc.
    - exact (current_in_range L c HL Hc).
    - unfold getNextToken, loopFuel in E. cbn [Nat.add getNextToken_loop] in E.
      rewrite Hc in E. injection E as <- _. now elim Hne. }
  destruct (getNextToken L) as [[t L1]|[m|]|]; cbn in G; try contradiction.
  - destruct G as (C & K & P & T & Z).
    destruct (TokenType_eqb (type t) EOF) eqn:Et.
    + left. exists acc, t. 
      assert (type t = EOF) by (destruct (type t); try discriminate; reflexivity).
      split; [reflexivity|]. split; [assumption|]. split; [assumption|].
      apply Z; assumption.
    + assert (Hne : type t <> EOF) by (intros Q; rewrite Q in Et; discriminate).
      specialize (T Hne). specialize (Hin t L1 eq_refl Hne).
      apply IH; [assumption | rewrite K; lia |].
      apply Forall_app. split; [assumption | constructor; [assumption | constructor]].
  - right. exists m. reflexivity.
Qed.

End LexerTermination.

Module LexerStretches.
Import Lexer LexerFacts LexerProgress LexerTermination.

Lemma iter_advance_consistent (n : nat) (L : Lexer) :
  consistent L -> consistent (Nat.iter n advance L).
Proof.
  destruct n as [|n]; intros HL; [exact HL|].
  rewrite Nat.iter_succ. apply advance_consistent.
Qed.

Lemma currentChar_lexerAt (pre rest : string) (c : ascii) (ln col : nat) :
  currentChar (lexerAt (pre ++ String c rest) (String.length pre) ln col) = Some c.
Proof. cbn [currentChar lexerAt]. now rewrite get_after. Qed.

Lemma currentChar_lexerAt_end (pre : string) (ln col : nat) :
  currentChar (lexerAt pre (String.length pre) ln col) = None.
Proof. cbn [currentChar lexerAt]. apply get_beyond. lia. Qed.

(** The character [n] steps on. *)
Lemma currentChar_iter (n : nat) (pre w rest : string) (ln col : nat) :
  n = String.length w ->
  currentChar (Nat.iter n advance
                 (lexerAt (pre ++ w ++ rest) (String.length pre) ln col))
  = String.get 0 rest.
Proof.
  intros ->.
  rewrite (iter_advance_consistent _ _ (eq_refl : consistent (lexerAt _ _ _ _))).
  rewrite iter_advance_code, iter_advance_position. cbn [code position lexerAt].
  rewrite <- sapp_assoc, <- slength_app. apply get_after.
Qed.

(** A skipping loop over a stretch accepted by [p]. *)
Lemma skipWhile_stretch (p : ascii -> bool) (w : string) :
  forall (pre rest : string) (L : Lexer) (fuel : nat),
    consistent L ->
    code L = (pre ++ w ++ rest)%string ->
    position L = String.length pre ->
    allChars p w = true ->
    startsWith p rest = false ->
    String.length w < fuel ->
    skipWhile p fuel L = Ok (Nat.iter (String.length w) advance L).
Proof.
  induction w as [|c w IH]; intros pre rest L fuel HL Hcode Hpos Hall Hrest Hfuel.
  - destruct fuel as [|fuel]; [simpl in Hfuel; lia|].
    simpl. rewrite HL, Hcode, Hpos, get_after. simpl.
    destruct rest as [|d rest]; simpl in *; [reflexivity | now rewrite Hrest].
  - destruct fuel as [|fuel]; [simpl in Hfuel; lia|].
    simpl in Hall. apply andb_true_iff in Hall as [Hc Hw].
    cbn [skipWhile]. rewrite HL, Hcode, Hpos, get_after. cbn [append String.get].
    rewrite Hc.
    rewrite (IH (pre ++ str c)%string rest).
    + cbn [String.length]. now rewrite Nat.iter_succ_r.
    + apply advance_consistent.
    + rewrite advance_code, Hcode, sapp_assoc. reflexivity.
    + rewrite advance_position, Hpos, slength_app. simpl. lia.
    + exact Hw.
    + exact Hrest.
    + simpl in Hfuel. lia.
Qed.

Lemma substring_after (pre s : string) (n : nat) :
  substring (String.length pre) n (pre ++ s) = substring 0 n s.
Proof. induction pre as [|x pre IH]; simpl; [reflexivity | exact IH]. Qed.

Lemma substring_prefix (w rest : string) :
  substring 0 (String.length w) (w ++ rest) = w.
Proof.
  induction w as [|x w IH]; simpl.
  - destruct rest; reflexivity.
  - now rewrite IH.
Qed.

(** The text stepped onto from the front of [w]: [w] but for its first
    character, and the character behind [w]. *)
Lemma substring_stepped (pre rest : string) (c : ascii) (w : string) :
  substring (S (String.length pre)) (String.length (String c w))
            (pre ++ String c w ++ rest)
  = (w ++ substring 0 1 rest)%string.
Proof.
  replace (S (String.length pre)) with (String.length (pre ++ str c)%string)
    by (rewrite slength_app; simpl; lia).
  replace (pre ++ String c w ++ rest)%string with ((pre ++ str c) ++ (w ++ rest))%string
    by (rewrite sapp_assoc; reflexivity).
  rewrite substring_after. cbn [String.length].
  clear. induction w as [|x w IH]; simpl.
  - destruct rest as [|d rest]; [reflexivity|]. simpl.
    destruct rest; reflexivity.
  - now rewrite IH.
Qed.

Lemma newlinesIn_free (p : ascii -> bool) (w : string) :
  p newline = false -> allChars p w = true -> newlinesIn w = 0.
Proof.
  intros Hp. induction w as [|x w IH]; simpl; [reflexivity|].
  intros H. apply andb_true_iff in H as [Hx Hw]. rewrite (IH Hw).
  destruct (Ascii.eqb_spec x newline) as [->|_]; [congruence | reflexivity].
Qed.

Lemma substring_all (w : string) : substring 0 (S (String.length w)) w = w.
Proof. induction w as [|x w IH]; [reflexivity|]. simpl in *. now rewrite IH. Qed.

(** The line reached at the end of a text read from its start. *)
Lemma line_at_end (c : ascii) (w : string) :
  Lexer.line (Nat.iter (S (String.length w)) advance (lexerAt (String c w) 0 1 1))
  = 1 + newlinesIn w.
Proof.
  rewrite line_iter_advance. cbn [Lexer.line position code lexerAt substring].
  now rewrite substring_all.
Qed.

End LexerStretches.

(** ** The lexer: further properties *)

Module LexerExtras.
Import LexerFacts LexerTheorems LexerProgress LexerTermination LexerStretches.

(** X1. [tokenize] ends on every text, with a token list or with an
    [Error]: its loops never run out of fuel and it never reads a
    property of [undefined].  A token list ends with the end-of-input
    token, whose value is the empty text, and holds no other token of
    that type. *)
Theorem tokenize_total :
  forall code : string,
    (exists (init : list Token) (eof : Token),
        tokenize code = Ok (init ++ [eof])%list
        /\ Forall (fun t => type t <> EOF) init
        /\ type eof = EOF /\ value eof = ""%string)
    \/ (exists message : string, tokenize code = Throw (Error message)).
Proof.
  intros code. unfold tokenize, Lexer.tokenize. rewrite new_lexerAt.
  apply tokenize_loop_ok.
  - reflexivity.
  - apply fuel_enough.
  - constructor.
Qed.

(** X2. The line counter.  After [n] steps from the start of a text the
    line is 1 plus the number of line feeds among the characters at the
    indices 1 to [n]: a line feed is counted when the lexer arrives at
    it, and one at index 0 is never counted. *)
Theorem line_counts_newlines_reached :
  forall (code : string) (n : nat),
    Lexer.line (Nat.iter n Lexer.advance (Lexer.new code))
    = 1 + newlinesIn (substring 1 n code).
Proof.
  intros code n. rewrite new_lexerAt, line_iter_advance. reflexivity.
Qed.

(** X3. The column counter.  While no line feed is reached, the column
    after [n] steps from the start is [1 + n], also past the end of the
    text. *)
Theorem column_is_offset_without_newline :
  forall (code : string) (n : nat),
    newlinesIn (substring 1 n code) = 0 ->
    Lexer.column (Nat.iter n Lexer.advance (Lexer.new code)) = 1 + n.
Proof.
  intros code n H. rewrite new_lexerAt, column_iter_advance; [reflexivity|].
  exact H.
Qed.

Lemma column_is_offset_without_newline_witness :
  Lexer.column (Nat.iter 7 Lexer.advance (Lexer.new "5 + 3")) = 1 + 7.
Proof.
  apply (column_is_offset_without_newline "5 + 3" 7). reflexivity.
Defined.

(** X4. Blanks before a token are skipped: where a stretch of blank
    characters stands, the next token is the one [getNextToken] gives
    behind the stretch. *)
Theorem whitespace_skipped :
  forall (pre ws rest : string) (c : ascii) (ln col : nat),
    isSpace c = true ->
    allChars isSpace ws = true ->
    startsWith isSpace rest = false ->
    Lexer.getNextToken
      (lexerAt (pre ++ String c ws ++ rest) (String.length pre) ln col)
    = Lexer.getNextToken
        (Nat.iter (String.length (String c ws)) Lexer.advance
           (lexerAt (pre ++ String c ws ++ rest) (String.length pre) ln col)).
Proof.
  intros pre ws rest c ln col Hc Hws Hrest.
  set (L := lexerAt (pre ++ String c ws ++ rest) (String.length pre) ln col).
  set (L1 := Nat.iter (String.length (String c ws)) Lexer.advance L).
  unfold Lexer.getNextToken at 1. unfold Lexer.loopFuel.
  change (2 + String.length (Lexer.code L)) with (S (S (String.length (Lexer.code L)))).
  remember (S (String.length (Lexer.code L))) as fuel eqn:Hfuel.
  cbn [Lexer.getNextToken_loop].
  assert (E : Lexer.currentChar L = Some c)
    by exact (currentChar_lexerAt pre (ws ++ rest) c ln col).
  rewrite E, Hc.
  unfold Lexer.skipWhitespace.
  rewrite (skipWhile_stretch isSpace (String c ws) pre rest L); try reflexivity.
  - fold L1. unfold Lexer.getNextToken.
    apply getNextToken_loop_fuel.
    + apply iter_advance_consistent. reflexivity.
    + subst fuel. unfold remaining, L1.
      rewrite iter_advance_code, iter_advance_position. lia.
    + apply fuel_enough.
  - cbn [allChars]. now rewrite Hc, Hws.
  - exact Hrest.
  - unfold Lexer.loopFuel, L. cbn [Lexer.code lexerAt]. rewrite !slength_app. lia.
Qed.

Lemma whitespace_skipped_witness :
  Lexer.getNextToken (lexerAt ("x" ++ String " " (" " ++ str newline) ++ "y")
                              (String.length "x") 1 2)
  = Lexer.getNextToken
      (Nat.iter (String.length (String " " (" " ++ str newline))) Lexer.advance
         (lexerAt ("x" ++ String " " (" " ++ str newline) ++ "y")
                  (String.length "x") 1 2)).
Proof.
  apply (whitespace_skipped "x" (" " ++ str newline) "y" " " 1 2); reflexivity.
Defined.

(** X5. An unterminated string.  Where a quote opens a literal and the
    text ends before the same quote comes again, [getNextToken] throws
    "Unterminated string" with the column of the opening quote and the
    line the lexer has reached at the end of the text (the line of the
    opening quote plus the line feeds inside). *)
Theorem unterminated_string :
  forall (pre s : string) (q : ascii) (ln col : nat),
    q = dquote \/ q = squote ->
    allChars (fun c => negb (Ascii.eqb c q)) s = true ->
    Lexer.getNextToken (lexerAt (pre ++ String q s) (String.length pre) ln col)
    = Throw (Error ("Unterminated string at line " ++ showNat (ln + newlinesIn s)
                    ++ ", column " ++ showNat col)).
Proof.
  intros pre s q ln col Hq Hs.
  set (L := lexerAt (pre ++ String q s) (String.length pre) ln col).
  pose proof (getNextToken_string pre s q ln col Hq) as G.
  cbv zeta in G. fold L in G. rewrite G. clear G.
  unfold Lexer.string_.
  assert (E : Lexer.currentChar L = Some q) by apply currentChar_lexerAt.
  rewrite E.
  rewrite (readWhile_stretch _ s (pre ++ str q) "" "" (Lexer.advance L)).
  - cbn [append].
    assert (Q : Lexer.currentChar (Nat.iter (String.length s) Lexer.advance
                                            (Lexer.advance L)) = None).
    { rewrite <- Nat.iter_succ_r.
      rewrite (iter_advance_consistent _ _ (eq_refl : consistent L)).
      rewrite iter_advance_code, iter_advance_position.
      apply get_beyond. cbn [Lexer.code Lexer.position L lexerAt].
      rewrite slength_app. simpl. lia. }
    rewrite Q. cbn [Lexer.optChar_eqb].
    rewrite <- Nat.iter_succ_r, line_iter_advance.
    cbn [Lexer.line Lexer.position Lexer.code L lexerAt].
    replace (S (String.length s)) with (String.length (String q s)) by reflexivity.
    pose proof (substring_stepped pre "" q s) as S1.
    assert (A : forall x : string, (x ++ "")%string = x)
      by (induction x as [|y x IH]; simpl; [reflexivity | now rewrite IH]).
    cbn [substring] in S1. rewrite !A in S1. rewrite S1. reflexivity.
  - apply advance_consistent.
  - rewrite advance_code. cbn [Lexer.code L lexerAt].
    rewrite sapp_assoc. cbn [append].
    assert (A : forall x : string, (x ++ "")%string = x)
      by (induction x as [|y x IH]; simpl; [reflexivity | now rewrite IH]).
    now rewrite A.
  - rewrite advance_position. cbn [Lexer.position L lexerAt].
    rewrite slength_app. simpl. lia.
  - exact Hs.
  - reflexivity.
  - unfold Lexer.loopFuel. cbn [Lexer.code L lexerAt]. rewrite slength_app. simpl. lia.
Qed.

Lemma unterminated_string_witness :
  Lexer.getNextToken
    (lexerAt ("x = " ++ String squote ("ab" ++ str newline ++ "c"))
             (String.length "x = ") 1 5)
  = Throw (Error ("Unterminated string at line "
                  ++ showNat (1 + newlinesIn ("ab" ++ str newline ++ "c"))
                  ++ ", column " ++ showNat 5)).
Proof.
  apply (unterminated_string "x = " ("ab" ++ str newline ++ "c") squote 1 5).
  - right; reflexivity.
  - reflexivity.
Defined.

(** X6. An unexpected character.  At a character that is no blank, digit,
    quote, letter, underscore, operator character or punctuation,
    [getNextToken] throws "Unexpected character" with that character and
    the line and column the lexer stands at. *)
Theorem unexpected_character :
  forall (pre rest : string) (c : ascii) (ln col : nat),
    startsToken c = false ->
    Lexer.getNextToken (lexerAt (pre ++ String c rest) (String.length pre) ln col)
    = Throw (Error ("Unexpected character '" ++ str c ++ "' at line "
                    ++ showNat ln ++ ", column " ++ showNat col)).
Proof.
  intros pre rest c ln col H.
  unfold Lexer.getNextToken, Lexer.loopFuel.
  change (2 + ?n) with (S (S n)).
  remember (S (String.length _)) as fuel eqn:Hfuel. clear Hfuel.
  cbn [Lexer.getNextToken_loop].
  rewrite currentChar_lexerAt.
  unfold startsToken in H.
  apply orb_false_iff in H as [H Hpunct].
  apply orb_false_iff in H as [H Hlt].
  apply orb_false_iff in H as [H Hgt].
  apply orb_false_iff in H as [H Hbang].
  apply orb_false_iff in H as [H Heq].
  apply orb_false_iff in H as [H Hop].
  apply orb_false_iff in H as [H Hident].
  apply orb_false_iff in H as [H Hsq].
  apply orb_false_iff in H as [H Hdq].
  apply orb_false_iff in H as [Hspace Hdigit].
  assert (Hslash : Ascii.eqb c "/" = false).
  { destruct (Ascii.eqb_spec c "/") as [->|_]; [discriminate Hop | reflexivity]. }
  rewrite Hspace, Hslash, Hdigit, Hdq, Hsq, Hident, Hop, Heq, Hbang, Hgt, Hlt, Hpunct.
  reflexivity.
Qed.

Lemma unexpected_character_witness :
  Lexer.getNextToken (lexerAt ("a " ++ String "#" " b") (String.length "a ") 1 3)
  = Throw (Error ("Unexpected character '" ++ str "#" ++ "' at line "
                  ++ showNat 1 ++ ", column " ++ showNat 3)).
Proof. apply (unexpected_character "a " " b" "#" 1 3). reflexivity. Defined.

End LexerExtras.

Module LexerExtras2.
Import LexerFacts LexerTheorems LexerProgress LexerTermination LexerStretches.

Lemma peek_lexerAt (pre rest : string) (c d : ascii) (ln col : nat) :
  Lexer.peek (lexerAt (pre ++ String c (String d rest)) (String.length pre) ln col)
  = Some d.
Proof.
  unfold Lexer.peek. cbn [Lexer.position Lexer.code lexerAt].
  destruct (Nat.leb_spec (String.length (pre ++ String c (String d rest)))
                         (String.length pre + 1)) as [Hle|_].
  - rewrite slength_app in Hle. simpl in Hle. lia.
  - replace (pre ++ String c (String d rest))%string
      with ((pre ++ str c) ++ String d rest)%string
      by (rewrite sapp_assoc; reflexivity).
    replace (String.length pre + 1) with (String.length (pre ++ str c)%string)
      by (rewrite slength_app; reflexivity).
    now rewrite get_after.
Qed.

Lemma peek_lexerAt_not (pre rest : string) (c d : ascii) (ln col : nat) :
  startsWith (Ascii.eqb d) rest = false ->
  Lexer.isChar d (Lexer.peek (lexerAt (pre ++ String c rest) (String.length pre) ln col))
  = false.
Proof.
  intros H. destruct rest as [|e rest].
  - unfold Lexer.peek. cbn [Lexer.position Lexer.code lexerAt].
    destruct (Nat.leb_spec (String.length (pre ++ String c "")) (String.length pre + 1))
      as [_|Hlt]; [reflexivity|].
    rewrite slength_app in Hlt. simpl in Hlt. lia.
  - rewrite peek_lexerAt. cbn [Lexer.isChar]. cbn [startsWith] in H.
    now rewrite Ascii.eqb_sym.
Qed.

Lemma digit_dispatch (c : ascii) :
  isDigit c = true -> isSpace c = false /\ Ascii.eqb c "/" = false.
Proof.
  destruct c as [[] [] [] [] [] [] [] []]; vm_compute; intros H; split; congruence.
Qed.

(** Entering the loop of [getNextToken] once. *)
Ltac enter_loop :=
  unfold Lexer.getNextToken at 1; unfold Lexer.loopFuel;
  change (2 + ?n) with (S (S n));
  let fuel := fresh "fuel" in
  let Hfuel := fresh "Hfuel" in
  remember (S (String.length _)) as fuel eqn:Hfuel;
  cbn [Lexer.getNextToken_loop].

Lemma sapp_nil_r (x : string) : (x ++ "")%string = x.
Proof. induction x as [|y x IH]; simpl; [reflexivity | now rewrite IH]. Qed.

(** X7. A comment gives no token.  From two slashes up to the next line
    feed everything is skipped, the line feed too, and the next token is
    the one found behind it; a comment that runs to the end of the text
    is followed by the end-of-input token, on the line of the comment. *)
Theorem comment_skipped :
  forall (pre s rest : string) (ln col : nat),
    allChars (fun c => negb (Ascii.eqb c newline)) s = true ->
    Lexer.getNextToken
      (lexerAt (pre ++ "//" ++ s ++ String newline rest) (String.length pre) ln col)
    = Lexer.getNextToken
        (Nat.iter (3 + String.length s) Lexer.advance
           (lexerAt (pre ++ "//" ++ s ++ String newline rest)
                    (String.length pre) ln col))
    /\ Lexer.getNextToken (lexerAt (pre ++ "//" ++ s) (String.length pre) ln col)
       = Ok (mkToken EOF "" ln (col + (2 + String.length s)),
             Nat.iter (2 + String.length s) Lexer.advance
               (lexerAt (pre ++ "//" ++ s) (String.length pre) ln col)).
Proof.
  intros pre s rest ln col Hs.
  assert (Hw : allChars (fun c => negb (Ascii.eqb c newline)) ("//" ++ s) = true)
    by (cbn; exact Hs).
  split.
  - set (L := lexerAt (pre ++ "//" ++ s ++ String newline rest) (String.length pre) ln col).
    enter_loop.
    assert (E : Lexer.currentChar L = Some "/"%char)
      by exact (currentChar_lexerAt pre _ "/" ln col).
    assert (P : Lexer.peek L = Some "/"%char)
      by exact (peek_lexerAt pre _ "/" "/" ln col).
    rewrite E. cbn [isSpace]. change (isSpace "/") with false. cbv iota.
    rewrite P. cbn [Ascii.eqb Bool.eqb Lexer.isChar andb]. cbv iota.
    unfold Lexer.skipComment. rewrite E, P.
    cbn [Ascii.eqb Bool.eqb Lexer.isChar andb]. cbv iota.
    rewrite (skipWhile_stretch _ ("//" ++ s) pre (String newline rest) L); try reflexivity.
    + assert (Q : Lexer.currentChar (Nat.iter (String.length ("//" ++ s)) Lexer.advance L)
                  = Some newline).
      { unfold L. replace (pre ++ "//" ++ s ++ String newline rest)%string
          with (pre ++ ("//" ++ s) ++ String newline rest)%string by reflexivity.
        rewrite currentChar_iter; reflexivity. }
      rewrite Q. cbn [Lexer.isChar]. rewrite Ascii.eqb_refl.
      rewrite <- Nat.iter_succ.
      change (S (String.length ("//" ++ s))) with (3 + String.length s).
      unfold Lexer.getNextToken. apply getNextToken_loop_fuel.
      * apply iter_advance_consistent. reflexivity.
      * subst fuel. unfold remaining.
        rewrite iter_advance_code, iter_advance_position. lia.
      * apply fuel_enough.
    + exact Hw.
    + unfold Lexer.loopFuel, L. cbn [Lexer.code lexerAt]. rewrite !slength_app.
      cbn [String.length]. rewrite ?slength_app. cbn [String.length]. lia.
  - set (L := lexerAt (pre ++ "//" ++ s) (String.length pre) ln col).
    enter_loop.
    assert (E : Lexer.currentChar L = Some "/"%char)
      by exact (currentChar_lexerAt pre _ "/" ln col).
    assert (P : Lexer.peek L = Some "/"%char)
      by exact (peek_lexerAt pre _ "/" "/" ln col).
    rewrite E. change (isSpace "/") with false. cbv iota.
    rewrite P. cbn [Ascii.eqb Bool.eqb Lexer.isChar andb]. cbv iota.
    unfold Lexer.skipComment. rewrite E, P.
    cbn [Ascii.eqb Bool.eqb Lexer.isChar andb]. cbv iota.
    rewrite (skipWhile_stretch _ ("//" ++ s) pre "" L); try reflexivity.
    + assert (Q : Lexer.currentChar (Nat.iter (String.length ("//" ++ s)) Lexer.advance L)
                  = None).
      { unfold L. replace (pre ++ "//" ++ s)%string
          with (pre ++ ("//" ++ s) ++ "")%string by (now rewrite sapp_nil_r).
        rewrite currentChar_iter; reflexivity. }
      rewrite Q. cbn [Lexer.isChar].
      change (String.length ("//" ++ s)) with (2 + String.length s) in *.
      subst fuel. cbn [Lexer.getNextToken_loop]. rewrite Q.
      rewrite line_iter_advance, column_iter_advance.
      * cbn [Lexer.line Lexer.column Lexer.position Lexer.code L lexerAt].
        pose proof (substring_stepped pre "" "/" (String "/" s)) as S1.
        cbn [String.length append] in S1. cbn [append].
        replace (String "/" (s ++ ""))%string with (String "/" s) in S1
          by (now rewrite sapp_nil_r).
        cbn [Nat.add]. rewrite S1. cbn [substring]. rewrite sapp_nil_r.
        assert (N : newlinesIn (String "/" s) = 0)
          by (apply (newlinesIn_free (fun c => negb (Ascii.eqb c newline)));
              [reflexivity | exact Hs]).
        rewrite N. rewrite Nat.add_0_r. reflexivity.
      * cbn [Lexer.position Lexer.code L lexerAt].
        pose proof (substring_stepped pre "" "/" (String "/" s)) as S1.
        cbn [String.length append] in S1. cbn [append].
        replace (String "/" (s ++ ""))%string with (String "/" s) in S1
          by (now rewrite sapp_nil_r).
        cbn [Nat.add]. rewrite S1. cbn [substring]. rewrite sapp_nil_r.
        apply (newlinesIn_free (fun c => negb (Ascii.eqb c newline)));
          [reflexivity | exact Hs].
    + unfold L. cbn [Lexer.code lexerAt]. now rewrite sapp_nil_r.
    + exact Hw.
    + unfold Lexer.loopFuel, L. cbn [Lexer.code lexerAt]. rewrite !slength_app.
      cbn [String.length]. lia.
Qed.

Lemma comment_skipped_witness :
  Lexer.getNextToken
    (lexerAt ("x " ++ "//" ++ " hi" ++ String newline "y") (String.length "x ") 1 3)
  = Lexer.getNextToken
      (Nat.iter (3 + String.length " hi") Lexer.advance
         (lexerAt ("x " ++ "//" ++ " hi" ++ String newline "y")
                  (String.length "x ") 1 3))
  /\ Lexer.getNextToken (lexerAt ("x " ++ "//" ++ " hi") (String.length "x ") 1 3)
     = Ok (mkToken EOF "" 1 (3 + (2 + String.length " hi")),
           Nat.iter (2 + String.length " hi") Lexer.advance
             (lexerAt ("x " ++ "//" ++ " hi") (String.length "x ") 1 3)).
Proof. apply (comment_skipped "x " " hi" "y" 1 3). reflexivity. Defined.

(** The loop of [getNextToken] at a stretch of digits. *)
Lemma getNextToken_digits :
  forall (pre d rest : string) (c : ascii) (ln col : nat),
    isDigit c = true ->
    allChars isDigit d = true ->
    startsWith (fun x => isDigit x || Ascii.eqb x ".") rest = false ->
    Lexer.getNextToken (lexerAt (pre ++ String c d ++ rest) (String.length pre) ln col)
    = Ok (mkToken NUMBER (String c d)
            (Lexer.line
               (Nat.iter (String.length (String c d)) Lexer.advance
                  (lexerAt (pre ++ String c d ++ rest) (String.length pre) ln col)))
            col,
          Nat.iter (String.length (String c d)) Lexer.advance
            (lexerAt (pre ++ String c d ++ rest) (String.length pre) ln col)).
Proof.
  intros pre d rest c ln col Hc Hd Hrest.
  set (L := lexerAt (pre ++ String c d ++ rest) (String.length pre) ln col).
  enter_loop.
  assert (E : Lexer.currentChar L = Some c)
    by exact (currentChar_lexerAt pre (d ++ rest) c ln col).
  destruct (digit_dispatch c Hc) as [H1 H2].
  rewrite E, H1, H2, Hc. cbn [andb]. cbv iota.
  unfold Lexer.number.
  assert (Hr : startsWith isDigit rest = false /\ startsWith (Ascii.eqb ".") rest = false).
  { destruct rest as [|x rest]; [split; reflexivity|]. cbn [startsWith] in *.
    apply orb_false_iff in Hrest as [A B]. split; [exact A|].
    now rewrite Ascii.eqb_sym. }
  destruct Hr as [Hr1 Hr2].
  rewrite (readWhile_stretch isDigit (String c d) pre rest "" L); try reflexivity.
  - assert (Q : Lexer.isChar "." (Lexer.currentChar
                    (Nat.iter (String.length (String c d)) Lexer.advance L)) = false).
    { unfold L. rewrite currentChar_iter by reflexivity.
      destruct rest as [|x rest]; [reflexivity|]. cbn [String.get Lexer.isChar].
      cbn [startsWith] in Hr2. now rewrite Ascii.eqb_sym. }
    rewrite Q. reflexivity.
  - cbn [allChars]. now rewrite Hc, Hd.
  - exact Hr1.
  - unfold Lexer.loopFuel, L. cbn [Lexer.code lexerAt]. rewrite !slength_app. lia.
Qed.

(** X8. An integer lexeme.  A stretch of digits followed by something
    that is neither a digit nor a point is one NUMBER token holding the
    digits, at the column of the first digit. *)
Theorem number_integer :
  forall (pre d rest : string) (c : ascii) (ln col : nat),
    isDigit c = true ->
    allChars isDigit d = true ->
    startsWith (fun x => isDigit x || Ascii.eqb x ".") rest = false ->
    Lexer.getNextToken (lexerAt (pre ++ String c d ++ rest) (String.length pre) ln col)
    = Ok (mkToken NUMBER (String c d)
            (Lexer.line
               (Nat.iter (String.length (String c d)) Lexer.advance
                  (lexerAt (pre ++ String c d ++ rest) (String.length pre) ln col)))
            col,
          Nat.iter (String.length (String c d)) Lexer.advance
            (lexerAt (pre ++ String c d ++ rest) (String.length pre) ln col)).
Proof. exact getNextToken_digits. Qed.

Lemma number_integer_witness :
  Lexer.getNextToken (lexerAt ("x = " ++ String "4" "2" ++ " + 1") (String.length "x = ") 1 5)
  = Ok (mkToken NUMBER (String "4" "2")
          (Lexer.line
             (Nat.iter (String.length (String "4" "2")) Lexer.advance
                (lexerAt ("x = " ++ String "4" "2" ++ " + 1") (String.length "x = ") 1 5)))
          5,
        Nat.iter (String.length (String "4" "2")) Lexer.advance
          (lexerAt ("x = " ++ String "4" "2" ++ " + 1") (String.length "x = ") 1 5)).
Proof. apply (number_integer "x = " "2" " + 1" "4" 1 5); reflexivity. Defined.

(** X9. A lexeme with a point.  Digits, a point and a stretch of further
    digits, which may be empty, are one NUMBER token: the point after an
    integer always belongs to the number (so does the point of [5.]),
    and a second point does not. *)
Theorem number_with_point :
  forall (pre d1 d2 rest : string) (c : ascii) (ln col : nat),
    isDigit c = true ->
    allChars isDigit d1 = true ->
    allChars isDigit d2 = true ->
    startsWith isDigit rest = false ->
    Lexer.getNextToken
      (lexerAt (pre ++ String c d1 ++ "." ++ d2 ++ rest) (String.length pre) ln col)
    = Ok (mkToken NUMBER (String c d1 ++ "." ++ d2)
            (Lexer.line
               (Nat.iter (String.length (String c d1 ++ "." ++ d2)) Lexer.advance
                  (lexerAt (pre ++ String c d1 ++ "." ++ d2 ++ rest)
                           (String.length pre) ln col)))
            col,
          Nat.iter (String.length (String c d1 ++ "." ++ d2)) Lexer.advance
            (lexerAt (pre ++ String c d1 ++ "." ++ d2 ++ rest)
                     (String.length pre) ln col)).
Proof.
  intros pre d1 d2 rest c ln col Hc Hd1 Hd2 Hrest.
  set (code := (pre ++ String c d1 ++ "." ++ d2 ++ rest)%string).
  set (L := lexerAt code (String.length pre) ln col).
  enter_loop.
  assert (E : Lexer.currentChar L = Some c)
    by exact (currentChar_lexerAt pre (d1 ++ "." ++ d2 ++ rest) c ln col).
  destruct (digit_dispatch c Hc) as [H1 H2].
  rewrite E, H1, H2, Hc. cbn [andb]. cbv iota.
  unfold Lexer.number.
  rewrite (readWhile_stretch isDigit (String c d1) pre ("." ++ d2 ++ rest) "" L);
    try reflexivity.
  2:{ cbn [allChars]. now rewrite Hc, Hd1. }
  2:{ unfold Lexer.loopFuel, L. cbn [Lexer.code lexerAt]. unfold code.
      rewrite !slength_app. lia. }
  set (L1 := Nat.iter (String.length (String c d1)) Lexer.advance L).
  assert (Q : Lexer.currentChar L1 = Some "."%char).
  { unfold L1, L, code. rewrite currentChar_iter by reflexivity. reflexivity. }
  rewrite Q. cbn [Lexer.isChar Ascii.eqb Bool.eqb andb]. cbv iota.
  rewrite (readWhile_stretch isDigit d2 (pre ++ String c d1 ++ ".") rest
                             ("" ++ String c d1 ++ ".") (Lexer.advance L1)).
  - rewrite <- (Nat.iter_succ_r (String.length d2)).
    unfold L1. rewrite <- Nat.iter_add.
    replace (S (String.length d2) + String.length (String c d1))
      with (String.length (String c d1 ++ "." ++ d2))
      by (rewrite !slength_app; cbn [String.length]; lia).
    cbn [append]. rewrite !sapp_assoc. reflexivity.
  - apply advance_consistent.
  - rewrite advance_code. unfold L1. rewrite iter_advance_code.
    cbn [Lexer.code L lexerAt]. unfold code. rewrite !sapp_assoc. reflexivity.
  - rewrite advance_position. unfold L1. rewrite iter_advance_position.
    cbn [Lexer.position L lexerAt]. rewrite !slength_app. cbn [String.length]. lia.
  - exact Hd2.
  - exact Hrest.
  - unfold Lexer.loopFuel, L. cbn [Lexer.code lexerAt]. unfold code.
    rewrite !slength_app. lia.
Qed.

Lemma number_with_point_witness :
  Lexer.getNextToken
    (lexerAt ("" ++ String "1" "" ++ "." ++ "2" ++ ".3") (String.length "") 1 1)
  = Ok (mkToken NUMBER (String "1" "" ++ "." ++ "2")
          (Lexer.line
             (Nat.iter (String.length (String "1" "" ++ "." ++ "2")) Lexer.advance
                (lexerAt ("" ++ String "1" "" ++ "." ++ "2" ++ ".3")
                         (String.length "") 1 1)))
          1,
        Nat.iter (String.length (String "1" "" ++ "." ++ "2")) Lexer.advance
          (lexerAt ("" ++ String "1" "" ++ "." ++ "2" ++ ".3") (String.length "") 1 1)).
Proof. apply (number_with_point "" "" "2" ".3" "1" 1 1); reflexivity. Defined.

Lemma comparison_char_dispatch (c : ascii) :
  c = "="%char \/ c = "!"%char \/ c = ">"%char \/ c = "<"%char ->
  isSpace c = false /\ Ascii.eqb c "/" = false /\ isDigit c = false
  /\ (Ascii.eqb c dquote || Ascii.eqb c squote) = false
  /\ isIdentStart c = false
  /\ (includes OPERATORS (str c) || Ascii.eqb c "=" || Ascii.eqb c "!"
      || Ascii.eqb c ">" || Ascii.eqb c "<") = true
  /\ (Ascii.eqb c "=" || Ascii.eqb c "!" || Ascii.eqb c ">" || Ascii.eqb c "<") = true.
Proof. intros [-> | [-> | [-> | ->]]]; vm_compute; repeat split. Qed.

Lemma currentChar_advance (pre rest : string) (c : ascii) (ln col : nat) :
  Lexer.currentChar
    (Lexer.advance (lexerAt (pre ++ String c rest) (String.length pre) ln col))
  = String.get 0 rest.
Proof.
  rewrite (advance_consistent _), advance_code, advance_position.
  cbn [Lexer.code Lexer.position lexerAt].
  replace (pre ++ String c rest)%string with ((pre ++ str c) ++ rest)%string
    by (rewrite sapp_assoc; reflexivity).
  replace (S (String.length pre)) with (String.length (pre ++ str c)%string)
    by (rewrite slength_app; simpl; lia).
  apply get_after.
Qed.

(** X10. Two-character operators are taken greedily.  After one of the
    characters = ! > < an equals sign is joined to it, giving one
    OPERATOR token of two characters; without an equals sign behind it
    the character is an OPERATOR token of its own, the exclamation mark
    too. *)
Theorem comparison_operator_greedy :
  forall (pre rest : string) (c : ascii) (ln col : nat),
    c = "="%char \/ c = "!"%char \/ c = ">"%char \/ c = "<"%char ->
    Lexer.getNextToken
      (lexerAt (pre ++ String c (String "=" rest)) (String.length pre) ln col)
    = Ok (mkToken OPERATOR (str c ++ "=")
            (Lexer.line
               (Nat.iter 2 Lexer.advance
                  (lexerAt (pre ++ String c (String "=" rest))
                           (String.length pre) ln col)))
            col,
          Nat.iter 2 Lexer.advance
            (lexerAt (pre ++ String c (String "=" rest)) (String.length pre) ln col))
    /\ (startsWith (Ascii.eqb "=") rest = false ->
        Lexer.getNextToken (lexerAt (pre ++ String c rest) (String.length pre) ln col)
        = Ok (mkToken OPERATOR (str c)
                (Lexer.line
                   (Lexer.advance
                      (lexerAt (pre ++ String c rest) (String.length pre) ln col)))
                col,
              Lexer.advance
                (lexerAt (pre ++ String c rest) (String.length pre) ln col))).
Proof.
  intros pre rest c ln col Hc.
  destruct (comparison_char_dispatch c Hc) as (H1 & H2 & H3 & H4 & H5 & H6 & H7).
  split.
  - enter_loop. rewrite currentChar_lexerAt.
    rewrite H1, H2, H3, H4, H5, H6. cbn [andb]. cbv iota.
    unfold Lexer.operator. rewrite currentChar_lexerAt, H7, currentChar_advance.
    reflexivity.
  - intros Hrest. enter_loop. rewrite currentChar_lexerAt.
    rewrite H1, H2, H3, H4, H5, H6. cbn [andb]. cbv iota.
    unfold Lexer.operator. rewrite currentChar_lexerAt, H7, currentChar_advance.
    destruct rest as [|x rest]; [reflexivity|].
    cbn [startsWith] in Hrest. cbn [String.get Lexer.isChar andb].
    rewrite Ascii.eqb_sym, Hrest. reflexivity.
Qed.

Lemma comparison_operator_greedy_witness :
  Lexer.getNextToken
    (lexerAt ("a " ++ String "!" (String "=" " b")) (String.length "a ") 1 3)
  = Ok (mkToken OPERATOR (str "!" ++ "=")
          (Lexer.line
             (Nat.iter 2 Lexer.advance
                (lexerAt ("a " ++ String "!" (String "=" " b"))
                         (String.length "a ") 1 3)))
          3,
        Nat.iter 2 Lexer.advance
          (lexerAt ("a " ++ String "!" (String "=" " b")) (String.length "a ") 1 3))
  /\ (startsWith (Ascii.eqb "=") " b" = false ->
      Lexer.getNextToken (lexerAt ("a " ++ String "!" " b") (String.length "a ") 1 3)
      = Ok (mkToken OPERATOR (str "!")
              (Lexer.line
                 (Lexer.advance
                    (lexerAt ("a " ++ String "!" " b") (String.length "a ") 1 3)))
              3,
            Lexer.advance
              (lexerAt ("a " ++ String "!" " b") (String.length "a ") 1 3))).
Proof.
  apply (comparison_operator_greedy "a " " b" "!" 1 3). right; left; reflexivity.
Defined.

(** X11. A slash that is not followed by a second slash is the division
    operator, also at the very end of the text. *)
Theorem single_slash_is_operator :
  forall (pre rest : string) (ln col : nat),
    startsWith (Ascii.eqb "/") rest = false ->
    Lexer.getNextToken (lexerAt (pre ++ String "/" rest) (String.length pre) ln col)
    = Ok (mkToken OPERATOR "/"
            (Lexer.line
               (Lexer.advance
                  (lexerAt (pre ++ String "/" rest) (String.length pre) ln col)))
            col,
          Lexer.advance (lexerAt (pre ++ String "/" rest) (String.length pre) ln col)).
Proof.
  intros pre rest ln col Hrest. enter_loop. rewrite currentChar_lexerAt.
  change (isSpace "/") with false. cbv iota.
  rewrite (peek_lexerAt_not pre rest "/" "/" ln col Hrest).
  cbn [Ascii.eqb Bool.eqb andb]. cbv iota.
  change (isDigit "/") with false.
  change (Ascii.eqb "/" dquote || Ascii.eqb "/" squote) with false.
  change (isIdentStart "/") with false.
  change (includes OPERATORS (str "/") || Ascii.eqb "/" "=" || Ascii.eqb "/" "!"
          || Ascii.eqb "/" ">" || Ascii.eqb "/" "<") with true.
  cbv iota. unfold Lexer.operator. rewrite currentChar_lexerAt.
  reflexivity.
Qed.

Lemma single_slash_is_operator_witness :
  Lexer.getNextToken (lexerAt ("8 " ++ String "/" " 2") (String.length "8 ") 1 3)
  = Ok (mkToken OPERATOR "/"
          (Lexer.line
             (Lexer.advance (lexerAt ("8 " ++ String "/" " 2") (String.length "8 ") 1 3)))
          3,
        Lexer.advance (lexerAt ("8 " ++ String "/" " 2") (String.length "8 ") 1 3)).
Proof. apply (single_slash_is_operator "8 " " 2" 1 3). reflexivity. Defined.

End LexerExtras2.

(** ** The parser: edges *)

Module ParserEdges.
Import Parser ParserFacts ParserSteps ParserLevels.

Section Edges.

Variable tokens : list Token.

Lemma consume_ok (current : nat) (t : Token) (ty : TokenType) (message : string) :
  nth_error tokens current = Some t ->
  type t = ty -> ty <> EOF ->
  consume tokens ty message current = Ok (t, S current).
Proof.
  intros H Hty Hne. unfold consume, bind.
  rewrite (check_at tokens current t ty None H).
  assert (E : TokenType_eqb (type t) EOF = false)
    by (apply TokenType_eqb_neq; congruence).
  assert (R : TokenType_eqb (type t) ty = true) by now apply TokenType_eqb_eq.
  rewrite E, R. apply advance_at; [assumption | congruence].
Qed.

Lemma consume_error (current : nat) (t : Token) (ty : TokenType) (message : string) :
  nth_error tokens current = Some t ->
  type t <> ty \/ type t = EOF ->
  consume tokens ty message current = Throw (errorOf message t).
Proof.
  intros H Hty. unfold consume, bind.
  rewrite (check_at tokens current t ty None H).
  assert (E : (if TokenType_eqb (type t) EOF then false
               else TokenType_eqb (type t) ty) = false).
  { destruct Hty as [Hty|Hty].
    - apply TokenType_eqb_neq in Hty. rewrite Hty.
      destruct (TokenType_eqb (type t) EOF); reflexivity.
    - now rewrite Hty. }
  rewrite E. unfold errorAt, bind, peek, throw. now rewrite H.
Qed.

Lemma consumeValue_ok (current : nat) (t : Token) (ty : TokenType)
      (a : ascii) (v message : string) :
  nth_error tokens current = Some t ->
  type t = ty -> ty <> EOF ->
  toLowerCase (value t) = toLowerCase (String a v) ->
  consumeValue tokens ty (String a v) message current = Ok (t, S current).
Proof.
  intros H Hty Hne Hv. unfold consumeValue, bind.
  rewrite (check_at tokens current t ty (Some (String a v)) H).
  assert (E : TokenType_eqb (type t) EOF = false)
    by (apply TokenType_eqb_neq; congruence).
  assert (R : TokenType_eqb (type t) ty = true) by now apply TokenType_eqb_eq.
  rewrite E, R, Hv, String.eqb_refl. apply advance_at; [assumption | congruence].
Qed.

Lemma consumeValue_error (current : nat) (t : Token) (ty : TokenType)
      (a : ascii) (v message : string) :
  nth_error tokens current = Some t ->
  type t <> ty \/ type t = EOF \/ toLowerCase (value t) <> toLowerCase (String a v) ->
  consumeValue tokens ty (String a v) message current = Throw (errorOf message t).
Proof.
  intros H Hty. unfold consumeValue, bind.
  rewrite (check_at tokens current t ty (Some (String a v)) H).
  assert (E : (if TokenType_eqb (type t) EOF then false
               else TokenType_eqb (type t) ty
                    && String.eqb (toLowerCase (value t)) (toLowerCase (String a v)))
              = false).
  { destruct Hty as [Hty|[Hty|Hty]].
    - apply TokenType_eqb_neq in Hty. rewrite Hty.
      destruct (TokenType_eqb (type t) EOF); reflexivity.
    - now rewrite Hty.
    - apply String.eqb_neq in Hty. rewrite Hty, andb_false_r.
      destruct (TokenType_eqb (type t) EOF); reflexivity. }
  rewrite E. unfold errorAt, bind, peek, throw. now rewrite H.
Qed.

Lemma check_value (current : nat) (t : Token) (a : ascii) (v : string) :
  nth_error tokens current = Some t ->
  type t = PUNCTUATION ->
  check tokens PUNCTUATION (Some (String a v)) current
  = Ok (String.eqb (toLowerCase (value t)) (toLowerCase (String a v)), current).
Proof.
  intros H Hty. rewrite (check_at tokens current t PUNCTUATION _ H), Hty. reflexivity.
Qed.

(** [primary] at a punctuation token that is no opening bracket: the
    token is consumed, and so is the identifier behind it. *)
Lemma primary_punctuation (fuel current : nat) (p t : Token) :
  nth_error tokens current = Some p ->
  type p = PUNCTUATION ->
  value p <> "[" ->
  nth_error tokens (S current) = Some t ->
  type t <> PUNCTUATION ->
  primary tokens (S fuel) current
  = if TokenType_eqb (type t) IDENTIFIER
    then Ok (Identifier (value t) (line t) (column t), S (S current))
    else Throw (unexpectedToken t).
Proof.
  intros Hp Hpty Hv Ht Hty. cbn [primary]. unfold bind at 1. unfold peek at 1. rewrite Hp.
  unfold bind at 1. rewrite (match_other tokens current p NUMBER Hp) by now rewrite Hpty.
  unfold bind at 1. rewrite (match_other tokens current p STRING Hp) by now rewrite Hpty.
  unfold bind at 1.
  rewrite (matchValue_wrong_type tokens current p KEYWORD _ Hp) by now rewrite Hpty.
  unfold bind at 1.
  rewrite (matchValue_wrong_type tokens current p KEYWORD _ Hp) by now rewrite Hpty.
  unfold bind at 1.
  rewrite (matchThenValue_same tokens current p PUNCTUATION _ Hp Hpty) by discriminate.
  assert (B : String.eqb "[" (value p) = false)
    by (apply String.eqb_neq; congruence).
  rewrite B. unfold bind at 1.
  assert (P : matchThenValue tokens PUNCTUATION (String.eqb "(") (S current)
              = Ok (false, S current)).
  { apply (matchThenValue_other tokens (S current) t PUNCTUATION _ Ht).
    now apply TokenType_eqb_neq. }
  rewrite P. unfold bind at 1.
  destruct (TokenType_eqb (type t) IDENTIFIER) eqn:Ei.
  - apply TokenType_eqb_eq in Ei.
    destruct (match_same tokens (S current) t IDENTIFIER Ht Ei) as [Hm Hq]; [discriminate|].
    rewrite Hm. unfold bind. now rewrite Hq.
  - rewrite (match_other tokens (S current) t IDENTIFIER Ht Ei).
    unfold bind, peek, throw. now rewrite Ht.
Qed.

(** An opening bracket directly closed. *)
Lemma primary_empty_array (fuel current : nat) (p q : Token) :
  nth_error tokens current = Some p ->
  type p = PUNCTUATION -> value p = "[" ->
  nth_error tokens (S current) = Some q ->
  type q = PUNCTUATION -> value q = "]" ->
  primary tokens (S (S fuel)) current
  = Ok (ArrayLiteral [] (line p) (column p), S (S current)).
Proof.
  intros Hp Hpty Hpv Hq Hqty Hqv.
  cbn [primary]. unfold bind at 1. unfold peek at 1. rewrite Hp.
  unfold bind at 1. rewrite (match_other tokens current p NUMBER Hp) by now rewrite Hpty.
  unfold bind at 1. rewrite (match_other tokens current p STRING Hp) by now rewrite Hpty.
  unfold bind at 1.
  rewrite (matchValue_wrong_type tokens current p KEYWORD _ Hp) by now rewrite Hpty.
  unfold bind at 1.
  rewrite (matchValue_wrong_type tokens current p KEYWORD _ Hp) by now rewrite Hpty.
  unfold bind at 1.
  rewrite (matchThenValue_same tokens current p PUNCTUATION _ Hp Hpty) by discriminate.
  rewrite Hpv. cbn [String.eqb Ascii.eqb Bool.eqb andb]. cbv iota.
  cbn [arrayLiteral]. unfold bind at 1. unfold previous at 1. rewrite Hp.
  unfold bind at 1. rewrite (check_value (S current) q "]" "" Hq Hqty), Hqv.
  change (String.eqb (toLowerCase "]") (toLowerCase "]")) with true.
  cbn [negb]. unfold bind at 1. unfold ret at 1.
  unfold bind at 1. rewrite (consume_ok (S current) q PUNCTUATION "]" Hq Hqty)
    by discriminate.
  reflexivity.
Qed.

(** A call without arguments after an identifier. *)
Lemma call_no_arguments (fuel current : nat) (f p q t : Token) :
  nth_error tokens current = Some f ->
  isLeafType (type f) = true ->
  nth_error tokens (S current) = Some p ->
  type p = PUNCTUATION -> value p = "(" ->
  nth_error tokens (S (S current)) = Some q ->
  type q = PUNCTUATION -> value q = ")" ->
  nth_error tokens (S (S (S current))) = Some t ->
  type t <> PUNCTUATION ->
  call tokens (S (S (S fuel))) current
  = Ok (CallExpression (leafOf f) [] (line p) (column p), S (S (S current))).
Proof.
  intros Hf Hleaf Hp Hpty Hpv Hq Hqty Hqv Ht Hty.
  remember (S fuel) as k eqn:Hk.
  cbn [call]. unfold bind at 1.
  rewrite (primary_leaf tokens k current f Hf Hleaf).
  subst k. remember (S fuel) as k eqn:Hk.
  cbn [callLoop]. unfold bind at 1.
  rewrite (matchThenValue_same tokens (S current) p PUNCTUATION _ Hp Hpty) by discriminate.
  rewrite Hpv. cbn [String.eqb Ascii.eqb Bool.eqb andb]. cbv iota.
  unfold bind at 1.
  assert (F : finishCall tokens (S k) (leafOf f) (S (S current))
              = Ok (CallExpression (leafOf f) [] (line p) (column p),
                    S (S (S current)))).
  { cbn [finishCall]. unfold bind at 1. unfold previous at 1. rewrite Hp.
    unfold bind at 1. rewrite (check_value (S (S current)) q ")" "" Hq Hqty), Hqv.
    change (String.eqb (toLowerCase ")") (toLowerCase ")")) with true.
    cbn [negb]. unfold bind at 1. unfold ret at 1.
    unfold bind at 1. rewrite (consume_ok (S (S current)) q PUNCTUATION ")" Hq Hqty)
      by discriminate.
    reflexivity. }
  rewrite F. subst k. cbn [callLoop]. unfold bind at 1.
  rewrite (matchThenValue_other tokens (S (S (S current))) t PUNCTUATION _ Ht);
    [reflexivity|].
  now apply TokenType_eqb_neq.
Qed.

(** A block that the end of input cuts short. *)
Lemma blockStatement_at_end (fuel current : nat) (p eof : Token) :
  nth_error tokens current = Some p ->
  nth_error tokens (S current) = Some eof ->
  type eof = EOF ->
  blockStatement tokens (S (S fuel)) (S current) = Throw (errorOf "}" eof).
Proof.
  intros Hp He Hty. cbn [blockStatement]. unfold bind at 1. unfold previous at 1.
  rewrite Hp. unfold bind at 1. cbn [whilePush]. unfold bind at 1. unfold bind at 1.
  rewrite (check_at tokens (S current) eof PUNCTUATION _ He), Hty.
  cbn [TokenType_eqb]. unfold bind at 1. unfold isAtEnd, bind at 1, peek.
  rewrite He, Hty. cbn [TokenType_eqb ret negb].
  unfold ret at 1. unfold bind at 1.
  rewrite (consume_error (S current) eof PUNCTUATION "}" He); [reflexivity|].
  now right.
Qed.

End Edges.

(** The first token being the end of input, the program is empty. *)
Lemma parse_at_end (eof : Token) (rest : list Token) :
  type eof = EOF -> parse (eof :: rest) = Ok (mkProgram [] 1 1).
Proof.
  intros Hty. unfold parse, Parser.parse.
  assert (F : exists k, parseFuel (eof :: rest) = S k)
    by (exists (23 + 24 * S (length rest)); unfold parseFuel; simpl length; lia).
  destruct F as [k F]. rewrite F at 2.
  cbn [whilePush]. unfold bind, isAtEnd, bind, peek, ret. cbn [nth_error].
  rewrite Hty. reflexivity.
Qed.

End ParserEdges.

(** ** Programs of one token *)

Module OneToken.
Import LexerFacts LexerTheorems LexerProgress LexerTermination LexerStretches.

Lemma TokenType_eqb_neq_lex (a b : TokenType) : a <> b -> TokenType_eqb a b = false.
Proof. destruct a, b; cbn; intros H; try reflexivity; now elim H. Qed.

(** A text whose first token reaches its end tokenizes to that token
    and the end-of-input token. *)
Lemma tokenize_one (code : string) (t : Token) (L' : Lexer.Lexer) :
  Lexer.getNextToken (lexerAt code 0 1 1) = Ok (t, L') ->
  type t <> EOF ->
  consistent L' ->
  Lexer.code L' = code ->
  Lexer.position L' = String.length code ->
  tokenize code
  = Ok [t; mkToken EOF "" (Lexer.line L') (Lexer.column L')].
Proof.
  intros G Hty C K P. unfold tokenize, Lexer.tokenize. rewrite new_lexerAt.
  unfold Lexer.loopFuel. cbn [Lexer.code lexerAt].
  change (2 + String.length code) with (S (S (String.length code))).
  remember (String.length code) as n eqn:Hn.
  cbn [Lexer.tokenize_loop]. rewrite G.
  apply TokenType_eqb_neq_lex in Hty. rewrite Hty.
  assert (E : Lexer.currentChar L' = None).
  { rewrite C. apply get_beyond. rewrite K, P. lia. }
  unfold Lexer.getNextToken, Lexer.loopFuel. cbn [Nat.add Lexer.getNextToken_loop].
  rewrite E. reflexivity.
Qed.

Lemma parse_single_leaf (a eof : Token) :
  isLeafType (type a) = true ->
  type eof = EOF ->
  parse [a; eof]
  = Ok (mkProgram [ExpressionStatement (leafOf a) (line a) (column a)] 1 1).
Proof.
  destruct a as [ty v l c], eof as [ty' v' l' c']. cbn [type].
  intros Hleaf ->.
  destruct ty; try discriminate Hleaf; cbv -[parseFloat]; reflexivity.
Qed.

End OneToken.

(** ** The parser: further properties *)

Module ParserExtras.
Import ParserFacts ParserSteps ParserLevels ParserEdges.

(** X12. [consume] looks at the type of the token only.  A token of the
    type asked for, whatever its value, is consumed and returned; at a
    token of another type, and at the end-of-input token even when that
    type is asked for, it throws its second argument followed by the
    line and column of that token. *)
Theorem consume_checks_type_only :
  forall (tokens : list Token) (current : nat) (t : Token) (ty : TokenType)
         (message : string),
    nth_error tokens current = Some t ->
    Parser.consume tokens ty message current
    = if TokenType_eqb (type t) ty && negb (TokenType_eqb (type t) EOF)
      then Ok (t, S current)
      else Throw (errorOf message t).
Proof.
  intros tokens current t ty message H.
  destruct (TokenType_eqb (type t) ty) eqn:E1.
  - apply TokenType_eqb_eq in E1.
    destruct (TokenType_eqb (type t) EOF) eqn:E2; cbn [andb negb].
    + apply TokenType_eqb_eq in E2. apply consume_error; [assumption | now right].
    + apply TokenType_eqb_neq in E2. apply consume_ok; congruence.
  - apply TokenType_eqb_neq in E1. cbn [andb]. apply consume_error; [assumption | now left].
Qed.

Lemma consume_checks_type_only_witness :
  Parser.consume [mkToken PUNCTUATION "]" 1 12; mkToken EOF "" 1 13]
                 PUNCTUATION ")" 0
  = if TokenType_eqb (type (mkToken PUNCTUATION "]" 1 12)) PUNCTUATION
       && negb (TokenType_eqb (type (mkToken PUNCTUATION "]" 1 12)) EOF)
    then Ok (mkToken PUNCTUATION "]" 1 12, S 0)
    else Throw (errorOf ")" (mkToken PUNCTUATION "]" 1 12)).
Proof.
  apply (consume_checks_type_only
           [mkToken PUNCTUATION "]" 1 12; mkToken EOF "" 1 13] 0
           (mkToken PUNCTUATION "]" 1 12) PUNCTUATION ")").
  reflexivity.
Defined.

(** X13. [consumeValue] compares the type and, where a value is asked
    for, the value without regard to letter case.  With a value that is
    not the empty text, the token is consumed when its type is the one
    asked for, it is not the end-of-input token, and its lower-case
    value is the lower-case of the value asked for.  The empty text is
    no value: with it the type alone is compared, as [consume] does.
    In every other case the message is thrown with the line and column
    of the token. *)
Theorem consumeValue_checks_value :
  forall (tokens : list Token) (current : nat) (t : Token) (ty : TokenType)
         (v message : string),
    nth_error tokens current = Some t ->
    Parser.consumeValue tokens ty v message current
    = if TokenType_eqb (type t) ty && negb (TokenType_eqb (type t) EOF)
         && (String.eqb v "" || String.eqb (toLowerCase (value t)) (toLowerCase v))
      then Ok (t, S current)
      else Throw (errorOf message t).
Proof.
  intros tokens current t ty v message H.
  destruct v as [|a v].
  - cbn [String.eqb orb]. rewrite andb_true_r.
    assert (E : Parser.consumeValue tokens ty "" message current
                = Parser.consume tokens ty message current).
    { unfold Parser.consumeValue, Parser.consume, Parser.bind.
      now rewrite (check_at tokens current t ty (Some ""%string) H),
                  (check_at tokens current t ty None H). }
    rewrite E.
    destruct (TokenType_eqb (type t) ty) eqn:E1.
    + apply TokenType_eqb_eq in E1.
      destruct (TokenType_eqb (type t) EOF) eqn:E2; cbn [andb negb].
      * apply TokenType_eqb_eq in E2. apply consume_error; [assumption | now right].
      * apply TokenType_eqb_neq in E2. apply consume_ok; congruence.
    + apply TokenType_eqb_neq in E1. cbn [andb].
      apply consume_error; [assumption | now left].
  - cbn [String.eqb orb].
    destruct (TokenType_eqb (type t) ty) eqn:E1.
    + apply TokenType_eqb_eq in E1.
      destruct (TokenType_eqb (type t) EOF) eqn:E2; cbn [andb negb].
      * apply TokenType_eqb_eq in E2. apply consumeValue_error; [assumption|].
        right; now left.
      * apply TokenType_eqb_neq in E2.
        destruct (String.eqb_spec (toLowerCase (value t)) (toLowerCase (String a v)))
          as [E3|E3].
        -- apply consumeValue_ok; congruence.
        -- apply consumeValue_error; [assumption|]. right; now right.
    + apply TokenType_eqb_neq in E1. cbn [andb].
      apply consumeValue_error; [assumption | now left].
Qed.

(** The keyword WE where we is asked for, and a keyword where the value
    asked for is empty. *)
Lemma consumeValue_checks_value_witness :
  Parser.consumeValue [mkToken KEYWORD "WE" 1 8; mkToken EOF "" 1 10]
                      KEYWORD "we" "Expected we" 0
  = Ok (mkToken KEYWORD "WE" 1 8, 1)
  /\ Parser.consumeValue [mkToken KEYWORD "ko" 1 8; mkToken EOF "" 1 10]
                         KEYWORD "we" "Expected we" 0
     = Throw (Error "Expected we at line 1, column 8")
  /\ Parser.consumeValue [mkToken KEYWORD "ko" 1 8; mkToken EOF "" 1 10]
                         KEYWORD "" "Expected we" 0
     = Ok (mkToken KEYWORD "ko" 1 8, 1).
Proof.
  split; [|split].
  - rewrite (consumeValue_checks_value
               [mkToken KEYWORD "WE" 1 8; mkToken EOF "" 1 10] 0
               (mkToken KEYWORD "WE" 1 8) KEYWORD "we" "Expected we" eq_refl).
    reflexivity.
  - rewrite (consumeValue_checks_value
               [mkToken KEYWORD "ko" 1 8; mkToken EOF "" 1 10] 0
               (mkToken KEYWORD "ko" 1 8) KEYWORD "we" "Expected we" eq_refl).
    reflexivity.
  - rewrite (consumeValue_checks_value
               [mkToken KEYWORD "ko" 1 8; mkToken EOF "" 1 10] 0
               (mkToken KEYWORD "ko" 1 8) KEYWORD "" "Expected we" eq_refl).
    reflexivity.
Defined.

(** X14. A binary operator that is not multiplicative is lost.  Where a
    number, string or identifier token is followed by an operator token
    whose value is not in the list of the multiplicative level, and no
    operator token comes next, [expression] returns the operand alone,
    the very node [primary] builds from the first token, with both
    tokens consumed: the additive, comparison, equality and assignment
    operators never build a node after a plain operand. *)
Theorem operator_after_operand_lost :
  forall (tokens : list Token) (fuel current : nat) (a o t : Token),
    nth_error tokens current = Some a ->
    isLeafType (type a) = true ->
    nth_error tokens (S current) = Some o ->
    type o = OPERATOR ->
    includes multiplicationOperators (value o) = false ->
    nth_error tokens (S (S current)) = Some t ->
    type t <> OPERATOR ->
    exists operand : Expression,
      leafNode a operand
      /\ Parser.primary tokens (S fuel) current = Ok (operand, S current)
      /\ Parser.expression tokens (9 + fuel) current = Ok (operand, S (S current)).
Proof.
  intros tokens fuel current a o t Ha Hleaf Ho Hop Hout Ht Hty.
  exists (leafOf a). split; [now apply leafOf_leafNode|]. split.
  - now apply primary_leaf.
  - now apply (expression_drops tokens fuel current a o t).
Qed.

(** The tokens of x = y: the expression is x, and both x and the equals
    sign are consumed. *)
Lemma operator_after_operand_lost_witness :
  Parser.expression
    [mkToken IDENTIFIER "x" 1 1; mkToken OPERATOR "=" 1 3;
     mkToken IDENTIFIER "y" 1 5; mkToken EOF "" 1 6] (9 + 0) 0
  = Ok (Identifier "x" 1 1, 2).
Proof.
  destruct (operator_after_operand_lost
              [mkToken IDENTIFIER "x" 1 1; mkToken OPERATOR "=" 1 3;
               mkToken IDENTIFIER "y" 1 5; mkToken EOF "" 1 6] 0 0
              (mkToken IDENTIFIER "x" 1 1) (mkToken OPERATOR "=" 1 3)
              (mkToken IDENTIFIER "y" 1 5)
              eq_refl eq_refl eq_refl eq_refl eq_refl eq_refl
              ltac:(discriminate))
    as (operand & Hnode & _ & Hexpr).
  rewrite Hexpr. cbv in Hnode. now rewrite Hnode.
Defined.

(** X15. Unary minus.  A minus sign or the word manfi before a number,
    string or identifier token gives the binary node of that operator
    with the numeric literal 0 on the left and, on the right, the node
    [primary] builds from the operand token.  The node and the 0 carry
    the line and column of the last token consumed, never of the sign:
    that token is the operand token where the token behind it is no
    punctuation, and where a punctuation token other than an opening
    parenthesis stands behind the operand, it is that punctuation
    token, which is consumed as well. *)
Theorem unary_minus_desugared :
  forall (tokens : list Token) (fuel current : nat) (o a t : Token),
    nth_error tokens current = Some o ->
    type o = OPERATOR ->
    includes ["-"; "manfi"] (value o) = true ->
    nth_error tokens (S current) = Some a ->
    isLeafType (type a) = true ->
    nth_error tokens (S (S current)) = Some t ->
    (type t = PUNCTUATION -> value t <> "("%string) ->
    exists operand : Expression,
      leafNode a operand
      /\ Parser.primary tokens (S fuel) (S current) = Ok (operand, S (S current))
      /\ Parser.unary tokens (4 + fuel) current
         = if TokenType_eqb (type t) PUNCTUATION
           then Ok (BinaryExpression (value o)
                      (NumericLiteral (Finite 0) (line t) (column t))
                      operand (line t) (column t), S (S (S current)))
           else Ok (BinaryExpression (value o)
                      (NumericLiteral (Finite 0) (line a) (column a))
                      operand (line a) (column a), S (S current)).
Proof.
  intros tokens fuel current o a t Ho Hop Hin Ha Hleaf Ht Hparen.
  exists (leafOf a). split; [now apply leafOf_leafNode|]. split.
  - now apply primary_leaf.
  - destruct (TokenType_eqb (type t) PUNCTUATION) eqn:E.
    + apply TokenType_eqb_eq in E.
      apply (unary_minus_punctuation tokens fuel current o a t); auto.
    + apply TokenType_eqb_neq in E.
      now apply (unary_minus tokens fuel current o a t).
Qed.

(** The tokens of manfi x and of manfi x followed by a semicolon. *)
Lemma unary_minus_desugared_witness :
  Parser.unary
    [mkToken OPERATOR "manfi" 1 1; mkToken IDENTIFIER "x" 1 7; mkToken EOF "" 1 8]
    (4 + 0) 0
  = Ok (BinaryExpression "manfi" (NumericLiteral (Finite 0) 1 7)
                         (Identifier "x" 1 7) 1 7, 2)
  /\ Parser.unary
       [mkToken OPERATOR "manfi" 1 1; mkToken IDENTIFIER "x" 1 7;
        mkToken PUNCTUATION ";" 1 8; mkToken EOF "" 1 9]
       (4 + 0) 0
     = Ok (BinaryExpression "manfi" (NumericLiteral (Finite 0) 1 8)
                            (Identifier "x" 1 7) 1 8, 3).
Proof.
  split.
  - destruct (unary_minus_desugared
                [mkToken OPERATOR "manfi" 1 1; mkToken IDENTIFIER "x" 1 7;
                 mkToken EOF "" 1 8]
                0 0 (mkToken OPERATOR "manfi" 1 1) (mkToken IDENTIFIER "x" 1 7)
                (mkToken EOF "" 1 8)
                eq_refl eq_refl eq_refl eq_refl eq_refl eq_refl
                ltac:(discriminate))
      as (operand & Hnode & _ & Hunary).
    rewrite Hunary. cbv in Hnode. now rewrite Hnode.
  - destruct (unary_minus_desugared
                [mkToken OPERATOR "manfi" 1 1; mkToken IDENTIFIER "x" 1 7;
                 mkToken PUNCTUATION ";" 1 8; mkToken EOF "" 1 9]
                0 0 (mkToken OPERATOR "manfi" 1 1) (mkToken IDENTIFIER "x" 1 7)
                (mkToken PUNCTUATION ";" 1 8)
                eq_refl eq_refl eq_refl eq_refl eq_refl eq_refl
                ltac:(discriminate))
      as (operand & Hnode & _ & Hunary).
    rewrite Hunary. cbv in Hnode. now rewrite Hnode.
Defined.

(** X16. Any other prefix operator is dropped.  At an operator token
    that is neither the minus sign nor manfi, [unary] consumes the token
    and goes on as [call] does behind it: a leading plus, star or
    equals sign is no error and leaves no trace in the tree. *)
Theorem prefix_operator_dropped :
  forall (tokens : list Token) (fuel current : nat) (o : Token),
    nth_error tokens current = Some o ->
    type o = OPERATOR ->
    includes ["-"; "manfi"] (value o) = false ->
    Parser.unary tokens (S fuel) current = Parser.call tokens fuel (S current).
Proof. exact unary_other. Qed.

Lemma prefix_operator_dropped_witness :
  Parser.unary [mkToken OPERATOR "+" 1 1; mkToken NUMBER "5" 1 2; mkToken EOF "" 1 3]
               (S 5) 0
  = Parser.call [mkToken OPERATOR "+" 1 1; mkToken NUMBER "5" 1 2; mkToken EOF "" 1 3]
                5 (S 0).
Proof.
  apply (prefix_operator_dropped
           [mkToken OPERATOR "+" 1 1; mkToken NUMBER "5" 1 2; mkToken EOF "" 1 3]
           5 0 (mkToken OPERATOR "+" 1 1));
    reflexivity.
Defined.

(** X17. Boolean literals.  A KEYWORD token whose value is rishtia or
    ghalat in any letter case is the boolean literal true or false, with
    the line and column of the token. *)
Theorem primary_boolean_literal :
  forall (tokens : list Token) (fuel current : nat) (t : Token),
    nth_error tokens current = Some t ->
    type t = KEYWORD ->
    includes ["rishtia"; "ghalat"] (toLowerCase (value t)) = true ->
    Parser.primary tokens (S fuel) current
    = Ok (BooleanLiteral (String.eqb (toLowerCase (value t)) "rishtia")
                         (line t) (column t), S current).
Proof.
  intros tokens fuel current t H Hty Hin.
  cbn [Parser.primary]. unfold Parser.bind at 1. unfold Parser.peek at 1. rewrite H.
  unfold Parser.bind at 1.
  rewrite (match_other tokens current t NUMBER H) by now rewrite Hty.
  unfold Parser.bind at 1.
  rewrite (match_other tokens current t STRING H) by now rewrite Hty.
  assert (A : Parser.advance tokens current = Ok (t, S current))
    by (apply advance_at; [assumption | rewrite Hty; discriminate]).
  assert (P : Parser.previous tokens (S current) = Ok (t, S current))
    by (unfold Parser.previous; now rewrite H).
  unfold Parser.bind at 1. unfold Parser.matchValue at 1. unfold Parser.bind at 1.
  rewrite (check_at tokens current t KEYWORD (Some "rishtia") H), Hty.
  cbn [TokenType_eqb andb].
  change (toLowerCase "rishtia") with "rishtia"%string.
  destruct (String.eqb (toLowerCase (value t)) "rishtia") eqn:E.
  - unfold Parser.bind at 1. rewrite A. unfold Parser.ret at 1.
    unfold Parser.bind. now rewrite P.
  - unfold Parser.ret at 1. unfold Parser.bind at 1.
    unfold Parser.matchValue at 1. unfold Parser.bind at 1.
    rewrite (check_at tokens current t KEYWORD (Some "ghalat") H), Hty.
    cbn [TokenType_eqb andb].
    change (toLowerCase "ghalat") with "ghalat"%string.
    unfold includes in Hin. cbn [existsb] in Hin. rewrite E in Hin.
    cbn [orb] in Hin. rewrite orb_false_r in Hin. rewrite Hin.
    unfold Parser.bind at 1. rewrite A. unfold Parser.ret at 1.
    unfold Parser.bind. now rewrite P.
Qed.

Lemma primary_boolean_literal_witness :
  Parser.primary [mkToken KEYWORD "GHALAT" 2 4; mkToken EOF "" 2 10] (S 0) 0
  = Ok (BooleanLiteral
          (String.eqb (toLowerCase (value (mkToken KEYWORD "GHALAT" 2 4))) "rishtia")
          (line (mkToken KEYWORD "GHALAT" 2 4))
          (column (mkToken KEYWORD "GHALAT" 2 4)), S 0).
Proof.
  apply (primary_boolean_literal
           [mkToken KEYWORD "GHALAT" 2 4; mkToken EOF "" 2 10] 0 0
           (mkToken KEYWORD "GHALAT" 2 4));
    reflexivity.
Defined.

(** X18. Where an expression must start and the end of input or an
    operator stands, [primary] throws "Unexpected token" with the value,
    line and column of that token (for the end of input the value is
    what the token holds, the empty text for a token of the lexer). *)
Theorem primary_rejects_end_and_operator :
  forall (tokens : list Token) (fuel current : nat) (t : Token),
    nth_error tokens current = Some t ->
    type t = EOF \/ type t = OPERATOR ->
    Parser.primary tokens (S fuel) current = Throw (unexpectedToken t).
Proof. exact primary_rejects. Qed.

Lemma primary_rejects_end_and_operator_witness :
  Parser.primary [mkToken NUMBER "2" 1 1; mkToken OPERATOR "*" 1 3; mkToken EOF "" 1 4]
                 (S 0) 2
  = Throw (unexpectedToken (mkToken EOF "" 1 4)).
Proof.
  apply (primary_rejects_end_and_operator
           [mkToken NUMBER "2" 1 1; mkToken OPERATOR "*" 1 3; mkToken EOF "" 1 4]
           0 2 (mkToken EOF "" 1 4)).
  - reflexivity.
  - left; reflexivity.
Defined.

(** X19. The empty program.  When the first token is the end of input,
    [parse] returns the program with no statement at line 1, column 1,
    whatever follows in the array and wherever the token says it
    stands. *)
Theorem parse_empty_program :
  forall (eof : Token) (rest : list Token),
    type eof = EOF -> parse (eof :: rest) = Ok (mkProgram [] 1 1).
Proof. exact parse_at_end. Qed.

Lemma parse_empty_program_witness :
  parse (mkToken EOF "" 3 1 :: [mkToken NUMBER "5" 3 2]) = Ok (mkProgram [] 1 1).
Proof.
  apply (parse_empty_program (mkToken EOF "" 3 1) [mkToken NUMBER "5" 3 2]).
  reflexivity.
Defined.

(** X20. Parentheses do not group.  At a punctuation token other than
    the opening square bracket (an opening parenthesis among them),
    [primary] consumes it and, unless a punctuation token follows, takes
    only an identifier: an identifier behind it is returned as if the
    punctuation were not there, and a number, string, keyword, operator
    or the end of input is an "Unexpected token" error at that token. *)
Theorem parenthesis_does_not_group :
  forall (tokens : list Token) (fuel current : nat) (p t : Token),
    nth_error tokens current = Some p ->
    type p = PUNCTUATION ->
    value p <> "["%string ->
    nth_error tokens (S current) = Some t ->
    type t <> PUNCTUATION ->
    Parser.primary tokens (S fuel) current
    = if TokenType_eqb (type t) IDENTIFIER
      then Ok (Identifier (value t) (line t) (column t), S (S current))
      else Throw (unexpectedToken t).
Proof. exact primary_punctuation. Qed.

Lemma parenthesis_does_not_group_witness :
  Parser.primary
    [mkToken PUNCTUATION "(" 1 1; mkToken NUMBER "1" 1 2; mkToken PUNCTUATION ")" 1 3;
     mkToken EOF "" 1 4] (S 0) 0
  = if TokenType_eqb (type (mkToken NUMBER "1" 1 2)) IDENTIFIER
    then Ok (Identifier (value (mkToken NUMBER "1" 1 2))
                        (line (mkToken NUMBER "1" 1 2))
                        (column (mkToken NUMBER "1" 1 2)), S (S 0))
    else Throw (unexpectedToken (mkToken NUMBER "1" 1 2)).
Proof.
  apply (parenthesis_does_not_group
           [mkToken PUNCTUATION "(" 1 1; mkToken NUMBER "1" 1 2;
            mkToken PUNCTUATION ")" 1 3; mkToken EOF "" 1 4] 0 0
           (mkToken PUNCTUATION "(" 1 1) (mkToken NUMBER "1" 1 2));
    try reflexivity; discriminate.
Defined.

(** X21. The empty array literal.  An opening square bracket directly
    followed by the closing one is the array literal without elements,
    at the line and column of the opening bracket. *)
Theorem empty_array_literal :
  forall (tokens : list Token) (fuel current : nat) (p q : Token),
    nth_error tokens current = Some p ->
    type p = PUNCTUATION -> value p = "["%string ->
    nth_error tokens (S current) = Some q ->
    type q = PUNCTUATION -> value q = "]"%string ->
    Parser.primary tokens (S (S fuel)) current
    = Ok (ArrayLiteral [] (line p) (column p), S (S current)).
Proof. exact primary_empty_array. Qed.

Lemma empty_array_literal_witness :
  Parser.primary
    [mkToken PUNCTUATION "[" 1 1; mkToken PUNCTUATION "]" 1 2; mkToken EOF "" 1 3]
    (S (S 0)) 0
  = Ok (ArrayLiteral [] (line (mkToken PUNCTUATION "[" 1 1))
                     (column (mkToken PUNCTUATION "[" 1 1)), S (S 0)).
Proof.
  apply (empty_array_literal
           [mkToken PUNCTUATION "[" 1 1; mkToken PUNCTUATION "]" 1 2;
            mkToken EOF "" 1 3] 0 0
           (mkToken PUNCTUATION "[" 1 1) (mkToken PUNCTUATION "]" 1 2));
    reflexivity.
Defined.

(** X22. A call without arguments.  A number, string or identifier
    token followed by an opening and a closing parenthesis, with no
    punctuation token behind them, is the call of the node [primary]
    builds from the first token, with no arguments, at the line and
    column of the opening parenthesis. *)
Theorem call_without_arguments :
  forall (tokens : list Token) (fuel current : nat) (f p q t : Token),
    nth_error tokens current = Some f ->
    isLeafType (type f) = true ->
    nth_error tokens (S current) = Some p ->
    type p = PUNCTUATION -> value p = "("%string ->
    nth_error tokens (S (S current)) = Some q ->
    type q = PUNCTUATION -> value q = ")"%string ->
    nth_error tokens (S (S (S current))) = Some t ->
    type t <> PUNCTUATION ->
    exists callee : Expression,
      leafNode f callee
      /\ Parser.primary tokens (S fuel) current = Ok (callee, S current)
      /\ Parser.call tokens (S (S (S fuel))) current
         = Ok (CallExpression callee [] (line p) (column p), S (S (S current))).
Proof.
  intros tokens fuel current f p q t Hf Hleaf Hp Hpty Hpv Hq Hqty Hqv Ht Hty.
  exists (leafOf f). split; [now apply leafOf_leafNode|]. split.
  - now apply primary_leaf.
  - now apply (call_no_arguments tokens fuel current f p q t).
Qed.

(** The tokens of f(). *)
Lemma call_without_arguments_witness :
  Parser.call
    [mkToken IDENTIFIER "f" 1 1; mkToken PUNCTUATION "(" 1 2;
     mkToken PUNCTUATION ")" 1 3; mkToken EOF "" 1 4] (S (S (S 0))) 0
  = Ok (CallExpression (Identifier "f" 1 1) [] 1 2, 3).
Proof.
  destruct (call_without_arguments
              [mkToken IDENTIFIER "f" 1 1; mkToken PUNCTUATION "(" 1 2;
               mkToken PUNCTUATION ")" 1 3; mkToken EOF "" 1 4] 0 0
              (mkToken IDENTIFIER "f" 1 1) (mkToken PUNCTUATION "(" 1 2)
              (mkToken PUNCTUATION ")" 1 3) (mkToken EOF "" 1 4)
              eq_refl eq_refl eq_refl eq_refl eq_refl eq_refl eq_refl eq_refl
              eq_refl ltac:(discriminate))
    as (callee & Hnode & _ & Hcall).
  rewrite Hcall. cbv in Hnode. now rewrite Hnode.
Defined.

(** X23. An unclosed block.  A block body that meets the end of input
    throws the text of a closing brace alone, followed by the line and
    column of the end-of-input token; the opening brace is not named. *)
Theorem unclosed_block :
  forall (tokens : list Token) (fuel current : nat) (p eof : Token),
    nth_error tokens current = Some p ->
    nth_error tokens (S current) = Some eof ->
    type eof = EOF ->
    Parser.blockStatement tokens (S (S fuel)) (S current) = Throw (errorOf "}" eof).
Proof. exact blockStatement_at_end. Qed.

Lemma unclosed_block_witness :
  Parser.blockStatement [mkToken PUNCTUATION "{" 1 1; mkToken EOF "" 1 2]
                        (S (S 0)) (S 0)
  = Throw (errorOf "}" (mkToken EOF "" 1 2)).
Proof.
  apply (unclosed_block [mkToken PUNCTUATION "{" 1 1; mkToken EOF "" 1 2] 0 0
                        (mkToken PUNCTUATION "{" 1 1) (mkToken EOF "" 1 2));
    reflexivity.
Defined.

End ParserExtras.

(** ** Numerals *)

Module Numerals.

Lemma readDigits_step (c : ascii) (s : string) (z : Z) (k : nat) :
  isDigit c = true ->
  readDigits (String c s) z k
  = readDigits s (10 * z + Z.of_nat (nat_of_ascii c - 48))%Z (S k).
Proof. intros H. cbn [readDigits]. now rewrite H. Qed.

Lemma readDigits_uint (d : Decimal.uint) :
  forall (acc k : nat),
    readDigits (NilEmpty.string_of_uint d) (Z.of_nat acc) k
    = (Z.of_nat (Nat.of_uint_acc d acc), k + Decimal.nb_digits d, ""%string).
Proof.
  induction d; intros acc k;
    cbn [NilEmpty.string_of_uint Nat.of_uint_acc Decimal.nb_digits].
  1: { cbn [readDigits]. now rewrite Nat.add_0_r. }
  all: rewrite readDigits_step by reflexivity.
  all: rewrite Nat.tail_mul_spec.
  all: match goal with
       | |- readDigits _ ?z _ = (Z.of_nat (Nat.of_uint_acc _ ?a), _, _) =>
           replace z with (Z.of_nat a)
       end.
  all: try (match goal with IH : forall _ _, _ |- _ => rewrite IH end; f_equal; f_equal; lia).
  all: match goal with
       | |- context [nat_of_ascii ?c - 48] =>
           let v := eval vm_compute in (nat_of_ascii c - 48) in
           change (nat_of_ascii c - 48) with v
       end; lia.
Qed.

Lemma digits_uint (d : Decimal.uint) :
  allChars isDigit (NilEmpty.string_of_uint d) = true.
Proof. induction d; cbn [NilEmpty.string_of_uint allChars]; try reflexivity; exact IHd. Qed.

(** The numeral of a number: a digit, then digits, denoting the number. *)
Lemma showNat_digits (n : nat) :
  exists (c : ascii) (d : string) (k : nat),
    showNat n = String c d
    /\ isDigit c = true /\ allChars isDigit d = true
    /\ readDigits (String c d) 0%Z 0 = (Z.of_nat n, S k, ""%string).
Proof.
  unfold showNat. pose proof (DecimalNat.Unsigned.of_to n) as E. unfold Nat.of_uint in E.
  destruct (Nat.to_uint n) as [|d|d|d|d|d|d|d|d|d|d] eqn:U;
    cbn [NilZero.string_of_uint NilEmpty.string_of_uint].
  1: { exists "0"%char, ""%string, 0. cbn in E. subst n.
       split; [reflexivity|]. split; [reflexivity|]. split; reflexivity. }
  all: eexists; eexists; exists (Decimal.nb_digits d); split; [reflexivity|];
    split; [reflexivity|]; split; [apply digits_uint|]; rewrite <- E.
  all: match goal with
       | |- _ = (Z.of_nat (Nat.of_uint_acc ?u 0), _, _) =>
           exact (readDigits_uint u 0 0)
       end.
Qed.

Lemma digit_plain (c : ascii) :
  isDigit c = true ->
  isSpace c = false /\ c <> "-"%char /\ c <> "+"%char /\ c <> "I"%char.
Proof.
  destruct c as [[] [] [] [] [] [] [] []]; intros H; try discriminate H;
    repeat split; try reflexivity; discriminate.
Qed.

Lemma roundHalfEven_one (n : Z) : roundHalfEven n 1 = n.
Proof.
  unfold roundHalfEven. rewrite Z.div_1_r, Z.mod_1_r. reflexivity.
Qed.

Lemma Qred_integer (n : Z) : Qred (Qmake n 1) = Qmake n 1.
Proof.
  unfold Qred. pose proof (Z.ggcd_gcd n 1) as G.
  pose proof (Z.ggcd_correct_divisors n 1) as D.
  destruct (Z.ggcd n (Zpos 1)) as [g [a b]]. cbn [fst snd] in *.
  rewrite Z.gcd_1_r in G. subst g. destruct D as [D1 D2].
  rewrite Z.mul_1_l in D1, D2. subst a b. reflexivity.
Qed.

(** A whole number below 2^53 is a double. *)
Lemma roundToDouble_integer (n : Z) :
  (0 < n < 2 ^ 53)%Z -> roundToDouble n 1 = Some (Qmake n 1).
Proof.
  intros [Hpos Hlt]. unfold roundToDouble.
  change (Z.log2 1) with 0%Z. rewrite Z.sub_0_r.
  pose proof (Z.log2_nonneg n) as L0.
  assert (L1 : (Z.log2 n < 53)%Z) by (apply Z.log2_lt_pow2; assumption).
  destruct (Z.log2_spec n Hpos) as [S1 S2].
  assert (R0 : (0 <=? Z.log2 n)%Z = true) by (apply Z.leb_le; exact L0).
  rewrite R0.
  assert (R1 : (1 * 2 ^ Z.log2 n <=? n)%Z = true) by (apply Z.leb_le; lia).
  rewrite R1.
  assert (R2 : Z.max (Z.log2 n - 52) (-1074) = (Z.log2 n - 52)%Z) by lia.
  rewrite R2.
  destruct (Z.eq_dec (Z.log2 n) 52) as [E|E].
  - rewrite E. change (52 - 52)%Z with 0%Z. change (0 <=? 0)%Z with true. cbv iota.
    change (1 * 2 ^ 0)%Z with 1%Z. rewrite roundHalfEven_one.
    change (2 ^ 0)%Z with 1%Z. rewrite Z.mul_1_r.
    assert (R3 : (2 ^ 1024 <=? n)%Z = false).
    { apply Z.leb_gt. apply Z.lt_trans with (2 ^ 53)%Z; [assumption|].
      apply Z.pow_lt_mono_r; lia. }
    rewrite R3. now rewrite Qred_integer.
  - assert (R3 : (0 <=? Z.log2 n - 52)%Z = false) by (apply Z.leb_gt; lia).
    rewrite R3. rewrite roundHalfEven_one. f_equal.
    rewrite <- (Qred_integer n). apply Qred_complete.
    unfold Qeq. cbn [Qnum Qden].
    assert (P : (0 < 2 ^ (- (Z.log2 n - 52)))%Z) by (apply Z.pow_pos_nonneg; lia).
    rewrite Z2Pos.id by exact P. lia.
Qed.

(** [parseFloat] reads the numeral of a number below 2^53 as that
    number. *)
Lemma parseFloat_showNat (n : nat) :
  (Z.of_nat n < 2 ^ 53)%Z -> parseFloat (showNat n) = Finite (Qmake (Z.of_nat n) 1).
Proof.
  intros Hlt.
  destruct (showNat_digits n) as (c & d & k & -> & Hc & Hd & Hread).
  destruct (digit_plain c Hc) as (Hsp & Hminus & Hplus & HI).
  unfold parseFloat. cbn [trimStart]. rewrite Hsp.
  assert (Hsign : match String c d with
                  | String "-"%char u => (true, u)
                  | String "+"%char u => (false, u)
                  | _ => (false, String c d)
                  end = (false, String c d)).
  { destruct c as [[] [] [] [] [] [] [] []]; try reflexivity;
      [now elim Hplus | now elim Hminus]. }
  rewrite Hsign.
  assert (Hinf : prefix_eqb "Infinity" (String c d) = false).
  { cbn [prefix_eqb]. apply andb_false_iff. left. apply Ascii.eqb_neq. congruence. }
  rewrite Hinf. unfold readDecimal. rewrite Hread. cbn [Nat.eqb readExponent].
  destruct (Z.eqb_spec (Z.of_nat n) 0) as [E|E].
  - rewrite E. reflexivity.
  - change (10 ^ 0)%Z with 1%Z. rewrite Z.mul_1_r. change (0 <=? 0)%Z with true.
    cbv iota. rewrite roundToDouble_integer by lia.
    destruct (Z.of_nat n) eqn:Z0; [now elim E | reflexivity | lia].
Qed.

End Numerals.

(** ** From the text to the tree *)

Module EndToEnd.
Import LexerFacts LexerTheorems LexerProgress LexerTermination LexerStretches.
Import LexerExtras2 OneToken Numerals.

Lemma parseSource_one (code : string) (t : Token) (L' : Lexer.Lexer) :
  Lexer.getNextToken (lexerAt code 0 1 1) = Ok (t, L') ->
  isLeafType (type t) = true ->
  consistent L' ->
  Lexer.code L' = code ->
  Lexer.position L' = String.length code ->
  parseSource code
  = Ok (mkProgram [ExpressionStatement (leafOf t) (line t) (column t)] 1 1).
Proof.
  intros G Hleaf C K P. unfold parseSource.
  rewrite (tokenize_one code t L' G); try assumption.
  - apply parse_single_leaf; [assumption | reflexivity].
  - intros E. rewrite E in Hleaf. discriminate.
Qed.

(** X24. A program that is one name.  A text that is a single word of
    letters, digits and underscores, not starting with a digit and
    being neither a keyword nor a word operator in lower case, parses to
    one expression statement holding the identifier, both at line 1,
    column 1. *)
Theorem identifier_program :
  forall (w : string) (c : ascii),
    isIdentStart c = true ->
    allChars isIdentChar w = true ->
    includes KEYWORDS (toLowerCase (String c w)) = false ->
    includes OPERATORS (toLowerCase (String c w)) = false ->
    parseSource (String c w)
    = Ok (mkProgram
            [ExpressionStatement (Identifier (String c w) 1 1) 1 1] 1 1).
Proof.
  intros w c Hc Hw Hk Ho.
  assert (Hcw : allChars isIdentChar (String c w) = true).
  { cbn [allChars]. destruct (identStart_dispatch c Hc) as (_ & _ & _ & _ & _ & K).
    now rewrite K, Hw. }
  pose proof (getNextToken_identifier "" "" w c 1 1 Hc) as G.
  pose proof (identifier_stretch "" (String c w) "" 1 1 Hcw eq_refl) as I.
  cbv zeta in G, I. cbn [append String.length] in G, I.
  rewrite sapp_nil_r in G, I. rewrite I in G. clear I.
  unfold Lexer.classify in G. rewrite Hk, Ho in G.
  set (L0 := lexerAt (String c w) 0 1 1) in *.
  set (L' := Nat.iter (S (String.length w)) Lexer.advance L0) in *.
  assert (Hline : Lexer.line L' = 1).
  { unfold L', L0. rewrite line_at_end.
    rewrite (newlinesIn_free isIdentChar w); [reflexivity | reflexivity | exact Hw]. }
  rewrite Hline in G.
  rewrite (parseSource_one (String c w) _ L' G); try reflexivity.
  - apply iter_advance_consistent. reflexivity.
  - unfold L'. now rewrite iter_advance_code.
  - unfold L'. rewrite iter_advance_position. reflexivity.
Qed.

Lemma identifier_program_witness :
  parseSource (String "s" "humar")
  = Ok (mkProgram
          [ExpressionStatement (Identifier (String "s" "humar") 1 1) 1 1] 1 1).
Proof. apply (identifier_program "humar" "s"); reflexivity. Defined.

(** X25. A program that is one string literal.  A text that is a quote,
    characters other than that quote, and the same quote, parses to one
    expression statement holding the string literal with the characters
    as written.  Both nodes carry column 1 and the line on which the
    literal ends: 1 plus the number of line feeds in the literal. *)
Theorem string_literal_program :
  forall (s : string) (q : ascii),
    q = dquote \/ q = squote ->
    allChars (fun c => negb (Ascii.eqb c q)) s = true ->
    parseSource (String q (s ++ str q))
    = Ok (mkProgram
            [ExpressionStatement (StringLiteral s (1 + newlinesIn s) 1)
                                 (1 + newlinesIn s) 1] 1 1).
Proof.
  intros s q Hq Hs.
  pose proof (getNextToken_string "" (s ++ str q) q 1 1 Hq) as G.
  pose proof (string_stretch "" s "" q 1 1 Hs) as T.
  cbv zeta in G, T. cbn [append String.length] in G, T. fold (str q) in T.
  rewrite T in G. clear T.
  set (L0 := lexerAt (String q (s ++ str q)) 0 1 1) in *.
  set (L' := Nat.iter (String.length s + 2) Lexer.advance L0) in *.
  assert (Hline : Lexer.line L' = 1 + newlinesIn s).
  { unfold L', L0.
    replace (String.length s + 2) with (S (String.length (s ++ str q)))
      by (rewrite slength_app; cbn [String.length str]; lia).
    rewrite line_at_end, newlinesIn_app.
    destruct Hq as [-> | ->]; cbn; lia. }
  rewrite Hline in G.
  rewrite (parseSource_one (String q (s ++ str q)) _ L' G); try reflexivity.
  - unfold L'. replace (String.length s + 2) with (S (String.length s + 1)) by lia.
    rewrite Nat.iter_succ. apply advance_consistent.
  - unfold L'. now rewrite iter_advance_code.
  - unfold L'. rewrite iter_advance_position. cbn [Lexer.position L0 lexerAt].
    cbn [String.length]. rewrite slength_app. cbn [String.length str]. lia.
Qed.

Lemma string_literal_program_witness :
  parseSource (String squote (("Salam" ++ str newline ++ "Ji") ++ str squote))
  = Ok (mkProgram
          [ExpressionStatement
             (StringLiteral ("Salam" ++ str newline ++ "Ji")
                            (1 + newlinesIn ("Salam" ++ str newline ++ "Ji")) 1)
             (1 + newlinesIn ("Salam" ++ str newline ++ "Ji")) 1] 1 1).
Proof.
  apply (string_literal_program ("Salam" ++ str newline ++ "Ji") squote).
  - right; reflexivity.
  - reflexivity.
Defined.

(** X26. A program that is one integer.  A text that is a stretch of
    digits parses to one expression statement holding one numeric
    literal, both at line 1, column 1.  Where the text is the decimal
    numeral of a number below 2^53, the value of the literal is that
    number. *)
Theorem integer_program :
  forall (d : string) (c : ascii),
    isDigit c = true ->
    allChars isDigit d = true ->
    exists v : Number,
      parseSource (String c d)
      = Ok (mkProgram [ExpressionStatement (NumericLiteral v 1 1) 1 1] 1 1)
      /\ (forall n : nat,
             String c d = showNat n ->
             (Z.of_nat n < 2 ^ 53)%Z ->
             v = Finite (Z.of_nat n # 1)).
Proof.
  intros d c Hc Hd. exists (parseFloat (String c d)). split.
  - pose proof (getNextToken_digits "" d "" c 1 1 Hc Hd eq_refl) as G.
    cbn [append String.length] in G. rewrite sapp_nil_r in G.
    set (L0 := lexerAt (String c d) 0 1 1) in *.
    set (L' := Nat.iter (S (String.length d)) Lexer.advance L0) in *.
    assert (Hline : Lexer.line L' = 1).
    { unfold L', L0. rewrite line_at_end.
      rewrite (newlinesIn_free isDigit d); [reflexivity | reflexivity | exact Hd]. }
    rewrite Hline in G.
    rewrite (parseSource_one (String c d) _ L' G); try reflexivity.
    + apply iter_advance_consistent. reflexivity.
    + unfold L'. now rewrite iter_advance_code.
    + unfold L'. rewrite iter_advance_position. reflexivity.
  - intros n E Hlt. rewrite E. now apply parseFloat_showNat.
Qed.

(** The text 42. *)
Lemma integer_program_witness :
  parseSource "42"
  = Ok (mkProgram [ExpressionStatement (NumericLiteral (Finite (42 # 1)) 1 1) 1 1] 1 1).
Proof.
  destruct (integer_program "2" "4" eq_refl eq_refl) as (v & Hparse & Hvalue).
  rewrite Hparse. now rewrite (Hvalue 42 eq_refl eq_refl).
Defined.

End EndToEnd.

(** ** The parser: the index never passes the end of input *)

Module ParserBounds.
Import Parser.

Section Bounds.

Variable tokens : list Token.
Variable e : nat.
Variable eofToken : Token.
Hypothesis at_e : nth_error tokens e = Some eofToken.
Hypothesis is_end : type eofToken = EOF.

Lemma within_ret (A : Type) (a : A) : within e (ret a).
Proof. intros c x c' Hc H. injection H as _ <-. lia. Qed.

Lemma within_throw (A : Type) (x : Exn) : within e (@throw A x).
Proof. intros c a c' Hc H. discriminate. Qed.

Lemma within_outOfFuel (A : Type) : within e (@outOfFuel A).
Proof. intros c a c' Hc H. discriminate. Qed.

Lemma within_bind (A B : Type) (m : M A) (f : A -> M B) :
  within e m -> (forall a, within e (f a)) -> within e (bind m f).
Proof.
  intros Hm Hf c b c' Hc H. unfold bind in H.
  destruct (m c) as [[a c1]|x|] eqn:E; try discriminate.
  destruct (Hm c a c1 Hc E) as [H1 H2].
  destruct (Hf a c1 b c' H2 H) as [H3 H4]. lia.
Qed.

Lemma within_peek : within e (peek tokens).
Proof.
  intros c a c' Hc H. unfold peek in H.
  destruct (nth_error tokens c); [|discriminate]. injection H as _ <-. lia.
Qed.

Lemma within_previous : within e (previous tokens).
Proof.
  intros c a c' Hc H. unfold previous in H. destruct c as [|c]; [discriminate|].
  destruct (nth_error tokens c); [|discriminate]. injection H as _ <-. lia.
Qed.

Lemma within_isAtEnd : within e (isAtEnd tokens).
Proof.
  unfold isAtEnd. apply within_bind; [apply within_peek | intros; apply within_ret].
Qed.

(** The only step forward: [advance] stands still at an end-of-input
    token, so it cannot step over the one at [e]. *)
Lemma within_advance : within e (advance tokens).
Proof.
  intros c a c' Hc H. unfold advance, bind, isAtEnd, bind, peek, ret in H.
  destruct (nth_error tokens c) as [t|] eqn:Ht; [|discriminate].
  destruct (TokenType_eqb (type t) EOF) eqn:E.
  - destruct (within_previous c a c' Hc H). lia.
  - assert (c <> e).
    { intros ->. rewrite at_e in Ht. injection Ht as <-. rewrite is_end in E.
      discriminate. }
    unfold previous in H. destruct (nth_error tokens c); [|discriminate].
    injection H as _ <-. lia.
Qed.

Lemma within_check (ty : TokenType) (v : option string) : within e (check tokens ty v).
Proof.
  unfold check. apply within_bind; [apply within_isAtEnd|]. intros [|].
  - apply within_ret.
  - apply within_bind; [apply within_peek|]. intros t.
    destruct v as [[|a v]|]; apply within_ret.
Qed.

Lemma within_match (types : list TokenType) : within e (match_ tokens types).
Proof.
  induction types as [|ty types IH]; cbn [match_]; [apply within_ret|].
  apply within_bind; [apply within_check|]. intros [|]; [|exact IH].
  apply within_bind; [apply within_advance | intros; apply within_ret].
Qed.

Lemma within_matchValue (ty : TokenType) (v : string) :
  within e (matchValue tokens ty v).
Proof.
  unfold matchValue. apply within_bind; [apply within_check|]. intros [|].
  - apply within_bind; [apply within_advance | intros; apply within_ret].
  - apply within_ret.
Qed.

Lemma within_errorAt (A : Type) (message : string) : within e (@errorAt tokens A message).
Proof.
  unfold errorAt. apply within_bind; [apply within_peek | intros; apply within_throw].
Qed.

Lemma within_consume (ty : TokenType) (message : string) :
  within e (consume tokens ty message).
Proof.
  unfold consume. apply within_bind; [apply within_check|]. intros [|].
  - apply within_advance.
  - apply within_errorAt.
Qed.

Lemma within_consumeValue (ty : TokenType) (v message : string) :
  within e (consumeValue tokens ty v message).
Proof.
  unfold consumeValue. apply within_bind; [apply within_check|]. intros [|].
  - apply within_advance.
  - apply within_errorAt.
Qed.

Lemma within_matchThenValue (ty : TokenType) (accept : string -> bool) :
  within e (matchThenValue tokens ty accept).
Proof.
  unfold matchThenValue. apply within_bind; [apply within_match|]. intros [|].
  - apply within_bind; [apply within_previous | intros; apply within_ret].
  - apply within_ret.
Qed.

Lemma within_optionalSemicolon : within e (optionalSemicolon tokens).
Proof.
  unfold optionalSemicolon.
  apply within_bind; [apply within_matchThenValue | intros; apply within_ret].
Qed.

Lemma within_whilePush (A : Type) (cond : M bool) (body : M A) :
  within e cond -> within e body ->
  forall (fuel : nat) (acc : list A), within e (whilePush cond body fuel acc).
Proof.
  intros Hc Hb. induction fuel as [|fuel IH]; intros acc; cbn [whilePush].
  - apply within_outOfFuel.
  - apply within_bind; [exact Hc|]. intros [|]; [|apply within_ret].
    apply within_bind; [exact Hb|]. intros x. apply IH.
Qed.

Lemma within_doWhileComma (A : Type) (body : M A) :
  within e body ->
  forall (fuel : nat) (acc : list A), within e (doWhileComma tokens body fuel acc).
Proof.
  intros Hb. induction fuel as [|fuel IH]; intros acc; cbn [doWhileComma].
  - apply within_outOfFuel.
  - apply within_bind; [exact Hb|]. intros x.
    apply within_bind; [apply within_matchThenValue|]. intros [|];
      [apply IH | apply within_ret].
Qed.

Lemma within_parseBinaryLoop (nextMethod : M Expression) (operators : list string) :
  within e nextMethod ->
  forall (fuel : nat) (expr : Expression),
    within e (parseBinaryLoop tokens nextMethod operators fuel expr).
Proof.
  intros Hn. induction fuel as [|fuel IH]; intros expr; cbn [parseBinaryLoop].
  - apply within_outOfFuel.
  - apply within_bind; [apply within_match|]. intros [|]; [|apply within_ret].
    apply within_bind; [apply within_previous|]. intros p.
    destruct (includes operators (value p)); [|apply within_ret].
    apply within_bind; [exact Hn|]. intros right.
    apply within_bind; [apply within_previous|]. intros q. apply IH.
Qed.

Lemma within_parseBinaryExpression (nextMethod : M Expression)
      (operators : list string) (fuel : nat) :
  within e nextMethod ->
  within e (parseBinaryExpression tokens nextMethod operators fuel).
Proof.
  intros Hn. unfold parseBinaryExpression. apply within_bind; [exact Hn|].
  intros expr. now apply within_parseBinaryLoop.
Qed.

Lemma within_callLoop (finish : Expression -> M Expression) :
  (forall callee, within e (finish callee)) ->
  forall (fuel : nat) (expr : Expression), within e (callLoop tokens finish fuel expr).
Proof.
  intros Hf. induction fuel as [|fuel IH]; intros expr; cbn [callLoop].
  - apply within_outOfFuel.
  - apply within_bind; [apply within_matchThenValue|]. intros [|]; [|apply within_ret].
    apply within_bind; [apply Hf|]. intros x. apply IH.
Qed.

(** One step of the proof that a method stays within the bound. *)
Ltac within_step :=
  first
    [ assumption
    | apply within_ret | apply within_throw | apply within_outOfFuel
    | apply within_peek | apply within_previous | apply within_isAtEnd
    | apply within_advance | apply within_check | apply within_match
    | apply within_matchValue | apply within_consume | apply within_consumeValue
    | apply within_matchThenValue | apply within_optionalSemicolon
    | apply within_whilePush | apply within_doWhileComma
    | apply within_parseBinaryExpression | apply within_callLoop
    | apply within_bind; [|intros ?]
    | match goal with
      | |- within _ (if ?b then _ else _) => destruct b
      | |- forall _, _ => intros ?
      end ].

(** All methods of the grammar stay within the bound. *)
Lemma all_within (fuel : nat) :
  within e (declaration tokens fuel)
  /\ within e (functionDeclaration tokens fuel)
  /\ within e (statement tokens fuel)
  /\ within e (ifStatement tokens fuel)
  /\ within e (whileStatement tokens fuel)
  /\ within e (forStatement tokens fuel)
  /\ within e (returnStatement tokens fuel)
  /\ within e (blockStatement tokens fuel)
  /\ within e (expressionStatement tokens fuel)
  /\ within e (expression tokens fuel)
  /\ within e (assignment tokens fuel)
  /\ within e (equality tokens fuel)
  /\ within e (comparison tokens fuel)
  /\ within e (addition tokens fuel)
  /\ within e (multiplication tokens fuel)
  /\ within e (unary tokens fuel)
  /\ within e (call tokens fuel)
  /\ (forall callee, within e (finishCall tokens fuel callee))
  /\ within e (primary tokens fuel)
  /\ within e (arrayLiteral tokens fuel).
Proof.
  induction fuel as [|fuel IH].
  - repeat match goal with |- _ /\ _ => split end;
      first [apply within_outOfFuel | intros ?; apply within_outOfFuel].
  - destruct IH as (D & FD & ST & IFS & WS & FS & RS & BS & ES & EX & AS & EQ & CP
                    & AD & MU & UN & CA & FC & PR & AL).
    repeat match goal with |- _ /\ _ => split end.
    + cbn [declaration]. repeat within_step.
    + cbn [functionDeclaration]. repeat within_step.
    + cbn [statement]. repeat within_step.
    + cbn [ifStatement]. repeat within_step.
    + cbn [whileStatement]. repeat within_step.
    + cbn [forStatement]. repeat within_step.
    + cbn [returnStatement]. repeat within_step.
    + cbn [blockStatement]. repeat within_step.
    + cbn [expressionStatement]. repeat within_step.
    + cbn [expression]. repeat within_step.
    + cbn [assignment]. repeat within_step.
    + cbn [equality]. repeat within_step.
    + cbn [comparison]. repeat within_step.
    + cbn [addition]. repeat within_step.
    + cbn [multiplication]. repeat within_step.
    + cbn [unary]. repeat within_step.
    + cbn [call]. repeat within_step.
    + intros callee. cbn [finishCall]. repeat within_step.
    + cbn [primary]. repeat within_step.
    + cbn [arrayLiteral]. repeat within_step.
Qed.

(** *** Progress *)

Lemma advancing_throw (A : Type) (x : Exn) : advancing e (@throw A x).
Proof. intros c a c' Hc H. discriminate. Qed.

Lemma advancing_outOfFuel (A : Type) : advancing e (@outOfFuel A).
Proof. intros c a c' Hc H. discriminate. Qed.

Lemma advancing_bind_l (A B : Type) (m : M A) (f : A -> M B) :
  advancing e m -> (forall a, within e (f a)) -> advancing e (bind m f).
Proof.
  intros Hm Hf c b c' Hc H. unfold bind in H.
  destruct (m c) as [[a c1]|x|] eqn:E; try discriminate.
  destruct (Hm c a c1 Hc E) as [H1 H2].
  destruct (Hf a c1 b c' H2 H) as [H3 H4]. lia.
Qed.

Lemma advancing_bind_r (A B : Type) (m : M A) (f : A -> M B) :
  within e m -> (forall a, advancing e (f a)) -> advancing e (bind m f).
Proof.
  intros Hm Hf c b c' Hc H. unfold bind in H.
  destruct (m c) as [[a c1]|x|] eqn:E; try discriminate.
  destruct (Hm c a c1 Hc E) as [H1 H2].
  destruct (Hf a c1 b c' H2 H) as [H3 H4]. lia.
Qed.

Lemma advancing_decide (A : Type) (m : M bool) (yes no : M A) :
  deciding e m -> within e yes -> advancing e no ->
  advancing e (bind m (fun b => if b then yes else no)).
Proof.
  intros Hm Hy Hn c a c' Hc H. unfold bind in H.
  destruct (m c) as [[b c1]|x|] eqn:E; try discriminate.
  destruct (Hm c b c1 Hc E) as (H1 & H2 & H3). destruct b.
  - destruct (Hy c1 a c' H2 H). specialize (H3 eq_refl). lia.
  - destruct (Hn c1 a c' H2 H). lia.
Qed.

(** A check that answers yes stands at a token that is not the end. *)
Lemma check_yes (ty : TokenType) (v : option string) (c c' : nat) :
  check tokens ty v c = Ok (true, c') ->
  c' = c /\ exists t, nth_error tokens c = Some t /\ type t <> EOF.
Proof.
  destruct (nth_error tokens c) as [t|] eqn:Ht.
  - rewrite (ParserFacts.check_at tokens c t ty v Ht).
    destruct (TokenType_eqb (type t) EOF) eqn:E; [discriminate|].
    intros H. injection H as _ <-. split; [reflexivity|].
    exists t. split; [reflexivity|]. intros Q. rewrite Q in E. discriminate.
  - unfold check, bind, isAtEnd, bind, peek. rewrite Ht. discriminate.
Qed.

Lemma check_still (ty : TokenType) (v : option string) (c c' : nat) (b : bool) :
  check tokens ty v c = Ok (b, c') -> c' = c.
Proof.
  destruct (nth_error tokens c) as [t|] eqn:Ht.
  - rewrite (ParserFacts.check_at tokens c t ty v Ht).
    intros H. injection H as _ <-. reflexivity.
  - unfold check, bind, isAtEnd, bind, peek. rewrite Ht. discriminate.
Qed.

Lemma advance_from (c : nat) (t : Token) :
  nth_error tokens c = Some t -> type t <> EOF -> advance tokens c = Ok (t, S c).
Proof.
  intros H Hne. unfold advance, bind, isAtEnd, bind, peek, ret, previous. rewrite H.
  destruct (type t) eqn:E; try (now elim Hne); cbn [TokenType_eqb]; now rewrite H.
Qed.

Lemma deciding_match (types : list TokenType) : deciding e (match_ tokens types).
Proof.
  induction types as [|ty types IH]; cbn [match_].
  - intros c b c' Hc H. injection H as <- <-. split; [lia|]. split; [lia|]. intros Q; discriminate Q.
  - intros c b c' Hc H. unfold bind in H.
    destruct (check tokens ty None c) as [[k c1]|x|] eqn:E; try discriminate.
    destruct k.
    + destruct (check_yes ty None c c1 E) as (-> & t & Ht & Hne).
      rewrite (advance_from c t Ht Hne) in H. injection H as <- <-.
      assert (c <> e).
      { intros ->. rewrite at_e in Ht. injection Ht as <-. now elim Hne. }
      split; [lia|]. split; [lia|]. intros _; lia.
    + rewrite (check_still ty None c c1 false E) in H. exact (IH c b c' Hc H).
Qed.

Lemma deciding_matchValue (ty : TokenType) (v : string) :
  deciding e (matchValue tokens ty v).
Proof.
  intros c b c' Hc H. unfold matchValue, bind in H.
  destruct (check tokens ty (Some v) c) as [[k c1]|x|] eqn:E; try discriminate.
  destruct k.
  - destruct (check_yes ty (Some v) c c1 E) as (-> & t & Ht & Hne).
    rewrite (advance_from c t Ht Hne) in H. injection H as <- <-.
    assert (c <> e).
    { intros ->. rewrite at_e in Ht. injection Ht as <-. now elim Hne. }
    split; [lia|]. split; [lia|]. intros _; lia.
  - rewrite (check_still ty (Some v) c c1 false E) in H. injection H as <- <-.
    split; [lia|]. split; [lia|]. intros Q; discriminate Q.
Qed.

Lemma deciding_matchThenValue (ty : TokenType) (accept : string -> bool) :
  deciding e (matchThenValue tokens ty accept).
Proof.
  intros c b c' Hc H. unfold matchThenValue, bind in H.
  destruct (match_ tokens [ty] c) as [[k c1]|x|] eqn:E; try discriminate.
  destruct (deciding_match [ty] c k c1 Hc E) as (H1 & H2 & H3).
  destruct k.
  - destruct (previous tokens c1) as [[p c2]|x|] eqn:P; try discriminate.
    destruct (within_previous c1 p c2 H2 P). injection H as _ <-.
    specialize (H3 eq_refl). split; [lia|]. split; [lia|]. intros _; lia.
  - injection H as <- <-. split; [lia|]. split; [lia|]. intros Q; discriminate Q.
Qed.

(** One step of the proof that a method consumes a token. *)
Ltac advancing_step :=
  first
    [ assumption
    | apply advancing_throw | apply advancing_outOfFuel
    | apply advancing_decide;
      [ first [apply deciding_match | apply deciding_matchValue
               | apply deciding_matchThenValue]
      | repeat within_step | ] ].

(** The methods through which an expression statement is parsed
    consume a token whenever they succeed. *)
Lemma all_advancing (fuel : nat) :
  advancing e (declaration tokens fuel)
  /\ advancing e (statement tokens fuel)
  /\ advancing e (expressionStatement tokens fuel)
  /\ advancing e (expression tokens fuel)
  /\ advancing e (assignment tokens fuel)
  /\ advancing e (equality tokens fuel)
  /\ advancing e (comparison tokens fuel)
  /\ advancing e (addition tokens fuel)
  /\ advancing e (multiplication tokens fuel)
  /\ advancing e (unary tokens fuel)
  /\ advancing e (call tokens fuel)
  /\ advancing e (primary tokens fuel).
Proof.
  induction fuel as [|fuel IH].
  - repeat match goal with |- _ /\ _ => split end; apply advancing_outOfFuel.
  - destruct IH as (D' & ST' & ES' & EX' & AS' & EQ' & CP' & AD' & MU' & UN' & CA' & PR').
    destruct (all_within fuel)
      as (D & FD & ST & IFS & WS & FS & RS & BS & ES & EX & AS & EQ & CP
          & AD & MU & UN & CA & FC & PR & AL).
    repeat match goal with |- _ /\ _ => split end.
    + cbn [declaration]. repeat advancing_step.
    + cbn [statement]. repeat advancing_step.
    + cbn [expressionStatement]. apply advancing_bind_r; [apply within_peek|].
      intros token. apply advancing_bind_l; [exact EX'|]. intros expr.
      repeat within_step.
    + cbn [expression]. exact AS'.
    + cbn [assignment]. apply advancing_bind_l; [exact EQ'|]. intros expr.
      repeat within_step.
    + cbn [equality]. unfold parseBinaryExpression.
      apply advancing_bind_l; [exact CP'|]. intros expr.
      now apply within_parseBinaryLoop.
    + cbn [comparison]. unfold parseBinaryExpression.
      apply advancing_bind_l; [exact AD'|]. intros expr.
      now apply within_parseBinaryLoop.
    + cbn [addition]. unfold parseBinaryExpression.
      apply advancing_bind_l; [exact MU'|]. intros expr.
      now apply within_parseBinaryLoop.
    + cbn [multiplication]. unfold parseBinaryExpression.
      apply advancing_bind_l; [exact UN'|]. intros expr.
      now apply within_parseBinaryLoop.
    + cbn [unary]. repeat advancing_step.
    + cbn [call]. apply advancing_bind_l; [exact PR'|]. intros expr.
      now apply within_callLoop.
    + cbn [primary]. apply advancing_bind_r; [apply within_peek|]. intros token.
      repeat advancing_step.
      apply advancing_bind_r; [apply within_peek|]. intros t. apply advancing_throw.
Qed.

(** A loop whose body consumes a token collects no more items than it
    consumes tokens. *)
Lemma whilePush_length (A : Type) (cond : M bool) (body : M A) :
  within e cond -> advancing e body ->
  forall (fuel : nat) (acc l : list A) (c c' : nat),
    c <= e ->
    whilePush cond body fuel acc c = Ok (l, c') ->
    length l + c <= length acc + c' /\ c' <= e.
Proof.
  intros Hc Hb. induction fuel as [|fuel IH]; intros acc l c c' Hle H;
    cbn [whilePush] in H; [discriminate|].
  unfold bind in H.
  destruct (cond c) as [[k c1]|x|] eqn:E; try discriminate.
  destruct (Hc c k c1 Hle E) as [H1 H2]. destruct k.
  - destruct (body c1) as [[x c2]|x|] eqn:B; try discriminate.
    destruct (Hb c1 x c2 H2 B) as [H3 H4].
    destruct (IH (acc ++ [x])%list l c2 c' H4 H) as [H5 H6].
    rewrite length_app in H5. simpl in H5. lia.
  - injection H as <- <-. lia.
Qed.

(** *** Nothing behind the end of input is read *)

Variable tokens' : list Token.
Hypothesis same_up_to_e :
  forall i : nat, i <= e -> nth_error tokens i = nth_error tokens' i.

Lemma agree_refl (A : Type) (m : M A) : agree e m m.
Proof. intros c Hc. reflexivity. Qed.

Lemma agree_bind (A B : Type) (m1 m2 : M A) (f1 f2 : A -> M B) :
  agree e m1 m2 -> within e m1 -> (forall a, agree e (f1 a) (f2 a)) ->
  agree e (bind m1 f1) (bind m2 f2).
Proof.
  intros Hm Hw Hf c Hc. unfold bind. rewrite <- (Hm c Hc).
  destruct (m1 c) as [[a c1]|x|] eqn:E; try reflexivity.
  destruct (Hw c a c1 Hc E) as [_ H2]. exact (Hf a c1 H2).
Qed.

Lemma agree_peek : agree e (peek tokens) (peek tokens').
Proof. intros c Hc. unfold peek. now rewrite (same_up_to_e c Hc). Qed.

Lemma agree_previous : agree e (previous tokens) (previous tokens').
Proof.
  intros c Hc. unfold previous. destruct c as [|c]; [reflexivity|].
  rewrite (same_up_to_e c) by lia. reflexivity.
Qed.

Lemma agree_isAtEnd : agree e (isAtEnd tokens) (isAtEnd tokens').
Proof.
  unfold isAtEnd. apply agree_bind; [apply agree_peek | apply within_peek|].
  intros t. apply agree_refl.
Qed.

Lemma agree_advance : agree e (advance tokens) (advance tokens').
Proof.
  intros c Hc. unfold advance, bind, isAtEnd, bind, peek, ret.
  rewrite <- (same_up_to_e c Hc).
  destruct (nth_error tokens c) as [t|] eqn:Ht; [|reflexivity].
  destruct (TokenType_eqb (type t) EOF) eqn:E.
  - exact (agree_previous c Hc).
  - assert (c <> e).
    { intros ->. rewrite at_e in Ht. injection Ht as <-. rewrite is_end in E.
      discriminate. }
    apply agree_previous. lia.
Qed.

Lemma agree_check (ty : TokenType) (v : option string) :
  agree e (check tokens ty v) (check tokens' ty v).
Proof.
  unfold check. apply agree_bind; [apply agree_isAtEnd | apply within_isAtEnd|].
  intros [|]; [apply agree_refl|].
  apply agree_bind; [apply agree_peek | apply within_peek|].
  intros t. apply agree_refl.
Qed.

Lemma agree_match (types : list TokenType) :
  agree e (match_ tokens types) (match_ tokens' types).
Proof.
  induction types as [|ty types IH]; cbn [match_]; [apply agree_refl|].
  apply agree_bind; [apply agree_check | apply within_check|]. intros [|]; [|exact IH].
  apply agree_bind; [apply agree_advance | apply within_advance|].
  intros t. apply agree_refl.
Qed.

Lemma agree_matchValue (ty : TokenType) (v : string) :
  agree e (matchValue tokens ty v) (matchValue tokens' ty v).
Proof.
  unfold matchValue. apply agree_bind; [apply agree_check | apply within_check|].
  intros [|]; [|apply agree_refl].
  apply agree_bind; [apply agree_advance | apply within_advance|].
  intros t. apply agree_refl.
Qed.

Lemma agree_errorAt (A : Type) (message : string) :
  agree e (@errorAt tokens A message) (@errorAt tokens' A message).
Proof.
  unfold errorAt. apply agree_bind; [apply agree_peek | apply within_peek|].
  intros t. apply agree_refl.
Qed.

Lemma agree_consume (ty : TokenType) (message : string) :
  agree e (consume tokens ty message) (consume tokens' ty message).
Proof.
  unfold consume. apply agree_bind; [apply agree_check | apply within_check|].
  intros [|]; [apply agree_advance | apply agree_errorAt].
Qed.

Lemma agree_consumeValue (ty : TokenType) (v message : string) :
  agree e (consumeValue tokens ty v message) (consumeValue tokens' ty v message).
Proof.
  unfold consumeValue. apply agree_bind; [apply agree_check | apply within_check|].
  intros [|]; [apply agree_advance | apply agree_errorAt].
Qed.

Lemma agree_matchThenValue (ty : TokenType) (accept : string -> bool) :
  agree e (matchThenValue tokens ty accept) (matchThenValue tokens' ty accept).
Proof.
  unfold matchThenValue. apply agree_bind; [apply agree_match | apply within_match|].
  intros [|]; [|apply agree_refl].
  apply agree_bind; [apply agree_previous | apply within_previous|].
  intros p. apply agree_refl.
Qed.

Lemma agree_optionalSemicolon :
  agree e (optionalSemicolon tokens) (optionalSemicolon tokens').
Proof.
  unfold optionalSemicolon.
  apply agree_bind; [apply agree_matchThenValue | apply within_matchThenValue|].
  intros b. apply agree_refl.
Qed.

Lemma agree_whilePush (A : Type) (cond1 cond2 : M bool) (body1 body2 : M A) :
  agree e cond1 cond2 -> within e cond1 ->
  agree e body1 body2 -> within e body1 ->
  forall (fuel : nat) (acc : list A),
    agree e (whilePush cond1 body1 fuel acc) (whilePush cond2 body2 fuel acc).
Proof.
  intros Hc Wc Hb Wb. induction fuel as [|fuel IH]; intros acc; cbn [whilePush].
  - apply agree_refl.
  - apply agree_bind; [exact Hc | exact Wc|]. intros [|]; [|apply agree_refl].
    apply agree_bind; [exact Hb | exact Wb|]. intros x. apply IH.
Qed.

Lemma agree_doWhileComma (A : Type) (body1 body2 : M A) :
  agree e body1 body2 -> within e body1 ->
  forall (fuel : nat) (acc : list A),
    agree e (doWhileComma tokens body1 fuel acc) (doWhileComma tokens' body2 fuel acc).
Proof.
  intros Hb Wb. induction fuel as [|fuel IH]; intros acc; cbn [doWhileComma].
  - apply agree_refl.
  - apply agree_bind; [exact Hb | exact Wb|]. intros x.
    apply agree_bind; [apply agree_matchThenValue | apply within_matchThenValue|].
    intros [|]; [apply IH | apply agree_refl].
Qed.

Lemma agree_parseBinaryLoop (next1 next2 : M Expression) (operators : list string) :
  agree e next1 next2 -> within e next1 ->
  forall (fuel : nat) (expr : Expression),
    agree e (parseBinaryLoop tokens next1 operators fuel expr)
            (parseBinaryLoop tokens' next2 operators fuel expr).
Proof.
  intros Hn Wn. induction fuel as [|fuel IH]; intros expr; cbn [parseBinaryLoop].
  - apply agree_refl.
  - apply agree_bind; [apply agree_match | apply within_match|].
    intros [|]; [|apply agree_refl].
    apply agree_bind; [apply agree_previous | apply within_previous|]. intros p.
    destruct (includes operators (value p)); [|apply agree_refl].
    apply agree_bind; [exact Hn | exact Wn|]. intros right.
    apply agree_bind; [apply agree_previous | apply within_previous|]. intros q.
    apply IH.
Qed.

Lemma agree_parseBinaryExpression (next1 next2 : M Expression)
      (operators : list string) (fuel : nat) :
  agree e next1 next2 -> within e next1 ->
  agree e (parseBinaryExpression tokens next1 operators fuel)
          (parseBinaryExpression tokens' next2 operators fuel).
Proof.
  intros Hn Wn. unfold parseBinaryExpression. apply agree_bind; [exact Hn | exact Wn|].
  intros expr. now apply agree_parseBinaryLoop.
Qed.

Lemma agree_callLoop (finish1 finish2 : Expression -> M Expression) :
  (forall callee, agree e (finish1 callee) (finish2 callee)) ->
  (forall callee, within e (finish1 callee)) ->
  forall (fuel : nat) (expr : Expression),
    agree e (callLoop tokens finish1 fuel expr) (callLoop tokens' finish2 fuel expr).
Proof.
  intros Hf Wf. induction fuel as [|fuel IH]; intros expr; cbn [callLoop].
  - apply agree_refl.
  - apply agree_bind; [apply agree_matchThenValue | apply within_matchThenValue|].
    intros [|]; [|apply agree_refl].
    apply agree_bind; [apply Hf | apply Wf|]. intros x. apply IH.
Qed.

(** One step of the proof that a method reads the same in both arrays. *)
Ltac agree_step :=
  first
    [ assumption
    | apply agree_refl
    | apply agree_peek | apply agree_previous | apply agree_isAtEnd
    | apply agree_advance | apply agree_check | apply agree_match
    | apply agree_matchValue | apply agree_consume | apply agree_consumeValue
    | apply agree_matchThenValue | apply agree_optionalSemicolon
    | apply agree_whilePush; [ | solve [repeat within_step] | | solve [repeat within_step] ]
    | apply agree_doWhileComma; [ | solve [repeat within_step] ]
    | apply agree_parseBinaryExpression; [ | solve [repeat within_step] ]
    | apply agree_callLoop; [ | solve [repeat within_step] ]
    | apply agree_bind; [ | solve [repeat within_step] | intros ? ]
    | match goal with
      | |- agree _ (if ?b then _ else _) (if ?b then _ else _) => destruct b
      | |- forall _, _ => intros ?
      end ].

(** All methods of the grammar give the same outcome on two token
    arrays that are equal up to an end-of-input token. *)
Lemma all_agree (fuel : nat) :
  agree e (declaration tokens fuel) (declaration tokens' fuel)
  /\ agree e (functionDeclaration tokens fuel) (functionDeclaration tokens' fuel)
  /\ agree e (statement tokens fuel) (statement tokens' fuel)
  /\ agree e (ifStatement tokens fuel) (ifStatement tokens' fuel)
  /\ agree e (whileStatement tokens fuel) (whileStatement tokens' fuel)
  /\ agree e (forStatement tokens fuel) (forStatement tokens' fuel)
  /\ agree e (returnStatement tokens fuel) (returnStatement tokens' fuel)
  /\ agree e (blockStatement tokens fuel) (blockStatement tokens' fuel)
  /\ agree e (expressionStatement tokens fuel) (expressionStatement tokens' fuel)
  /\ agree e (expression tokens fuel) (expression tokens' fuel)
  /\ agree e (assignment tokens fuel) (assignment tokens' fuel)
  /\ agree e (equality tokens fuel) (equality tokens' fuel)
  /\ agree e (comparison tokens fuel) (comparison tokens' fuel)
  /\ agree e (addition tokens fuel) (addition tokens' fuel)
  /\ agree e (multiplication tokens fuel) (multiplication tokens' fuel)
  /\ agree e (unary tokens fuel) (unary tokens' fuel)
  /\ agree e (call tokens fuel) (call tokens' fuel)
  /\ (forall callee,
         agree e (finishCall tokens fuel callee) (finishCall tokens' fuel callee))
  /\ agree e (primary tokens fuel) (primary tokens' fuel)
  /\ agree e (arrayLiteral tokens fuel) (arrayLiteral tokens' fuel).
Proof.
  induction fuel as [|fuel IH].
  - repeat match goal with |- _ /\ _ => split end;
      first [apply agree_refl | intros ?; apply agree_refl].
  - destruct IH as (D' & FD' & ST' & IFS' & WS' & FS' & RS' & BS' & ES' & EX' & AS'
                    & EQ' & CP' & AD' & MU' & UN' & CA' & FC' & PR' & AL').
    destruct (all_within fuel)
      as (D & FD & ST & IFS & WS & FS & RS & BS & ES & EX & AS & EQ & CP
          & AD & MU & UN & CA & FC & PR & AL).
    repeat match goal with |- _ /\ _ => split end.
    + cbn [declaration]. repeat agree_step.
    + cbn [functionDeclaration]. repeat agree_step.
    + cbn [statement]. repeat agree_step.
    + cbn [ifStatement]. repeat agree_step.
    + cbn [whileStatement]. repeat agree_step.
    + cbn [forStatement]. repeat agree_step.
    + cbn [returnStatement]. repeat agree_step.
    + cbn [blockStatement]. repeat agree_step.
    + cbn [expressionStatement]. repeat agree_step.
    + cbn [expression]. repeat agree_step.
    + cbn [assignment]. repeat agree_step.
    + cbn [equality]. repeat agree_step.
    + cbn [comparison]. repeat agree_step.
    + cbn [addition]. repeat agree_step.
    + cbn [multiplication]. repeat agree_step.
    + cbn [unary]. repeat agree_step.
    + cbn [call]. repeat agree_step.
    + intros callee. cbn [finishCall]. repeat agree_step.
    + cbn [primary]. repeat agree_step.
    + cbn [arrayLiteral]. repeat agree_step.
Qed.

End Bounds.

End ParserBounds.

Module ParserInvariant.

(** X27. A successful parse consumes tokens and stays before the end of
    input.  When an end-of-input token stands at index [e] and a
    declaration or an expression is parsed from an index at or before
    [e], a success ends at an index strictly behind its start and not
    behind [e]: every declaration and every expression consumes at least
    one token, so the loops over declarations cannot stand still, and no
    method steps over the end-of-input token. *)
Theorem successful_parse_consumes_within_input :
  forall (tokens : list Token) (e : nat) (eofToken : Token) (fuel current : nat),
    nth_error tokens e = Some eofToken ->
    type eofToken = EOF ->
    current <= e ->
    (forall (s : Statement) (current' : nat),
        Parser.declaration tokens fuel current = Ok (s, current') ->
        current < current' /\ current' <= e)
    /\ (forall (x : Expression) (current' : nat),
           Parser.expression tokens fuel current = Ok (x, current') ->
           current < current' /\ current' <= e).
Proof.
  intros tokens e eofToken fuel current He Hty Hc.
  pose proof (ParserBounds.all_advancing tokens e eofToken He Hty fuel) as A.
  destruct A as (D & _ & _ & EX & _).
  split.
  - intros s current' H. exact (D current s current' Hc H).
  - intros x current' H. exact (EX current x current' Hc H).
Qed.

Lemma successful_parse_consumes_within_input_witness :
  (forall (s : Statement) (current' : nat),
      Parser.declaration
        [mkToken NUMBER "2" 1 1; mkToken OPERATOR "*" 1 3; mkToken NUMBER "3" 1 5;
         mkToken EOF "" 1 6] 40 0 = Ok (s, current') ->
      0 < current' /\ current' <= 3)
  /\ (forall (x : Expression) (current' : nat),
         Parser.expression
           [mkToken NUMBER "2" 1 1; mkToken OPERATOR "*" 1 3; mkToken NUMBER "3" 1 5;
            mkToken EOF "" 1 6] 40 0 = Ok (x, current') ->
         0 < current' /\ current' <= 3).
Proof.
  apply (successful_parse_consumes_within_input
           [mkToken NUMBER "2" 1 1; mkToken OPERATOR "*" 1 3; mkToken NUMBER "3" 1 5;
            mkToken EOF "" 1 6] 3 (mkToken EOF "" 1 6) 40 0).
  - reflexivity.
  - reflexivity.
  - lia.
Defined.

(** X28. The size of a program.  When [parse] succeeds on a token array
    with an end-of-input token at index [e], the program has at most [e]
    statements, and its node stands at line 1, column 1. *)
Theorem program_no_longer_than_tokens :
  forall (tokens : list Token) (e : nat) (eofToken : Token)
         (body : list Statement) (ln col : nat),
    nth_error tokens e = Some eofToken ->
    type eofToken = EOF ->
    parse tokens = Ok (mkProgram body ln col) ->
    length body <= e /\ ln = 1 /\ col = 1.
Proof.
  intros tokens e eofToken body ln col He Hty H.
  unfold parse, Parser.parse in H.
  destruct (Parser.whilePush _ _ _ _ 0) as [[l c]|x|] eqn:W; try discriminate.
  injection H as <- <- <-.
  pose proof (ParserBounds.all_advancing tokens e eofToken He Hty
                                         (Parser.parseFuel tokens)) as A.
  destruct A as (D & _).
  assert (C : within e (Parser.bind (Parser.isAtEnd tokens)
                                    (fun atEnd => Parser.ret (negb atEnd)))).
  { apply ParserBounds.within_bind; [apply ParserBounds.within_isAtEnd|].
    intros b. apply ParserBounds.within_ret. }
  destruct (ParserBounds.whilePush_length e _ _ _ C D _ _ _ _ _ (Nat.le_0_l e) W)
    as [H1 H2].
  simpl in H1. repeat split. lia.
Qed.

Lemma program_no_longer_than_tokens_witness :
  length [ExpressionStatement (NumericLiteral (Finite 5) 1 1) 1 1;
          ExpressionStatement (NumericLiteral (Finite 3) 1 5) 1 5] <= 3
  /\ 1 = 1 /\ 1 = 1.
Proof.
  apply (program_no_longer_than_tokens
           [mkToken NUMBER "5" 1 1; mkToken OPERATOR "+" 1 3; mkToken NUMBER "3" 1 5;
            mkToken EOF "" 1 6] 3 (mkToken EOF "" 1 6)
           [ExpressionStatement (NumericLiteral (Finite 5) 1 1) 1 1;
            ExpressionStatement (NumericLiteral (Finite 3) 1 5) 1 5] 1 1).
  - reflexivity.
  - reflexivity.
  - vm_compute. reflexivity.
Defined.

(** X29. Nothing behind the end of input is read.  On two token arrays
    that are equal up to an end-of-input token at index [e], parsing a
    declaration or an expression from an index at or before [e] gives
    the same outcome, tree or error: what stands behind the first
    end-of-input token has no influence. *)
Theorem tokens_behind_end_ignored :
  forall (tokens tokens' : list Token) (e : nat) (eofToken : Token)
         (fuel current : nat),
    nth_error tokens e = Some eofToken ->
    type eofToken = EOF ->
    (forall i : nat, i <= e -> nth_error tokens i = nth_error tokens' i) ->
    current <= e ->
    Parser.declaration tokens fuel current = Parser.declaration tokens' fuel current
    /\ Parser.expression tokens fuel current = Parser.expression tokens' fuel current.
Proof.
  intros tokens tokens' e eofToken fuel current He Hty Hsame Hc.
  pose proof (ParserBounds.all_agree tokens e eofToken He Hty tokens' Hsame fuel) as A.
  destruct A as (D & _ & _ & _ & _ & _ & _ & _ & _ & EX & _).
  split; [exact (D current Hc) | exact (EX current Hc)].
Qed.

Lemma tokens_behind_end_ignored_witness :
  Parser.declaration [mkToken NUMBER "2" 1 1; mkToken EOF "" 1 2] 40 0
  = Parser.declaration
      [mkToken NUMBER "2" 1 1; mkToken EOF "" 1 2; mkToken OPERATOR "*" 1 3] 40 0
  /\ Parser.expression [mkToken NUMBER "2" 1 1; mkToken EOF "" 1 2] 40 0
     = Parser.expression
         [mkToken NUMBER "2" 1 1; mkToken EOF "" 1 2; mkToken OPERATOR "*" 1 3] 40 0.
Proof.
  apply (tokens_behind_end_ignored
           [mkToken NUMBER "2" 1 1; mkToken EOF "" 1 2]
           [mkToken NUMBER "2" 1 1; mkToken EOF "" 1 2; mkToken OPERATOR "*" 1 3]
           1 (mkToken EOF "" 1 2) 40 0).
  - reflexivity.
  - reflexivity.
  - intros [|[|i]] Hi; [reflexivity | reflexivity | lia].
  - lia.
Defined.

End ParserInvariant.

Module TokenLines.
Import LexerFacts LexerTheorems LexerProgress LexerStretches.

(** X30. The line of a word token is the line reached behind the word.
    A word of letters, digits and underscores that stands at line [ln],
    column [col] yields a token with column [col] whose line is [ln]
    when the character behind the word is no line feed (or the text
    ends), and [ln + 1] when the word is directly followed by a line
    feed. *)
Theorem word_token_line :
  forall (pre w rest : string) (c : ascii) (ln col : nat),
    isIdentStart c = true ->
    allChars isIdentChar w = true ->
    startsWith isIdentChar rest = false ->
    exists (tok : Token) (L' : Lexer.Lexer),
      Lexer.getNextToken
        (lexerAt (pre ++ String c w ++ rest) (String.length pre) ln col)
      = Ok (tok, L')
      /\ line tok = ln + newlinesIn (substring 0 1 rest)
      /\ column tok = col.
Proof.
  intros pre w rest c ln col Hc Hw Hrest.
  assert (Hcw : allChars isIdentChar (String c w) = true).
  { cbn [allChars]. destruct (identStart_dispatch c Hc) as (_ & _ & _ & _ & _ & K).
    now rewrite K, Hw. }
  pose proof (identifier_stretch pre (String c w) rest ln col Hcw Hrest) as I.
  cbv zeta in I.
  eexists. eexists. split; [|split].
  - rewrite (getNextToken_identifier pre rest w c ln col Hc). exact I.
  - assert (T : forall s l k, line (Lexer.classify s l k) = l).
    { intros s l k. unfold Lexer.classify.
      destruct (includes KEYWORDS (toLowerCase s));
        [|destruct (includes OPERATORS (toLowerCase s))]; reflexivity. }
    rewrite T, line_iter_advance.
    cbn [Lexer.line Lexer.position Lexer.code lexerAt].
    rewrite substring_stepped, newlinesIn_app.
    rewrite (newlinesIn_free isIdentChar w); [reflexivity | reflexivity | exact Hw].
  - unfold Lexer.classify.
    destruct (includes KEYWORDS (toLowerCase (String c w)));
      [|destruct (includes OPERATORS (toLowerCase (String c w)))]; reflexivity.
Qed.

Lemma word_token_line_witness :
  exists (tok : Token) (L' : Lexer.Lexer),
    Lexer.getNextToken
      (lexerAt ("x = " ++ String "a" "b" ++ String newline "y") (String.length "x = ") 1 5)
    = Ok (tok, L')
    /\ line tok = 1 + newlinesIn (substring 0 1 (String newline "y"))
    /\ column tok = 5.
Proof.
  apply (word_token_line "x = " "b" (String newline "y") "a" 1 5); reflexivity.
Defined.

End TokenLines.
